(** * Shallow embedding of the dev-server HMR core

    The development follows the TypeScript sources:

    - [Plugins]  : [sortUserPlugins] (node/config.ts) and
                   [getSortedPluginsByHook] (node/plugins/index.ts);
    - [WsServer] : the server side of the message channel
                   ([createWebSocketServer], node/server/ws.ts);
    - [Url]      : [injectQuery] of the client runtime (client/client.ts)
                   with the platform's URL parser as far as it decides
                   [search] and [hash];
    - [Client]   : the registries of the browser runtime, the per-module
                   hot context and the sessions of a page
                   (client/client.ts);
    - [Hmr]      : [fetchUpdate] with [queueUpdate], [handleMessage] for
                   [full-reload], and the socket set-up with its fallback
                   (client/client.ts);
    - [Resolve]  : [resolvePlugins] and [createPluginHookUtils]
                   (node/plugins/index.ts), the user plugins of
                   [resolveConfig] and [runConfigHook] (node/config.ts);
    - [BaseUrl]  : [resolveBaseUrl] (node/config.ts);
    - [WsEvents], [WsBroadcast] : the custom event listeners and the
                   broadcast of the server channel (node/server/ws.ts);
    - [Registrations] : what the registrations of a hot context do when
                   payloads arrive (client/client.ts);
    - [Outbox], [UpdateQueue], [Styles], [Ping], [Connection],
      [FirstUpdate] : the message buffer, the batching of updates, the
                   injected styles, the polling loop, the sockets of a
                   session and the first update (client/client.ts).

    JavaScript maps are [gmap]s, arrays are lists, functions are compared
    by identity and therefore carry an identifier, objects that are
    shared by reference live in an explicit store.  Console output is not
    part of the recorded effects unless stated otherwise. *)

From Stdlib Require Import ZArith Ascii String.
From stdpp Require Import gmap strings list fin_maps pretty.

Set Warnings "-register-all".
Local Open Scope string_scope.
Local Open Scope list_scope.

(** ** JavaScript values, as far as the client looks at them *)

Module JS.

(** Function objects are compared by identity. *)
Definition FnId := nat.

(** Values that reach [hot.accept] with type [any].  A number is kept
    up to what the code observes of it: whether it is [NaN] or zero. *)
Inductive Value :=
| VUndefined
| VNull
| VBool (b : bool)
| VNumber (z : Z)
| VNaN
| VString (s : string)
| VFunction (f : FnId)
| VArray (elems : list Value)
| VObject (id : nat).

(** [ToBoolean]. *)
Definition truthy (v : Value) : bool :=
  match v with
  | VUndefined | VNull | VNaN => false
  | VBool b => b
  | VNumber z => negb (z =? 0)%Z
  | VString s => negb (String.eqb s "")
  | VFunction _ | VArray _ | VObject _ => true
  end.

(** [typeof v === 'function'] *)
Definition is_function (v : Value) : bool :=
  match v with VFunction _ => true | _ => false end.

(** [typeof v === 'string'] *)
Definition is_string (v : Value) : bool :=
  match v with VString _ => true | _ => false end.

(** [Array.isArray(v)] *)
Definition is_array (v : Value) : bool :=
  match v with VArray _ => true | _ => false end.

(** [v === s] for a string [s] (strict equality against a string). *)
Definition strict_eq_string (v : Value) (s : string) : bool :=
  match v with VString t => String.eqb t s | _ => false end.

Lemma strict_eq_string_spec v s :
  strict_eq_string v s = true ↔ v = VString s.
Proof.
  destruct v; simpl; try (split; [discriminate | congruence]).
  rewrite String.eqb_eq. split; congruence.
Qed.

End JS.

(** ** Plugin ordering *)

Module Plugins.

(** [enforce?: 'pre' | 'post'] *)
Inductive Enforce := EnforcePre | EnforcePost.

(** [order?: 'pre' | 'post' | null] of an object hook *)
Inductive Order := OrderPre | OrderPost.

(** A hook is a bare function or an object [{ order?, handler }]. *)
Inductive Hook :=
| HookFunction (handler : JS.FnId)
| HookObject (order : option Order) (handler : JS.FnId).

(** A plugin, as far as the ordering code reads it.  [hooks p !! h] is
    [None] when [p[h]] is missing or falsy. *)
Record Plugin := mkPlugin {
  name : string;
  enforce : option Enforce;
  hooks : gmap string Hook
}.

(** The three bands. *)
Inductive Band := BandPre | BandNormal | BandPost.

#[global] Instance Band_eq_dec : EqDecision Band.
Proof. solve_decision. Defined.

(** [plugins.flat()] on [(Plugin | Plugin[])[]] *)
Definition flat (plugins : list (Plugin + list Plugin)) : list Plugin :=
  concat (map (λ e, match e with inl p => [p] | inr ps => ps end) plugins).

(** One iteration of the [forEach] in [sortUserPlugins]; the accumulator
    is [(prePlugins, postPlugins, normalPlugins)] and [push] appends. *)
Definition sortUserPlugins_step
    (acc : list Plugin * list Plugin * list Plugin) (p : Plugin) :=
  let '(prePlugins, postPlugins, normalPlugins) := acc in
  match enforce p with
  | Some EnforcePre => (prePlugins ++ [p], postPlugins, normalPlugins)
  | Some EnforcePost => (prePlugins, postPlugins ++ [p], normalPlugins)
  | None => (prePlugins, postPlugins, normalPlugins ++ [p])
  end.

(** [sortUserPlugins(plugins)] returns [[prePlugins, normalPlugins,
    postPlugins]]. *)
Definition sortUserPlugins (plugins : option (list (Plugin + list Plugin)))
    : list Plugin * list Plugin * list Plugin :=
  let '(prePlugins, postPlugins, normalPlugins) :=
    match plugins with
    | Some ps => fold_left sortUserPlugins_step (flat ps) ([], [], [])
    | None => ([], [], [])
    end in
  (prePlugins, normalPlugins, postPlugins).

(** One iteration of the [for] loop of [getSortedPluginsByHook]; the
    accumulator is [(pre, normal, post)]. *)
Definition getSortedPluginsByHook_step (hookName : string)
    (acc : list Plugin * list Plugin * list Plugin) (plugin : Plugin) :=
  let '(pre, normal, post) := acc in
  match hooks plugin !! hookName with
  | Some (HookObject (Some OrderPre) _) => (pre ++ [plugin], normal, post)
  | Some (HookObject (Some OrderPost) _) => (pre, normal, post ++ [plugin])
  | Some _ => (pre, normal ++ [plugin], post)
  | None => (pre, normal, post)
  end.

Definition getSortedPluginsByHook (hookName : string) (plugins : list Plugin)
    : list Plugin :=
  let '(pre, normal, post) :=
    fold_left (getSortedPluginsByHook_step hookName) plugins ([], [], []) in
  pre ++ normal ++ post.

(** The band in which a plugin is consulted for a hook, if it has it. *)
Definition hook_band (hookName : string) (p : Plugin) : option Band :=
  match hooks p !! hookName with
  | Some (HookObject (Some OrderPre) _) => Some BandPre
  | Some (HookObject (Some OrderPost) _) => Some BandPost
  | Some _ => Some BandNormal
  | None => None
  end.

(** The band of a user plugin, from its [enforce] field. *)
Definition enforce_band (p : Plugin) : Band :=
  match enforce p with
  | Some EnforcePre => BandPre
  | Some EnforcePost => BandPost
  | None => BandNormal
  end.

(** *** Proofs *)

Lemma getSortedPluginsByHook_step_band hookName pre normal post p :
  getSortedPluginsByHook_step hookName (pre, normal, post) p
  = match hook_band hookName p with
    | Some BandPre => (pre ++ [p], normal, post)
    | Some BandNormal => (pre, normal ++ [p], post)
    | Some BandPost => (pre, normal, post ++ [p])
    | None => (pre, normal, post)
    end.
Proof.
  unfold getSortedPluginsByHook_step, hook_band.
  by destruct (hooks p !! hookName) as [[h|[[]|] h]|].
Qed.

Lemma getSortedPluginsByHook_fold hookName plugins pre normal post :
  fold_left (getSortedPluginsByHook_step hookName) plugins (pre, normal, post)
  = (pre ++ filter (λ p, hook_band hookName p = Some BandPre) plugins,
     normal ++ filter (λ p, hook_band hookName p = Some BandNormal) plugins,
     post ++ filter (λ p, hook_band hookName p = Some BandPost) plugins).
Proof.
  revert pre normal post.
  induction plugins as [|p plugins IH]; intros pre normal post.
  - by rewrite !filter_nil, !app_nil_r.
  - cbn [fold_left]. rewrite getSortedPluginsByHook_step_band, !filter_cons.
    destruct (hook_band hookName p) as [[]|]; rewrite IH;
      repeat case_decide; try done; by rewrite <- ?app_assoc.
Qed.

Lemma sortUserPlugins_step_band pre post normal p :
  sortUserPlugins_step (pre, post, normal) p
  = match enforce_band p with
    | BandPre => (pre ++ [p], post, normal)
    | BandPost => (pre, post ++ [p], normal)
    | BandNormal => (pre, post, normal ++ [p])
    end.
Proof.
  unfold sortUserPlugins_step, enforce_band. by destruct (enforce p) as [[]|].
Qed.

Lemma sortUserPlugins_fold plugins pre post normal :
  fold_left sortUserPlugins_step plugins (pre, post, normal)
  = (pre ++ filter (λ p, enforce_band p = BandPre) plugins,
     post ++ filter (λ p, enforce_band p = BandPost) plugins,
     normal ++ filter (λ p, enforce_band p = BandNormal) plugins).
Proof.
  revert pre post normal.
  induction plugins as [|p plugins IH]; intros pre post normal.
  - by rewrite !filter_nil, !app_nil_r.
  - cbn [fold_left]. rewrite sortUserPlugins_step_band, !filter_cons.
    destruct (enforce_band p); rewrite IH;
      repeat case_decide; try done; by rewrite <- ?app_assoc.
Qed.

(** The three bands returned by [sortUserPlugins], in the order of the
    returned tuple. *)
Lemma sortUserPlugins_filter plugins :
  sortUserPlugins (Some plugins)
  = (filter (λ p, enforce_band p = BandPre) (flat plugins),
     filter (λ p, enforce_band p = BandNormal) (flat plugins),
     filter (λ p, enforce_band p = BandPost) (flat plugins)).
Proof. unfold sortUserPlugins. by rewrite sortUserPlugins_fold. Qed.

Lemma getSortedPluginsByHook_filter hookName plugins :
  getSortedPluginsByHook hookName plugins
  = filter (λ p, hook_band hookName p = Some BandPre) plugins
    ++ filter (λ p, hook_band hookName p = Some BandNormal) plugins
    ++ filter (λ p, hook_band hookName p = Some BandPost) plugins.
Proof. unfold getSortedPluginsByHook. by rewrite getSortedPluginsByHook_fold. Qed.

(** Filtering a band out of the sorted list gives back the band. *)
Lemma filter_band_sorted hookName plugins b :
  filter (λ p, hook_band hookName p = Some b)
         (getSortedPluginsByHook hookName plugins)
  = filter (λ p, hook_band hookName p = Some b) plugins.
Proof.
  rewrite getSortedPluginsByHook_filter, !filter_app, !list_filter_filter.
  assert (Hsame : ∀ l : list Plugin, filter (λ p, hook_band hookName p = Some b
                                    ∧ hook_band hookName p = Some b) l
                       = filter (λ p, hook_band hookName p = Some b) l).
  { intros l. apply list_filter_iff. intros p. tauto. }
  assert (Hnone : ∀ b' (l : list Plugin), b' ≠ b →
             filter (λ p, hook_band hookName p = Some b
                          ∧ hook_band hookName p = Some b') l = []).
  { intros b' l Hb. induction l as [|x l IHl]; [done|].
    rewrite filter_cons. case_decide as Hx; [|done].
  destruct Hx as [Hx1 Hx2]. congruence. }
  destruct b; rewrite ?Hsame, ?Hnone by done; by rewrite ?app_nil_r.
Qed.

(** C4. For every plugin list and hook name, the plugins consulted for
    the hook are the pre band, then the normal band, then the post
    band; each band is the input list filtered to that band, so inside
    a band the plugins keep their relative input order (a stable
    partition of the plugins that have the hook).  The user plugins are
    split by [enforce] in the same stable way by [sortUserPlugins]. *)
Theorem plugins_consulted_in_stable_band_order
    (hookName : string) (plugins : list Plugin)
    (userPlugins : list (Plugin + list Plugin)) :
  getSortedPluginsByHook hookName plugins
  = filter (λ p, hook_band hookName p = Some BandPre) plugins
    ++ filter (λ p, hook_band hookName p = Some BandNormal) plugins
    ++ filter (λ p, hook_band hookName p = Some BandPost) plugins
  ∧ getSortedPluginsByHook hookName plugins
    ≡ₚ filter (λ p, is_Some (hook_band hookName p)) plugins
  ∧ (∀ b, filter (λ p, hook_band hookName p = Some b)
                 (getSortedPluginsByHook hookName plugins)
          = filter (λ p, hook_band hookName p = Some b) plugins)
  ∧ sortUserPlugins (Some userPlugins)
    = (filter (λ p, enforce_band p = BandPre) (flat userPlugins),
       filter (λ p, enforce_band p = BandNormal) (flat userPlugins),
       filter (λ p, enforce_band p = BandPost) (flat userPlugins)).
Proof.
  split; [apply getSortedPluginsByHook_filter|].
  split; [|split; [intros b; apply filter_band_sorted
                  |apply sortUserPlugins_filter]].
  rewrite getSortedPluginsByHook_filter.
  induction plugins as [|p plugins IH]; [done|].
  rewrite !filter_cons.
  destruct (hook_band hookName p) as [[]|] eqn:Hb;
    repeat case_decide; try done;
    try (match goal with H : ¬ is_Some _ |- _ => destruct H; eauto end);
    try (match goal with H : is_Some None |- _ => by destruct H end).
  - simpl. by f_equiv.
  - rewrite <- IH. by rewrite Permutation_middle.
  - rewrite <- IH.
    rewrite (app_assoc _ _ (p :: _)), <- Permutation_middle.
    by rewrite <- app_assoc.
Qed.

End Plugins.

(** ** The wire payloads (types/hmrPayload) *)

Module Payload.

Inductive UpdateType := JsUpdate | CssUpdate.

(** [timestamp] is [Date.now()] on the server, a natural number. *)
Record Update := mkUpdate {
  type : UpdateType;
  path : string;
  acceptedPath : string;
  timestamp : N;
  explicitImportRequired : option bool
}.

(** The [err] object of an error payload; only the fields the client
    prints are kept. *)
Record ErrorInfo := mkErrorInfo {
  message : string;
  stack : string
}.

Inductive HMRPayload :=
| Connected
| UpdateBatch (updates : list Update)
| FullReload (path : option string)
| Prune (paths : list string)
| Error (err : ErrorInfo)
| Custom (event : string) (data : JS.Value).

(** [payload.type === 'error'] *)
Definition is_error (p : HMRPayload) : bool :=
  match p with Error _ => true | _ => false end.

End Payload.

(** ** The server side of the message channel *)

Module WsServer.
Import Payload.

(** A raw socket of the [ws] library, by identity. *)
Definition Socket := nat.

(** [readyState] values of a socket. *)
Definition OPEN : nat := 1.
Definition CLOSING : nat := 2.
Definition CLOSED : nat := 3.

(** The closure state of [createWebSocketServer] together with what the
    [ws] library holds: [wss.clients] (a set, kept in insertion order),
    the [readyState] of each socket, [bufferedError], and the frames
    handed to [socket.send] so far, oldest first.  A frame is recorded
    as the payload given to [JSON.stringify]. *)
Record State := mkState {
  clients : list Socket;
  readyState : gmap Socket nat;
  bufferedError : option HMRPayload;
  sent : list (Socket * HMRPayload)
}.

(** The state right after [createWebSocketServer] returns. *)
Definition init : State :=
  {| clients := []; readyState := ∅; bufferedError := None; sent := [] |}.

(** [socket.send(JSON.stringify(payload))] *)
Definition socket_send (socket : Socket) (payload : HMRPayload) (st : State)
    : State :=
  {| clients := clients st; readyState := readyState st;
     bufferedError := bufferedError st;
     sent := sent st ++ [(socket, payload)] |}.

(** The arguments of [send(...args)]: a payload, or an event name with
    its data. *)
Inductive SendArgs :=
| SendPayload (payload : HMRPayload)
| SendEvent (event : string) (data : JS.Value).

Definition payload_of (args : SendArgs) : HMRPayload :=
  match args with
  | SendEvent event data => Custom event data
  | SendPayload payload => payload
  end.

(** [send(...args)] of the returned server object. *)
Definition send (args : SendArgs) (st : State) : State :=
  let payload := payload_of args in
  if is_error payload && (length (clients st) =? 0)%nat then
    {| clients := clients st; readyState := readyState st;
       bufferedError := Some payload; sent := sent st |}
  else
    (* [wss.clients.forEach((client) => ...)] *)
    fold_left
      (λ st client,
         if decide (readyState st !! client = Some OPEN)
         then socket_send client payload st else st)
      (clients st) st.

(** The body of [wss.on('connection', (socket) => ...)], after the
    message listener is installed. *)
Definition on_connection (socket : Socket) (st : State) : State :=
  let st := socket_send socket Connected st in
  match bufferedError st with
  | Some err =>
      let st := socket_send socket err st in
      {| clients := clients st; readyState := readyState st;
         bufferedError := None; sent := sent st |}
  | None => st
  end.

(** What the [ws] library does when an upgrade completes: the socket
    joins [wss.clients] in state [OPEN], then 'connection' is emitted. *)
Definition accept_connection (socket : Socket) (st : State) : State :=
  on_connection socket
    {| clients := if decide (socket ∈ clients st) then clients st
                  else clients st ++ [socket];
       readyState := <[socket := OPEN]> (readyState st);
       bufferedError := bufferedError st; sent := sent st |}.

(** What can happen to the server. *)
Inductive Event :=
| EvSend (args : SendArgs)          (* [ws.send(...)] is called *)
| EvConnection (socket : Socket)    (* a client connects *)
| EvClosing (socket : Socket)       (* a socket starts closing *)
| EvClosed (socket : Socket).       (* a socket is closed and dropped *)

Definition step (st : State) (ev : Event) : State :=
  match ev with
  | EvSend args => send args st
  | EvConnection socket => accept_connection socket st
  | EvClosing socket =>
      {| clients := clients st;
         readyState := <[socket := CLOSING]> (readyState st);
         bufferedError := bufferedError st; sent := sent st |}
  | EvClosed socket =>
      {| clients := filter (λ c, c ≠ socket) (clients st);
         readyState := <[socket := CLOSED]> (readyState st);
         bufferedError := bufferedError st; sent := sent st |}
  end.

Definition run (evs : list Event) (st : State) : State :=
  fold_left step evs st.

(** The frames one socket was sent, oldest first. *)
Definition frames_to (socket : Socket) (log : list (Socket * HMRPayload))
    : list HMRPayload :=
  (filter (λ m, m.1 = socket) log).*2.

Definition sent_to (socket : Socket) (st : State) : list HMRPayload :=
  frames_to socket (sent st).

(** Events other than a connection. *)
Definition no_connection (ev : Event) : bool :=
  match ev with
  | EvConnection _ => false
  | EvSend _ | EvClosing _ | EvClosed _ => true
  end.

(** Events that are neither a connection nor the sending of an error. *)
Definition quiet (ev : Event) : bool :=
  match ev with
  | EvSend args => negb (is_error (payload_of args))
  | EvConnection _ => false
  | EvClosing _ | EvClosed _ => true
  end.

(** The error payload sent last: [pending], unless a later event of
    [evs] sends another error. *)
Definition latest_error (pending : HMRPayload) (evs : list Event)
    : HMRPayload :=
  fold_left
    (λ pending ev,
       match ev with
       | EvSend args =>
           if is_error (payload_of args) then payload_of args else pending
       | _ => pending
       end)
    evs pending.

(** *** Proofs *)

Lemma frames_to_app socket log1 log2 :
  frames_to socket (log1 ++ log2)
  = frames_to socket log1 ++ frames_to socket log2.
Proof. unfold frames_to. by rewrite filter_app, fmap_app. Qed.

Lemma frames_to_cons socket c p log :
  frames_to socket ((c, p) :: log)
  = if decide (c = socket) then p :: frames_to socket log
    else frames_to socket log.
Proof. unfold frames_to. rewrite filter_cons. simpl. by case_decide. Qed.

(** The [forEach] of [send] writes one frame per open client, in the
    order of [wss.clients], and touches nothing else. *)
Lemma broadcast_fold payload cs st :
  fold_left
    (λ st client,
       if decide (readyState st !! client = Some OPEN)
       then socket_send client payload st else st) cs st
  = {| clients := clients st; readyState := readyState st;
       bufferedError := bufferedError st;
       sent := sent st
               ++ ((λ c, (c, payload))
                   <$> filter (λ c, readyState st !! c = Some OPEN) cs) |}.
Proof.
  revert st. induction cs as [|c cs IH]; intros st.
  - simpl. rewrite app_nil_r. by destruct st.
  - cbn [fold_left]. rewrite IH, filter_cons.
    case_decide; simpl; [|done]. by rewrite <- app_assoc.
Qed.

Lemma send_spec args st :
  send args st
  = if is_error (payload_of args) && (length (clients st) =? 0)%nat
    then {| clients := clients st; readyState := readyState st;
            bufferedError := Some (payload_of args); sent := sent st |}
    else {| clients := clients st; readyState := readyState st;
            bufferedError := bufferedError st;
            sent := sent st
                    ++ ((λ c, (c, payload_of args))
                        <$> filter (λ c, readyState st !! c = Some OPEN)
                                   (clients st)) |}.
Proof. unfold send. by rewrite broadcast_fold. Qed.

(** On a server without clients an event other than a connection sends
    nothing; an error payload takes the place of the buffered one. *)
Lemma step_no_clients st ev pending :
  clients st = [] → no_connection ev = true →
  bufferedError st = Some pending →
  clients (step st ev) = []
  ∧ bufferedError (step st ev) = Some (latest_error pending [ev])
  ∧ sent (step st ev) = sent st.
Proof.
  intros Hc Hn Hb. destruct ev as [args|s|s|s]; simpl in *; try done.
  - rewrite send_spec, Hc. simpl.
    destruct (is_error (payload_of args)); simpl; [done|].
    by rewrite app_nil_r.
  - by rewrite Hc.
Qed.

Lemma run_no_clients evs st pending :
  clients st = [] → forallb no_connection evs = true →
  bufferedError st = Some pending →
  clients (run evs st) = []
  ∧ bufferedError (run evs st) = Some (latest_error pending evs)
  ∧ sent (run evs st) = sent st.
Proof.
  revert st pending.
  induction evs as [|ev evs IH]; intros st pending Hc Hn Hb; [done|].
  simpl in Hn. apply andb_true_iff in Hn as [Hn1 Hn2].
  destruct (step_no_clients st ev pending Hc Hn1 Hb) as (Hc' & Hb' & Hs').
  destruct (IH (step st ev) _ Hc' Hn2 Hb') as (Hc2 & Hb2 & Hs2).
  change (run (ev :: evs) st) with (run evs (step st ev)).
  change (latest_error pending (ev :: evs))
    with (latest_error (latest_error pending [ev]) evs).
  repeat split; congruence.
Qed.

Lemma latest_error_quiet pending evs :
  forallb quiet evs = true → latest_error pending evs = pending.
Proof.
  induction evs as [|ev evs IH]; [done|]. simpl.
  intros [Hq Hqs]%andb_true_iff. unfold latest_error in *. simpl.
  destruct ev as [args|s|s|s]; simpl in *; try done; try by apply IH.
  apply negb_true_iff in Hq. rewrite Hq. by apply IH.
Qed.

(** C5, as the code has it. When [send] is given an error payload
    while [wss.clients] is empty, nothing is sent and the payload takes
    the one slot [bufferedError].  Whatever happens before a client
    connects, nothing is sent, and the first socket that connects is
    sent [connected] and then the error that holds the slot; the slot is
    empty afterwards.  The error in the slot is the payload itself
    unless [send] was given another error in between, which then took
    its place. *)
Theorem error_buffered_until_first_connection
    (st : State) (err : ErrorInfo) (evs : list Event) (socket : Socket) :
  clients st = [] →
  forallb no_connection evs = true →
  let st1 := send (SendPayload (Error err)) st in
  let st2 := run evs st1 in
  let st3 := step st2 (EvConnection socket) in
  bufferedError st1 = Some (Error err)
  ∧ sent st1 = sent st
  ∧ bufferedError st2 = Some (latest_error (Error err) evs)
  ∧ sent st2 = sent st
  ∧ sent st3 = sent st ++ [(socket, Connected);
                           (socket, latest_error (Error err) evs)]
  ∧ bufferedError st3 = None
  ∧ (forallb quiet evs = true → latest_error (Error err) evs = Error err).
Proof.
  intros Hc Hn st1 st2 st3.
  assert (H1 : st1 = {| clients := clients st; readyState := readyState st;
                        bufferedError := Some (Error err);
                        sent := sent st |}).
  { unfold st1. rewrite send_spec, Hc. done. }
  assert (Hc1 : clients st1 = []) by (by rewrite H1).
  assert (Hb1 : bufferedError st1 = Some (Error err)) by (by rewrite H1).
  destruct (run_no_clients evs st1 _ Hc1 Hn Hb1) as (Hc2 & Hb2 & Hs2).
  fold st2 in Hc2, Hb2, Hs2.
  assert (Hs : sent st2 = sent st) by (by rewrite Hs2, H1).
  repeat split; try done; try (by rewrite H1).
  - unfold st3. simpl. unfold accept_connection, on_connection. simpl.
    rewrite Hb2. simpl. by rewrite Hs, <- app_assoc.
  - unfold st3. simpl. unfold accept_connection, on_connection. simpl.
    by rewrite Hb2.
  - apply latest_error_quiet.
Qed.

Lemma error_buffered_until_first_connection_witness :
  let st3 :=
    step (run [EvSend (SendEvent "my:event" JS.VNull); EvClosed 7]
              (send (SendPayload (Error (mkErrorInfo "boom" "at x"))) init))
         (EvConnection 1) in
  sent st3 = [(1, Connected); (1, Error (mkErrorInfo "boom" "at x"))]
  ∧ bufferedError st3 = None.
Proof.
  pose proof (error_buffered_until_first_connection init
                (mkErrorInfo "boom" "at x")
                [EvSend (SendEvent "my:event" JS.VNull); EvClosed 7] 1
                eq_refl eq_refl) as H.
  simpl in H. destruct H as (_ & _ & _ & _ & Hs & Hb & _). split; assumption.
Defined.

(** C5 as stated fails: two errors are sent before anyone connects; the
    first client is sent [connected] and the second error, the next
    client [connected] alone, and the buffer is empty: the first error
    was never sent to anyone. *)
Lemma earlier_error_is_overwritten :
  let first := Error (mkErrorInfo "first" "at x") in
  let second := Error (mkErrorInfo "second" "at y") in
  let st := run [EvSend (SendPayload first); EvSend (SendPayload second);
                 EvConnection 1; EvConnection 2] init in
  sent st = [(1, Connected); (1, second); (2, Connected)]
  ∧ bufferedError st = None.
Proof. by vm_compute. Qed.

(** Not part of C5: the test of [send] is on the clients that are
    tracked, not on the open ones.  With one client that is closing, an
    error is neither sent nor kept, and a client that connects later is
    sent [connected] alone. *)
Lemma error_with_closing_client_is_dropped :
  let st := run [EvConnection 1; EvClosing 1;
                 EvSend (SendPayload (Error (mkErrorInfo "boom" "at x")));
                 EvClosed 1; EvConnection 2] init in
  sent st = [(1, Connected); (2, Connected)]
  ∧ bufferedError st = None.
Proof. by vm_compute. Qed.

(** The invariant behind the greeting: every tracked client has been
    sent something, and whatever a socket was sent starts with
    [connected]. *)
Definition greeted (st : State) : Prop :=
  (∀ s, s ∈ clients st → sent_to s st ≠ [])
  ∧ (∀ s, sent_to s st = [] ∨ ∃ rest, sent_to s st = Connected :: rest).

Lemma frames_to_broadcast s payload (cs : list Socket) :
  s ∉ cs → frames_to s ((λ c, (c, payload)) <$> cs) = [].
Proof.
  induction cs as [|c cs IH]; intros Hs; [done|].
  rewrite fmap_cons, frames_to_cons.
  apply not_elem_of_cons in Hs as [Hne Hs].
  case_decide; [congruence | by apply IH].
Qed.

Lemma greeted_init : greeted init.
Proof. split; [intros s Hs; by apply elem_of_nil in Hs | intros s; by left]. Qed.

Lemma head_connected_app (l extra : list HMRPayload) :
  l ≠ [] →
  (l = [] ∨ ∃ rest, l = Connected :: rest) →
  ∃ rest, l ++ extra = Connected :: rest.
Proof. intros Hne [?|[rest ->]]; [done|]. by exists (rest ++ extra). Qed.

Lemma frames_to_other s s0 (extra : list (Socket * HMRPayload)) :
  s ≠ s0 → Forall (λ m, m.1 = s0) extra → frames_to s extra = [].
Proof.
  intros Hne Hall. induction Hall as [|[c p] extra Hc _ IH]; [done|].
  rewrite frames_to_cons. simpl in Hc. case_decide; [congruence | done].
Qed.

(** Appending a greeting for [s0], followed by more frames for [s0],
    keeps every socket's first frame a greeting. *)
Lemma greeting_keeps_heads log s0 extra s :
  (frames_to s log = [] ∨ ∃ rest, frames_to s log = Connected :: rest) →
  Forall (λ m, m.1 = s0) extra →
  frames_to s (log ++ (s0, Connected) :: extra) = []
  ∨ ∃ rest, frames_to s (log ++ (s0, Connected) :: extra) = Connected :: rest.
Proof.
  intros Hhd Hall. rewrite frames_to_app, frames_to_cons.
  destruct Hhd as [->|[rest ->]]; [|right; by eexists].
  simpl. case_decide as Hs; [right; by eexists|].
  left. apply frames_to_other with s0; [congruence | done].
Qed.

Lemma greeted_step st ev : greeted st → greeted (step st ev).
Proof.
  intros [Hcl Hhd]. destruct ev as [args|s0|s0|s0]; simpl.
  - (* send *)
    rewrite send_spec.
    destruct (is_error (payload_of args) && (length (clients st) =? 0)%nat);
      [by split|].
    unfold greeted, sent_to in *. simpl.
    split; intros s.
    + intros Hs. rewrite frames_to_app.
      specialize (Hcl s Hs). by destruct (frames_to s (sent st)).
    + rewrite frames_to_app.
      destruct (decide (s ∈ clients st)) as [Hin|Hin].
      * right. apply head_connected_app; auto.
      * rewrite frames_to_broadcast, app_nil_r; [apply Hhd|].
        intros Hf. apply Hin. by apply list_elem_of_filter in Hf as [_ ?].
  - (* connection *)
    unfold accept_connection, on_connection. simpl.
    assert (Hne : ∀ extra,
              frames_to s0 (sent st ++ (s0, Connected) :: extra) ≠ []).
    { intros extra. rewrite frames_to_app, frames_to_cons.
      rewrite decide_True by done. by destruct (frames_to s0 (sent st)). }
    assert (Hold : ∀ extra s, s ∈ clients st →
              frames_to s (sent st ++ extra) ≠ []).
    { intros extra s Hs. rewrite frames_to_app. specialize (Hcl s Hs).
      unfold sent_to in Hcl. by destruct (frames_to s (sent st)). }
    assert (Hmem : ∀ s, s ∈ (if decide (s0 ∈ clients st) then clients st
                             else clients st ++ [s0]) →
                        s = s0 ∨ s ∈ clients st).
    { intros s. case_decide; [by right|].
      rewrite elem_of_app, list_elem_of_singleton. tauto. }
    destruct (bufferedError st) as [err|]; unfold greeted, sent_to; simpl.
    + rewrite <- app_assoc. simpl. split; intros s.
      * intros [->|Hs]%Hmem; [apply Hne | by apply Hold].
      * apply greeting_keeps_heads; [apply Hhd | by repeat constructor].
    + split; intros s.
      * intros [->|Hs]%Hmem; [apply Hne | by apply Hold].
      * apply greeting_keeps_heads; [apply Hhd | constructor].
  - by split.
  - split; [|done]. intros s Hs. apply Hcl. simpl in Hs.
    by apply list_elem_of_filter in Hs as [_ ?].
Qed.

Lemma greeted_run evs st : greeted st → greeted (run evs st).
Proof.
  revert st. induction evs as [|ev evs IH]; intros st Hg; [done|].
  apply IH. by apply greeted_step.
Qed.

(** C6. The connection handler's first action is to send the socket
    [{type:"connected"}], and in every reachable state of the server
    the first frame any socket has been sent is that greeting. *)
Theorem connected_is_first_frame (evs : list Event) (socket : Socket) :
  (∀ st, ∃ rest,
      sent (on_connection socket st)
      = sent st ++ (socket, Connected) :: rest)
  ∧ (sent_to socket (run evs init) = []
     ∨ ∃ rest, sent_to socket (run evs init) = Connected :: rest)
  ∧ (∃ rest, sent_to socket (step (run evs init) (EvConnection socket))
             = Connected :: rest).
Proof.
  pose proof (greeted_run evs init greeted_init) as Hg.
  pose proof (greeted_step _ (EvConnection socket) Hg) as [Hcl Hhd].
  split; [|split].
  - intros st. unfold on_connection. simpl.
    destruct (bufferedError st) as [err|]; simpl.
    + rewrite <- app_assoc. by eexists.
    + by eexists.
  - apply Hg.
  - destruct (Hhd socket) as [Hnil|Hsome]; [|done].
    exfalso. apply (Hcl socket); [|done].
    simpl. unfold accept_connection, on_connection. simpl.
    destruct (bufferedError (run evs init)); simpl;
      case_decide; try done; apply elem_of_app; right; by left.
Qed.

End WsServer.

(** ** Strings and [injectQuery] (client/client.ts)

    A JavaScript string is modelled by a [string] whose characters are
    its code units (all below 256). *)

Module Url.

(** [s.startsWith(p)] *)
Fixpoint startsWith (s p : string) : bool :=
  match p, s with
  | EmptyString, _ => true
  | String _ _, EmptyString => false
  | String b p', String a s' => Ascii.eqb a b && startsWith s' p'
  end.

(** [s.slice(1)] *)
Definition slice1 (s : string) : string :=
  match s with
  | EmptyString => EmptyString
  | String _ rest => rest
  end.

(** [s.includes(c)] for a one-character [c]. *)
Fixpoint includes_char (c : ascii) (s : string) : bool :=
  match s with
  | EmptyString => false
  | String a rest => Ascii.eqb a c || includes_char c rest
  end.

Fixpoint all_chars (P : ascii → bool) (s : string) : bool :=
  match s with
  | EmptyString => true
  | String a rest => P a && all_chars P rest
  end.

(** The characters that [.] of a regular expression does not match
    (line feed and carriage return, among the code units below 256). *)
Definition is_line_terminator (a : ascii) : bool :=
  Ascii.eqb a "010"%char || Ascii.eqb a "013"%char.

(** [s.replace(/c.*$/, '')] for a literal character [c]: the leftmost
    [c] from which [.*] can run to the end of the input is where the
    string is cut. *)
Fixpoint replace_to_end (c : ascii) (s : string) : string :=
  match s with
  | EmptyString => EmptyString
  | String a rest =>
      if Ascii.eqb a c && all_chars (λ x, negb (is_line_terminator x)) rest
      then EmptyString
      else String a (replace_to_end c rest)
  end.

(** The part before the first [c], and the part after it if there is
    one. *)
Fixpoint split_first (c : ascii) (s : string) : string * option string :=
  match s with
  | EmptyString => (EmptyString, None)
  | String a rest =>
      if Ascii.eqb a c then (EmptyString, Some rest)
      else let '(before, after) := split_first c rest in
           (String a before, after)
  end.

(** Code units that the URL parser copies into the query unchanged:
    everything outside the query percent-encode set of a special
    scheme, which holds the controls, space, the two quotes, [#], [<],
    [>] and everything from DEL on. *)
Definition query_plain (a : ascii) : bool :=
  let n := nat_of_ascii a in
  (32 <? n)%nat && (n <? 127)%nat
  && negb (Ascii.eqb a "034"%char) && negb (Ascii.eqb a "'"%char)
  && negb (Ascii.eqb a "#"%char)
  && negb (Ascii.eqb a "<"%char) && negb (Ascii.eqb a ">"%char).

(** The same for the fragment: controls, space, the double quote, [<],
    [>], the backquote and everything from DEL on are encoded. *)
Definition fragment_plain (a : ascii) : bool :=
  let n := nat_of_ascii a in
  (32 <? n)%nat && (n <? 127)%nat
  && negb (Ascii.eqb a "034"%char) && negb (Ascii.eqb a "`"%char)
  && negb (Ascii.eqb a "<"%char) && negb (Ascii.eqb a ">"%char).

(** Tab, line feed and carriage return, which the URL parser removes
    wherever they stand. *)
Definition is_tab_or_newline (a : ascii) : bool :=
  Ascii.eqb a "009"%char || Ascii.eqb a "010"%char || Ascii.eqb a "013"%char.

(** A C0 control or space, which the URL parser strips from both ends. *)
Definition is_c0_or_space (a : ascii) : bool := (nat_of_ascii a <=? 32)%nat.

Definition is_slash (a : ascii) : bool :=
  Ascii.eqb a "/"%char || Ascii.eqb a "\"%char.

(** The characters at which the authority of a special scheme ends. *)
Definition ends_authority (a : ascii) : bool :=
  is_slash a || Ascii.eqb a "?"%char || Ascii.eqb a "#"%char.

Fixpoint remove_chars (P : ascii → bool) (s : string) : string :=
  match s with
  | EmptyString => EmptyString
  | String a rest =>
      if P a then remove_chars P rest else String a (remove_chars P rest)
  end.

Fixpoint drop_while (P : ascii → bool) (s : string) : string :=
  match s with
  | EmptyString => EmptyString
  | String a rest => if P a then drop_while P rest else s
  end.

Fixpoint take_while (P : ascii → bool) (s : string) : string :=
  match s with
  | EmptyString => EmptyString
  | String a rest => if P a then String a (take_while P rest) else EmptyString
  end.

(** The string without its trailing C0 controls and spaces. *)
Fixpoint trim_end (s : string) : string :=
  match s with
  | EmptyString => EmptyString
  | String a rest =>
      match trim_end rest with
      | EmptyString => if is_c0_or_space a then EmptyString
                       else String a EmptyString
      | trimmed => String a trimmed
      end
  end.

Definition hex_digit (n : nat) : ascii :=
  match n with
  | 0 => "0" | 1 => "1" | 2 => "2" | 3 => "3" | 4 => "4" | 5 => "5"
  | 6 => "6" | 7 => "7" | 8 => "8" | 9 => "9" | 10 => "A" | 11 => "B"
  | 12 => "C" | 13 => "D" | 14 => "E" | _ => "F"
  end%char.

(** [%XX] for one byte. *)
Definition percent_byte (n : nat) : string :=
  String "%" (String (hex_digit (n / 16)) (String (hex_digit (n mod 16)) "")).

(** The percent-encoded UTF-8 bytes of a code unit: one byte below 128,
    two bytes from there to 255. *)
Definition percent_encode_char (a : ascii) : string :=
  let n := nat_of_ascii a in
  if (n <? 128)%nat then percent_byte n
  else percent_byte (192 + n / 64) +:+ percent_byte (128 + n mod 64).

(** Percent-encoding of everything that is not [plain]. *)
Fixpoint percent_encode (plain : ascii → bool) (s : string) : string :=
  match s with
  | EmptyString => EmptyString
  | String a rest =>
      (if plain a then String a EmptyString else percent_encode_char a)
      +:+ percent_encode plain rest
  end.

(** What the URL parser works on: the input without leading and
    trailing C0 controls and spaces, then without tabs and newlines. *)
Definition parser_input (url : string) : string :=
  remove_chars is_tab_or_newline (trim_end (drop_while is_c0_or_space url)).

(** The authority of a parser input that is resolved against a base
    with a special scheme: an input that starts with two slashes (of
    either kind) has one, which begins behind all the slashes and runs
    to the next slash, [?] or [#]. *)
Definition authority (input : string) : option string :=
  match input with
  | String a (String b rest) =>
      if is_slash a && is_slash b then
        Some (take_while (λ c, negb (ends_authority c))
                         (drop_while is_slash rest))
      else None
  | _ => None
  end.

(** The two fields read off [new URL(url, 'http://vitejs.dev')]. *)
Record URL := mkURL { search : string; hash : string }.

Section Parser.

(** Whether the platform's parser accepts a non-empty authority
    (credentials, host and port); its rules are not part of the
    repository. *)
Variable authority_valid : string → bool.

(** The platform's URL parser on a reference without a scheme, resolved
    against [http://vitejs.dev]; [None] when it throws, which it does
    for an authority that is empty or not valid.  The path ends at the
    first [?] or [#], the query at the first [#]; query and fragment
    are percent-encoded, and an empty one gives an empty [search] or
    [hash]. *)
Definition new_URL (url : string) : option URL :=
  let input := parser_input url in
  let accepted :=
    match authority input with
    | Some a => negb (String.eqb a "") && authority_valid a
    | None => true
    end in
  if accepted then
    let '(before_hash, fragment) := split_first "#" input in
    let '(_, query) := split_first "?" before_hash in
    let query := percent_encode query_plain (default EmptyString query) in
    let fragment :=
      percent_encode fragment_plain (default EmptyString fragment) in
    Some {| search := if String.eqb query "" then "" else "?" +:+ query;
            hash := if String.eqb fragment "" then ""
                    else "#" +:+ fragment |}
  else None.

(** [injectQuery(url, queryToInject)]; [None] when [new URL] throws. *)
Definition injectQuery (url queryToInject : string) : option string :=
  (* skip urls that won't be handled by vite *)
  if negb (startsWith url ".") && negb (startsWith url "/") then Some url
  else
    let pathname := replace_to_end "?" (replace_to_end "#" url) in
    match new_URL url with
    | None => None
    | Some u =>
        Some (pathname +:+ "?" +:+ queryToInject
              +:+ (if negb (String.eqb (search u) "")
                   then "&" +:+ slice1 (search u) else "")
              +:+ hash u)
    end.

End Parser.

(** A reference assembled from its path, optional query and optional
    fragment. *)
Definition assemble (path : string) (query fragment : option string)
    : string :=
  path
  +:+ match query with Some q => "?" +:+ q | None => "" end
  +:+ match fragment with Some f => "#" +:+ f | None => "" end.

(** The reference up to its fragment. *)
Definition before_fragment (path : string) (query : option string) : string :=
  path +:+ match query with Some q => "?" +:+ q | None => "" end.

(** What the specification describes: the injected query right after
    the path, the old query behind it with [&], the fragment last. *)
Definition with_query_inserted (path : string)
    (query fragment : option string) (queryToInject : string) : string :=
  path +:+ "?" +:+ queryToInject
  +:+ match query with
      | Some q => if String.eqb q "" then "" else "&" +:+ q
      | None => ""
      end
  +:+ match fragment with
      | Some f => if String.eqb f "" then "" else "#" +:+ f
      | None => ""
      end.

(** The references the theorem below speaks about: a path that starts
    with [.] or [/] and holds no [?] or [#]; a query without [#]; no
    line terminator in the query or the fragment. *)
Definition served_reference (path : string) (query fragment : option string)
    : bool :=
  (startsWith path "." || startsWith path "/")
  && negb (includes_char "?" path) && negb (includes_char "#" path)
  && match query with
     | Some s => negb (includes_char "#" s)
                 && all_chars (λ x, negb (is_line_terminator x)) s
     | None => true
     end
  && match fragment with
     | Some f => all_chars (λ x, negb (is_line_terminator x)) f
     | None => true
     end.

(** A part of a reference as the URL parser takes it: without tabs and
    newlines, and without trailing controls and spaces when it is the
    [last] part of the reference. *)
Definition tidy (last : bool) (s : string) : string :=
  remove_chars is_tab_or_newline (if last then trim_end s else s).

(** The path as the parser takes it. *)
Definition parsed_path (path : string) (query fragment : option string)
    : string :=
  tidy (match query, fragment with None, None => true | _, _ => false end)
       path.

(** The query and the fragment as the parser serialises them. *)
Definition serialised_query (query fragment : option string)
    : option string :=
  (λ s, percent_encode query_plain
          (tidy (match fragment with None => true | Some _ => false end) s))
  <$> query.

Definition serialised_fragment (fragment : option string) : option string :=
  (λ f, percent_encode fragment_plain (tidy true f)) <$> fragment.

(** Whether the parser accepts the reference: it does unless the path
    opens an authority that is empty or not valid. *)
Definition parser_accepts (authority_valid : string → bool)
    (path : string) (query fragment : option string) : bool :=
  match authority (parsed_path path query fragment) with
  | Some a => negb (String.eqb a "") && authority_valid a
  | None => true
  end.

(** *** Proofs *)

Lemma append_cons a (s t : string) : String a s +:+ t = String a (s +:+ t).
Proof. reflexivity. Qed.

Lemma append_nil_l (t : string) : "" +:+ t = t.
Proof. reflexivity. Qed.

Lemma append_nil_r (s : string) : s +:+ "" = s.
Proof.
  induction s as [|a s IH]; [done|]. by rewrite append_cons, IH.
Qed.

Lemma append_assoc (s1 s2 s3 : string) :
  (s1 +:+ s2) +:+ s3 = s1 +:+ (s2 +:+ s3).
Proof.
  induction s1 as [|a s1 IH]; [done|]. by rewrite !append_cons, IH.
Qed.

Lemma split_first_absent c s :
  includes_char c s = false → split_first c s = (s, None).
Proof.
  induction s as [|a s IH]; simpl; [done|].
  intros [Ha Hs]%orb_false_iff. by rewrite Ha, (IH Hs).
Qed.

Lemma split_first_app c s rest :
  includes_char c s = false →
  split_first c (s +:+ String c rest) = (s, Some rest).
Proof.
  induction s as [|a s IH]; rewrite ?append_cons, ?append_nil_l; simpl.
  - intros _. by rewrite Ascii.eqb_refl.
  - intros [Ha Hs]%orb_false_iff. by rewrite Ha, (IH Hs).
Qed.

Lemma split_first_spec c s :
  includes_char c (split_first c s).1 = false
  ∧ s = (split_first c s).1
        +:+ match (split_first c s).2 with
            | Some rest => String c rest
            | None => ""
            end.
Proof.
  induction s as [|a s [IH1 IH2]]; simpl; [done|].
  destruct (Ascii.eqb_spec a c) as [->|Hne]; simpl; [done|].
  destruct (split_first c s) as [before after]. simpl in *.
  apply Ascii.eqb_neq in Hne. rewrite Hne, IH1. split; [done|].
  by rewrite append_cons, <- IH2.
Qed.

Lemma replace_to_end_absent c s :
  includes_char c s = false → replace_to_end c s = s.
Proof.
  induction s as [|a s IH]; simpl; [done|].
  intros [Ha Hs]%orb_false_iff. by rewrite Ha, (IH Hs).
Qed.

Lemma replace_to_end_app c s rest :
  includes_char c s = false →
  all_chars (λ x, negb (is_line_terminator x)) rest = true →
  replace_to_end c (s +:+ String c rest) = s.
Proof.
  intros Hs Hrest.
  induction s as [|a s IH]; rewrite ?append_cons, ?append_nil_l; simpl in *.
  - by rewrite Ascii.eqb_refl, Hrest.
  - apply orb_false_iff in Hs as [Ha Hs]. by rewrite Ha, (IH Hs).
Qed.

Lemma includes_char_app c s1 s2 :
  includes_char c (s1 +:+ s2) = includes_char c s1 || includes_char c s2.
Proof.
  induction s1 as [|a s1 IH]; rewrite ?append_cons, ?append_nil_l; simpl;
    [done|]. by rewrite IH, orb_assoc.
Qed.

Lemma remove_chars_app P s1 s2 :
  remove_chars P (s1 +:+ s2) = remove_chars P s1 +:+ remove_chars P s2.
Proof.
  induction s1 as [|a s1 IH]; rewrite ?append_cons, ?append_nil_l; simpl;
    [done|]. destruct (P a); by rewrite IH, ?append_cons.
Qed.

Lemma includes_char_remove_chars c P s :
  includes_char c s = false → includes_char c (remove_chars P s) = false.
Proof.
  induction s as [|a s IH]; simpl; [done|].
  intros [Ha Hs]%orb_false_iff. destruct (P a); simpl; [by apply IH|].
  by rewrite Ha, IH.
Qed.

Lemma includes_char_trim_end c s :
  includes_char c s = false → includes_char c (trim_end s) = false.
Proof.
  induction s as [|a s IH]; simpl; [done|].
  intros [Ha Hs]%orb_false_iff. specialize (IH Hs).
  destruct (trim_end s) as [|b t].
  - destruct (is_c0_or_space a); simpl; [done|]. by rewrite Ha.
  - simpl in *. by rewrite Ha, IH.
Qed.

Lemma includes_char_tidy c last s :
  includes_char c s = false → includes_char c (tidy last s) = false.
Proof.
  intros Hs. unfold tidy. apply includes_char_remove_chars.
  destruct last; [by apply includes_char_trim_end | done].
Qed.

(** Trimming stops at a character that is no control and no space. *)
Lemma trim_end_app s c rest :
  is_c0_or_space c = false →
  trim_end (s +:+ String c rest) = s +:+ String c (trim_end rest).
Proof.
  intros Hc. induction s as [|a s IH]; rewrite ?append_cons, ?append_nil_l.
  - simpl. rewrite Hc. by destruct (trim_end rest).
  - simpl. rewrite IH. by destruct s.
Qed.

Lemma trim_end_starts a s :
  is_c0_or_space a = false →
  ∃ t, trim_end (String a s) = String a t.
Proof.
  intros Ha. simpl. destruct (trim_end s); [|by eexists].
  rewrite Ha. by eexists.
Qed.

(** The first character of a path that starts with [.] or [/] is kept
    by the parser. *)
Lemma starts_kept path :
  startsWith path "." || startsWith path "/" = true →
  ∃ a rest, path = String a rest
            ∧ is_c0_or_space a = false ∧ is_tab_or_newline a = false
            ∧ Ascii.eqb a "?" = false ∧ Ascii.eqb a "#" = false.
Proof.
  destruct path as [|a rest]; [done|]. cbn [startsWith].
  intros H. exists a, rest. split; [done|].
  destruct (Ascii.eqb_spec a ".") as [->|_]; [done|].
  destruct (Ascii.eqb_spec a "/") as [->|_]; [done|].
  by destruct rest.
Qed.

(** Only the path decides how an assembled reference starts, as long as
    the path is not empty. *)
Lemma startsWith_assemble_1 path query fragment (c : ascii) :
  path ≠ "" →
  startsWith (assemble path query fragment) (String c "")
  = startsWith path (String c "").
Proof.
  intros Hne. destruct path as [|a path]; [done|].
  unfold assemble. rewrite !append_cons. cbn [startsWith].
  by destruct (_ +:+ _), path.
Qed.

Lemma assemble_before_fragment path query fragment :
  assemble path query fragment
  = match fragment with
    | Some f => before_fragment path query +:+ String "#" f
    | None => before_fragment path query
    end.
Proof.
  unfold assemble, before_fragment. destruct fragment as [f|].
  - by rewrite append_assoc.
  - by rewrite append_nil_r.
Qed.

Lemma before_fragment_split path query :
  before_fragment path query
  = match query with
    | Some s => path +:+ String "?" s
    | None => path
    end.
Proof.
  unfold before_fragment. destruct query; [done | apply append_nil_r].
Qed.

(** The authority is decided by the path: what follows it starts with
    [?] or [#], where an authority ends. *)
Lemma take_while_app_end P s c rest :
  P c = false →
  take_while P (s +:+ String c rest) = take_while P s.
Proof.
  intros Hc. induction s as [|a s IH]; rewrite ?append_cons, ?append_nil_l;
    simpl; [by rewrite Hc|]. by rewrite IH.
Qed.

Lemma drop_take_app_end s c rest :
  ends_authority c = true → is_slash c = false →
  take_while (λ x, negb (ends_authority x))
             (drop_while is_slash (s +:+ String c rest))
  = take_while (λ x, negb (ends_authority x)) (drop_while is_slash s).
Proof.
  intros Hend Hsl. induction s as [|a s IH];
    rewrite ?append_cons, ?append_nil_l; simpl.
  - rewrite Hsl. simpl. by rewrite Hend.
  - destruct (is_slash a); [done|].
    rewrite <- append_cons. apply take_while_app_end. by rewrite Hend.
Qed.

Lemma authority_app_end s c rest :
  s ≠ "" → ends_authority c = true → is_slash c = false →
  authority (s +:+ String c rest) = authority s.
Proof.
  intros Hs Hend Hsl. destruct s as [|a [|b s]]; [done| |].
  - rewrite append_cons, append_nil_l. simpl. rewrite Hsl.
    by rewrite andb_false_r.
  - rewrite !append_cons. simpl. destruct (is_slash a && is_slash b); [|done].
    f_equal. by apply drop_take_app_end.
Qed.

(** Every string is a reference assembled from a path without [?] and
    [#], an optional query without [#] and an optional fragment. *)
Lemma reference_parts (url : string) :
  ∃ path query fragment,
    url = assemble path query fragment
    ∧ includes_char "?" path = false
    ∧ includes_char "#" path = false
    ∧ (∀ s, query = Some s → includes_char "#" s = false).
Proof.
  destruct (split_first_spec "#" url) as [Hh Hurl].
  destruct (split_first "#" url) as [before fragment]. simpl in *.
  destruct (split_first_spec "?" before) as [Hq Hbefore].
  destruct (split_first "?" before) as [path query]. simpl in *.
  exists path, query, fragment.
  rewrite Hbefore, includes_char_app in Hh.
  apply orb_false_iff in Hh as [Hh1 Hh2].
  split; [|split; [done|split; [done|]]].
  - rewrite Hurl, Hbefore. unfold assemble.
    rewrite append_assoc. by destruct query, fragment.
  - intros s ->. by simpl in Hh2.
Qed.

Section ServedReference.
Variable authority_valid : string → bool.
Variables (path : string) (query fragment : option string).
Hypothesis Hserved : served_reference path query fragment = true.

Lemma served_parts :
  (startsWith path "." || startsWith path "/" = true)
  ∧ includes_char "?" path = false
  ∧ includes_char "#" path = false
  ∧ (∀ s, query = Some s →
          includes_char "#" s = false
          ∧ all_chars (λ x, negb (is_line_terminator x)) s = true)
  ∧ (∀ f, fragment = Some f →
          all_chars (λ x, negb (is_line_terminator x)) f = true).
Proof using Hserved.
  revert Hserved. unfold served_reference.
  rewrite !andb_true_iff, !negb_true_iff.
  intros ((((Hstart & Hq) & Hh) & Hquery) & Hfrag).
  repeat split; try done.
  - subst. apply andb_true_iff in Hquery as [Hs _].
    by apply negb_true_iff in Hs.
  - subst. by apply andb_true_iff in Hquery as [_ ?].
  - intros f ->. done.
Qed.

Lemma served_path_nonempty : path ≠ "".
Proof using Hserved.
  destruct served_parts as (Hstart & _).
  intros ->. by cbn in Hstart.
Qed.

(** The regular expressions cut the reference down to its path. *)
Lemma served_pathname :
  replace_to_end "?" (replace_to_end "#" (assemble path query fragment))
  = path.
Proof using Hserved.
  destruct served_parts as (_ & Hq & Hh & Hquery & Hfrag).
  assert (Hbefore : includes_char "#" (before_fragment path query) = false).
  { rewrite before_fragment_split. destruct query as [s|]; [|done].
    destruct (Hquery s eq_refl) as [Hs _].
    rewrite includes_char_app, Hh. simpl. done. }
  assert (Hcut : replace_to_end "#" (assemble path query fragment)
                 = before_fragment path query).
  { rewrite assemble_before_fragment. destruct fragment as [f|].
    - apply replace_to_end_app; [done|]. by apply Hfrag.
    - by apply replace_to_end_absent. }
  rewrite Hcut, before_fragment_split. destruct query as [s|].
  - apply replace_to_end_app; [done|]. by apply Hquery.
  - by apply replace_to_end_absent.
Qed.

(** What the parser works on, part by part. *)
Lemma served_parser_input :
  parser_input (assemble path query fragment)
  = assemble (parsed_path path query fragment)
      (tidy (match fragment with None => true | Some _ => false end)
       <$> query)
      (tidy true <$> fragment).
Proof using Hserved.
  destruct served_parts as (Hstart & _).
  destruct (starts_kept path Hstart) as (a & rest & -> & Ha & _).
  unfold parser_input, parsed_path, tidy, assemble.
  rewrite !append_cons. cbn [drop_while]. rewrite Ha.
  rewrite <- !append_cons.
  destruct query as [s|], fragment as [f|]; cbn [fmap option_fmap option_map];
    rewrite ?append_nil_r, ?append_nil_l.
  - change ("#" +:+ f) with (String "#" f).
    rewrite <- append_assoc, trim_end_app by done.
    rewrite !remove_chars_app. cbn [remove_chars].
    change (is_tab_or_newline "?") with false.
    change (is_tab_or_newline "#") with false. cbv iota.
    by rewrite append_assoc.
  - change ("?" +:+ s) with (String "?" s).
    rewrite trim_end_app by done.
    rewrite !remove_chars_app. cbn [remove_chars].
    change (is_tab_or_newline "?") with false. by cbv iota.
  - change ("#" +:+ f) with (String "#" f).
    rewrite trim_end_app by done.
    rewrite !remove_chars_app. cbn [remove_chars].
    change (is_tab_or_newline "#") with false. by cbv iota.
  - done.
Qed.

Lemma served_parsed_path :
  parsed_path path query fragment ≠ ""
  ∧ includes_char "?" (parsed_path path query fragment) = false
  ∧ includes_char "#" (parsed_path path query fragment) = false.
Proof using Hserved.
  destruct served_parts as (Hstart & Hq & Hh & _).
  split; [|split; by apply includes_char_tidy].
  destruct (starts_kept path Hstart) as (a & rest & -> & Ha & Htab & _).
  unfold parsed_path, tidy.
  destruct (match query, fragment with None, None => true | _, _ => false end).
  - destruct (trim_end_starts a rest Ha) as [t ->]. simpl. by rewrite Htab.
  - simpl. by rewrite Htab.
Qed.

Lemma served_authority :
  authority (parser_input (assemble path query fragment))
  = authority (parsed_path path query fragment).
Proof using Hserved.
  destruct served_parsed_path as (Hne & _).
  rewrite served_parser_input. unfold assemble.
  destruct query as [s|], fragment as [f|]; cbn [fmap option_fmap option_map];
    rewrite ?append_nil_r.
  - change ("?" +:+ tidy false s) with (String "?" (tidy false s)).
    rewrite append_cons. by apply authority_app_end.
  - change ("?" +:+ tidy true s) with (String "?" (tidy true s)).
    by apply authority_app_end.
  - rewrite append_nil_l.
    change ("#" +:+ tidy true f) with (String "#" (tidy true f)).
    by apply authority_app_end.
  - done.
Qed.

Lemma served_split :
  split_first "#" (parser_input (assemble path query fragment))
  = (before_fragment (parsed_path path query fragment)
       (tidy (match fragment with None => true | Some _ => false end)
        <$> query),
     tidy true <$> fragment)
  ∧ split_first "?"
      (before_fragment (parsed_path path query fragment)
         (tidy (match fragment with None => true | Some _ => false end)
          <$> query))
    = (parsed_path path query fragment,
       tidy (match fragment with None => true | Some _ => false end)
       <$> query).
Proof using Hserved.
  destruct served_parts as (_ & _ & _ & Hquery & _).
  destruct served_parsed_path as (_ & Hq & Hh).
  rewrite served_parser_input, assemble_before_fragment.
  set (p := parsed_path path query fragment) in *.
  assert (Hbefore :
    includes_char "#"
      (before_fragment p
         (tidy (match fragment with None => true | Some _ => false end)
          <$> query)) = false).
  { rewrite before_fragment_split. destruct query as [s|]; [|done].
    destruct (Hquery s eq_refl) as [Hs _]. cbn [fmap option_fmap option_map].
    rewrite includes_char_app, Hh. simpl. by apply includes_char_tidy. }
  split.
  - destruct fragment as [f|]; cbn [fmap option_fmap option_map].
    + by apply split_first_app.
    + by apply split_first_absent.
  - rewrite before_fragment_split.
    destruct query as [s|]; cbn [fmap option_fmap option_map].
    + by apply split_first_app.
    + by apply split_first_absent.
Qed.

Lemma served_new_URL :
  new_URL authority_valid (assemble path query fragment)
  = if parser_accepts authority_valid path query fragment then
      Some {| search := match serialised_query query fragment with
                        | Some s => if String.eqb s "" then "" else "?" +:+ s
                        | None => ""
                        end;
              hash := match serialised_fragment fragment with
                      | Some f => if String.eqb f "" then "" else "#" +:+ f
                      | None => ""
                      end |}
    else None.
Proof using Hserved.
  unfold new_URL, parser_accepts. cbv zeta. rewrite served_authority.
  destruct (match authority (parsed_path path query fragment) with
            | Some a => negb (String.eqb a "") && authority_valid a
            | None => true
            end); [|done].
  destruct served_split as [-> ->].
  unfold serialised_query, serialised_fragment.
  by destruct query, fragment.
Qed.

Lemma served_injectQuery queryToInject :
  injectQuery authority_valid (assemble path query fragment) queryToInject
  = if parser_accepts authority_valid path query fragment then
      Some (with_query_inserted path (serialised_query query fragment)
              (serialised_fragment fragment) queryToInject)
    else None.
Proof using Hserved.
  pose proof served_path_nonempty as Hne.
  destruct served_parts as (Hstart & _).
  unfold injectQuery.
  rewrite !startsWith_assemble_1 by done.
  rewrite <- negb_orb, Hstart. simpl negb. cbv iota.
  rewrite served_pathname, served_new_URL.
  destruct (parser_accepts authority_valid path query fragment); [|done].
  cbn [search hash]. unfold with_query_inserted. do 4 f_equal.
  destruct (serialised_query query fragment) as [s|]; [|done].
  destruct (String.eqb_spec s ""); [done|].
  by rewrite append_cons.
Qed.

End ServedReference.

(** C7, as the code has it. Take a url that starts with [.] or [/]
    and has no line terminator in its query and fragment.  When the URL
    parser accepts it, the injected query is placed right after the
    path (the text before the first [?] or [#]), a non-empty old query
    follows it behind [&], and a non-empty fragment stays at the end,
    the old query and the fragment as the parser serialises them:
    without tabs, without trailing controls and spaces, percent-encoded.
    When the parser rejects the url, which it does for a path that
    opens an authority that is empty or not valid, the call throws.  A
    url that starts with neither [.] nor [/] is returned unchanged. *)
Theorem injectQuery_inserts_query_into_served_urls
    (authority_valid : string → bool)
    (path : string) (query fragment : option string)
    (other queryToInject : string) :
  served_reference path query fragment = true →
  startsWith other "." = false →
  startsWith other "/" = false →
  injectQuery authority_valid (assemble path query fragment) queryToInject
  = (if parser_accepts authority_valid path query fragment then
       Some (with_query_inserted path (serialised_query query fragment)
               (serialised_fragment fragment) queryToInject)
     else None)
  ∧ injectQuery authority_valid other queryToInject = Some other.
Proof.
  intros Hserved Hdot Hslash. split.
  - by apply served_injectQuery.
  - unfold injectQuery. by rewrite Hdot, Hslash.
Qed.

Lemma injectQuery_inserts_query_into_served_urls_witness :
  injectQuery (String.eqb "host:5173") "//host:5173/src/main.ts?vue&type=a b#top"
              "direct"
  = Some "//host:5173/src/main.ts?direct&vue&type=a%20b#top"
  ∧ injectQuery (String.eqb "host:5173") "virtual:module?x" "direct"
    = Some "virtual:module?x".
Proof.
  exact (injectQuery_inserts_query_into_served_urls
           (String.eqb "host:5173")
           "//host:5173/src/main.ts" (Some "vue&type=a b") (Some "top")
           "virtual:module?x" "direct" eq_refl eq_refl eq_refl).
Defined.

(** C7 as stated fails, whatever authority the parser accepts.  A url
    that starts with neither [.] nor [/] comes back as it went in,
    without the query.  A slash, a tab and a slash are an empty
    authority for the parser, and the call throws.  With a line feed in
    the old query the regular expression does not cut the query off,
    and the injected query lands behind the whole url.  A space in the
    old query or in the fragment comes back percent-encoded. *)
Lemma injectQuery_skips_rejects_and_rewrites :
  injectQuery (λ _, true) "usr/vite/%20a%20" "direct"
  = Some "usr/vite/%20a%20"
  ∧ injectQuery (λ _, true) (String "/" (String "009" "/")) "direct" = None
  ∧ injectQuery (λ _, true) ("/a?x" +:+ String "010" "y") "direct"
    = Some ("/a?x" +:+ String "010" "y?direct&xy")
  ∧ injectQuery (λ _, true) "/a?b c#d e" "direct"
    = Some "/a?direct&b%20c#d%20e".
Proof. by vm_compute. Qed.

(** How the parser serialises the old query and the fragment: the
    trailing space and the tab go; space, the quotes, [<], [>], DEL and
    the controls are encoded in both, the single quote in the query
    only, the backquote in the fragment only; a code unit from 128 on
    is encoded as its two UTF-8 bytes; [%] stays. *)
Example injectQuery_serialisation :
  injectQuery (λ _, true) ("/a?x" +:+ String "009" "y ") "q" = Some "/a?q&xy"
  ∧ injectQuery (λ _, true) "/a?it's `#it's `" "q"
    = Some "/a?q&it%27s%20`#it's%20%60"
  ∧ injectQuery (λ _, true)
      ("/a?<" +:+ String "034" ">" +:+ String "127" (String "000" "z")) "q"
    = Some "/a?q&%3C%22%3E%7F%00z"
  ∧ injectQuery (λ _, true)
      ("/a?" +:+ String "233" "%20#" +:+ String "233" "%") "q"
    = Some "/a?q&%C3%A9%20#%C3%A9%"
  ∧ injectQuery (λ _, true) "/a?#" "q" = Some "/a?q"
  ∧ injectQuery (λ _, true) "/\host/x?y" "q" = Some "/\host/x?q&y"
  ∧ injectQuery (λ _, true) "///?y" "q" = None.
Proof. by vm_compute. Qed.

(** The cases of the repository's [injectQuery] tests that start with
    [.] or [/]. *)
Example injectQuery_dot_relative :
  injectQuery (λ _, true) "./usr/vite/%20a%20" "direct"
  = Some "./usr/vite/%20a%20?direct".
Proof. reflexivity. Qed.

Example injectQuery_path_with_hash :
  injectQuery (λ _, true) "/usr/vite/path with space/#1?2/" "direct"
  = Some "/usr/vite/path with space/?direct#1?2/".
Proof. reflexivity. Qed.

End Url.

(** ** The browser runtime (client/client.ts) *)

Module Client.
Import JS Payload.

(** Addresses of objects that are shared by reference. *)
Definition Loc := nat.

(** A module namespace object, by identity. *)
Definition ModuleNamespace := nat.

(** The closures stored as [HotCallback.fn]. *)
Inductive HotFn :=
| FnSelfAccept (deps : Value)    (* [([mod]) => deps && deps(mod)] *)
| FnDepAccept (callback : Value) (* [([mod]) => callback && callback(mod)] *)
| FnExports (callback : Value)   (* [([mod]) => callback(mod)] *)
| FnGiven (callback : Value)     (* the caller's value itself *)
| FnDefault.                     (* the default parameter [() => {}] *)

Record HotCallback := mkHotCallback {
  deps : list Value;
  fn : HotFn
}.

Record HotModule := mkHotModule {
  id : string;
  callbacks : list HotCallback
}.

(** The module-level registries.  The objects behind [dataMap] and the
    per-context listener maps behind [ctxToListenersMap] are held in
    two stores and named by their address, since module code and old
    contexts keep references to them. *)
Record State := mkState {
  hotModulesMap : gmap string HotModule;
  disposeMap : gmap string FnId;
  pruneMap : gmap string FnId;
  dataMap : gmap string Loc;
  customListenersMap : gmap string (list FnId);
  ctxToListenersMap : gmap string Loc;
  dataObjects : gmap Loc (gmap string Value);
  listenerMaps : gmap Loc (gmap string (list FnId));
  nextLoc : Loc
}.

(** The registries when the client script has just been evaluated. *)
Definition init : State :=
  {| hotModulesMap := ∅; disposeMap := ∅; pruneMap := ∅; dataMap := ∅;
     customListenersMap := ∅; ctxToListenersMap := ∅;
     dataObjects := ∅; listenerMaps := ∅; nextLoc := 0 |}.

(** A hot context: what the closures of [createHotContext] capture. *)
Record HotContext := mkHotContext {
  ownerPath : string;
  newListeners : Loc
}.

(** [listeners.filter((l) => !staleFns.includes(l))] *)
Definition remove_stale (staleFns listeners : list FnId) : list FnId :=
  filter (λ l, l ∉ staleFns) listeners.

(** One round of [for (const [event, staleFns] of staleListeners)]. *)
Definition clear_stale_event (event : string) (staleFns : list FnId)
    (clm : gmap string (list FnId)) : gmap string (list FnId) :=
  match clm !! event with
  | Some listeners => <[event := remove_stale staleFns listeners]> clm
  | None => clm
  end.

Definition clear_stale (staleListeners : gmap string (list FnId))
    (clm : gmap string (list FnId)) : gmap string (list FnId) :=
  map_fold clear_stale_event clm staleListeners.

(** [createHotContext(ownerPath)] *)
Definition createHotContext (ownerPath : string) (st : State)
    : HotContext * State :=
  (* if (!dataMap.has(ownerPath)) dataMap.set(ownerPath, {}) *)
  let '(dataMap1, dataObjects1, next1) :=
    match dataMap st !! ownerPath with
    | Some _ => (dataMap st, dataObjects st, nextLoc st)
    | None => (<[ownerPath := nextLoc st]> (dataMap st),
               <[nextLoc st := ∅]> (dataObjects st),
               S (nextLoc st))
    end in
  (* if (mod) mod.callbacks = [] *)
  let hotModulesMap1 :=
    match hotModulesMap st !! ownerPath with
    | Some hmod =>
        <[ownerPath := {| id := id hmod; callbacks := [] |}]>
          (hotModulesMap st)
    | None => hotModulesMap st
    end in
  (* remove the stale listeners from customListenersMap *)
  let customListenersMap1 :=
    match ctxToListenersMap st !! ownerPath with
    | Some l => clear_stale (default ∅ (listenerMaps st !! l))
                            (customListenersMap st)
    | None => customListenersMap st
    end in
  (* const newListeners = new Map(); ctxToListenersMap.set(...) *)
  ({| ownerPath := ownerPath; newListeners := next1 |},
   {| hotModulesMap := hotModulesMap1;
      disposeMap := disposeMap st;
      pruneMap := pruneMap st;
      dataMap := dataMap1;
      customListenersMap := customListenersMap1;
      ctxToListenersMap := <[ownerPath := next1]> (ctxToListenersMap st);
      dataObjects := dataObjects1;
      listenerMaps := <[next1 := ∅]> (listenerMaps st);
      nextLoc := S next1 |}).

(** [acceptDeps(deps, callback)] of the context of [ownerPath], with
    the closure stored as [fn] already chosen. *)
Definition acceptDeps (ownerPath : string) (deps : list Value) (fn : HotFn)
    (st : State) : State :=
  let hmod := default {| id := ownerPath; callbacks := [] |}
                      (hotModulesMap st !! ownerPath) in
  let hmod := {| id := id hmod;
                 callbacks := callbacks hmod
                              ++ [{| deps := deps; fn := fn |}] |} in
  {| hotModulesMap := <[ownerPath := hmod]> (hotModulesMap st);
     disposeMap := disposeMap st; pruneMap := pruneMap st;
     dataMap := dataMap st; customListenersMap := customListenersMap st;
     ctxToListenersMap := ctxToListenersMap st;
     dataObjects := dataObjects st; listenerMaps := listenerMaps st;
     nextLoc := nextLoc st |}.

(** The value bound to the parameter [callback = () => {}]. *)
Definition callback_or_default (callback : Value) : HotFn :=
  match callback with
  | VUndefined => FnDefault
  | _ => FnGiven callback
  end.

(** A call either returns or throws an [Error] with a message. *)
Inductive Outcome (A : Type) :=
| Return (a : A)
| Throw (message : string).
Arguments Return {A} a.
Arguments Throw {A} message.

(** [hot.data] *)
Definition hot_data (hot : HotContext) (st : State) : option Loc :=
  dataMap st !! ownerPath hot.

(** [hot.accept(deps, callback)] *)
Definition hot_accept (hot : HotContext) (deps callback : Value) (st : State)
    : Outcome State :=
  if is_function deps || negb (truthy deps) then
    (* self-accept: hot.accept(() => {}) *)
    Return (acceptDeps (ownerPath hot) [VString (ownerPath hot)]
                       (FnSelfAccept deps) st)
  else if is_string deps then
    (* explicit deps *)
    Return (acceptDeps (ownerPath hot) [deps] (FnDepAccept callback) st)
  else
    match deps with
    | VArray elems =>
        Return (acceptDeps (ownerPath hot) elems
                           (callback_or_default callback) st)
    | _ => Throw "invalid hot.accept() usage."
    end.

(** [hot.acceptExports(_, callback)] *)
Definition hot_acceptExports (hot : HotContext) (callback : Value)
    (st : State) : State :=
  acceptDeps (ownerPath hot) [VString (ownerPath hot)]
    (if truthy callback then FnExports callback
     else callback_or_default callback) st.

(** [hot.dispose(cb)] *)
Definition hot_dispose (hot : HotContext) (cb : FnId) (st : State) : State :=
  {| hotModulesMap := hotModulesMap st;
     disposeMap := <[ownerPath hot := cb]> (disposeMap st);
     pruneMap := pruneMap st;
     dataMap := dataMap st; customListenersMap := customListenersMap st;
     ctxToListenersMap := ctxToListenersMap st;
     dataObjects := dataObjects st; listenerMaps := listenerMaps st;
     nextLoc := nextLoc st |}.

(** [hot.prune(cb)] *)
Definition hot_prune (hot : HotContext) (cb : FnId) (st : State) : State :=
  {| hotModulesMap := hotModulesMap st;
     disposeMap := disposeMap st;
     pruneMap := <[ownerPath hot := cb]> (pruneMap st);
     dataMap := dataMap st; customListenersMap := customListenersMap st;
     ctxToListenersMap := ctxToListenersMap st;
     dataObjects := dataObjects st; listenerMaps := listenerMaps st;
     nextLoc := nextLoc st |}.

(** [addToMap] inside [hot.on]: the array under [event] gets [cb]
    pushed. *)
Definition addToMap (event : string) (cb : FnId)
    (map : gmap string (list FnId)) : gmap string (list FnId) :=
  <[event := default [] (map !! event) ++ [cb]]> map.

(** [hot.on(event, cb)]: registers in [customListenersMap] and in the
    [newListeners] map this context was created with. *)
Definition hot_on (hot : HotContext) (event : string) (cb : FnId)
    (st : State) : State :=
  {| hotModulesMap := hotModulesMap st;
     disposeMap := disposeMap st; pruneMap := pruneMap st;
     dataMap := dataMap st;
     customListenersMap := addToMap event cb (customListenersMap st);
     ctxToListenersMap := ctxToListenersMap st;
     dataObjects := dataObjects st;
     listenerMaps :=
       <[newListeners hot :=
           addToMap event cb (default ∅ (listenerMaps st !! newListeners hot))]>
         (listenerMaps st);
     nextLoc := nextLoc st |}.



(** Registrations a module makes through its context. *)
Inductive Registration :=
| RegAccept (deps callback : Value)
| RegAcceptExports (callback : Value)
| RegDispose (cb : FnId)
| RegPrune (cb : FnId)
| RegOn (event : string) (cb : FnId).

(** One registration; an [accept] that throws registers nothing. *)
Definition register (hot : HotContext) (st : State) (r : Registration) : State :=
  match r with
  | RegAccept deps callback =>
      match hot_accept hot deps callback st with
      | Return st' => st'
      | Throw _ => st
      end
  | RegAcceptExports callback => hot_acceptExports hot callback st
  | RegDispose cb => hot_dispose hot cb st
  | RegPrune cb => hot_prune hot cb st
  | RegOn event cb => hot_on hot event cb st
  end.

(** *** Sessions

    What the modules of a page do with the hot API, in the order in
    which it happens: a context is created for a module, or a
    registration is made through one of the contexts created so far,
    named by its rank among them (a module can go on using a context
    after a newer one was created for it). *)
Inductive Op :=
| OpCreate (ownerPath : string)
| OpRegister (ctx : nat) (r : Registration).

Record Session := mkSession {
  registry : State;
  contexts : list HotContext
}.

Definition start : Session := {| registry := init; contexts := [] |}.

Definition op_step (s : Session) (op : Op) : Session :=
  match op with
  | OpCreate ownerPath =>
      {| registry := (createHotContext ownerPath (registry s)).2;
         contexts := contexts s
                     ++ [(createHotContext ownerPath (registry s)).1] |}
  | OpRegister ctx r =>
      match contexts s !! ctx with
      | Some hot => {| registry := register hot (registry s) r;
                       contexts := contexts s |}
      | None => s
      end
  end.

Definition session (ops : list Op) : Session := fold_left op_step ops start.

(** *** Proofs: the hot context *)

Lemma clear_stale_lookup stale clm event :
  clear_stale stale clm !! event
  = match stale !! event with
    | Some staleFns => remove_stale staleFns <$> clm !! event
    | None => clm !! event
    end.
Proof.
  unfold clear_stale. revert event.
  apply (map_fold_weak_ind
           (λ r (m : gmap string (list FnId)),
              ∀ event, r !! event
                       = match m !! event with
                         | Some staleFns => remove_stale staleFns <$> clm !! event
                         | None => clm !! event
                         end)).
  - intros event. by rewrite lookup_empty.
  - intros i x m r Hi IH event. unfold clear_stale_event.
    pose proof (IH i) as IHi. rewrite Hi in IHi.
    destruct (decide (i = event)) as [->|Hne].
    + rewrite lookup_insert_eq. rewrite IHi.
      destruct (clm !! event) as [ls|] eqn:Hl.
      * by rewrite lookup_insert_eq.
      * by rewrite IHi.
    + rewrite lookup_insert_ne by done. rewrite <- IH.
      destruct (r !! i); [by rewrite lookup_insert_ne | done].
Qed.

Lemma not_elem_of_remove_stale cb staleFns listeners :
  cb ∈ staleFns → cb ∉ remove_stale staleFns listeners.
Proof.
  intros Hin Hcb. unfold remove_stale in Hcb.
  by apply list_elem_of_filter in Hcb as [? _].
Qed.

(** The state-level reading of what [createHotContext] clears. *)
Lemma createHotContext_clears ownerPath st :
  let st' := (createHotContext ownerPath st).2 in
  (hotModulesMap st' !! ownerPath
   = (λ hmod, {| id := id hmod; callbacks := [] |})
     <$> hotModulesMap st !! ownerPath)
  ∧ (∀ l stale event staleFns cb,
       ctxToListenersMap st !! ownerPath = Some l →
       listenerMaps st !! l = Some stale →
       stale !! event = Some staleFns →
       cb ∈ staleFns →
       cb ∉ default [] (customListenersMap st' !! event))
  ∧ disposeMap st' = disposeMap st
  ∧ pruneMap st' = pruneMap st.
Proof.
  unfold createHotContext.
  destruct (dataMap st !! ownerPath) as [dl|]; simpl;
    (split; [|split; [|done]]).
  1,3: destruct (hotModulesMap st !! ownerPath) as [hmod|] eqn:Hm; simpl;
       [by rewrite lookup_insert_eq | done].
  all: intros l stale event staleFns cb Hl Hstale Hev Hcb;
       rewrite Hl, Hstale; simpl; rewrite clear_stale_lookup, Hev;
       destruct (customListenersMap st !! event); simpl;
       [by apply not_elem_of_remove_stale | apply not_elem_of_nil].
Qed.

(** [cb] is recorded under [event] in the listener map of [hot]. *)
Definition listening (hot : HotContext) (event : string) (cb : FnId)
    (st : State) : Prop :=
  ∃ m fns, listenerMaps st !! newListeners hot = Some m
           ∧ m !! event = Some fns ∧ cb ∈ fns.

Lemma register_ctxToListenersMap hot st r :
  ctxToListenersMap (register hot st r) = ctxToListenersMap st.
Proof.
  destruct r as [d c|c|cb|cb|e cb]; simpl; try done.
  unfold hot_accept.
  destruct (is_function d || negb (truthy d)); [done|].
  destruct (is_string d); [done|]. by destruct d.
Qed.

Lemma register_listenerMaps hot st r :
  (∀ event cb, r ≠ RegOn event cb) →
  listenerMaps (register hot st r) = listenerMaps st.
Proof.
  intros Hr. destruct r as [d c|c|cb|cb|e cb]; simpl; try done.
  - unfold hot_accept.
    destruct (is_function d || negb (truthy d)); [done|].
    destruct (is_string d); [done|]. by destruct d.
  - by destruct (Hr e cb).
Qed.

Lemma register_on_listening hot st event cb :
  listening hot event cb (register hot st (RegOn event cb)).
Proof.
  unfold listening. simpl. rewrite lookup_insert_eq.
  eexists _, _. split; [done|]. unfold addToMap. rewrite lookup_insert_eq.
  split; [done|]. apply elem_of_app. right. by left.
Qed.

Lemma createHotContext_ownerPath path st :
  ownerPath (createHotContext path st).1 = path.
Proof. unfold createHotContext. by destruct (dataMap st !! path). Qed.

Lemma register_nextLoc hot st r : nextLoc (register hot st r) = nextLoc st.
Proof.
  destruct r as [d c|c|cb|cb|e cb]; simpl; try done.
  unfold hot_accept.
  destruct (is_function d || negb (truthy d)); [done|].
  destruct (is_string d); [done|]. by destruct d.
Qed.

Lemma register_dataMap hot st r : dataMap (register hot st r) = dataMap st.
Proof.
  destruct r as [d c|c|cb|cb|e cb]; simpl; try done.
  unfold hot_accept.
  destruct (is_function d || negb (truthy d)); [done|].
  destruct (is_string d); [done|]. by destruct d.
Qed.

(** A registration through any context keeps what the listener map of
    [hot] holds. *)
Lemma register_keeps_listening_of hot hot' st r event cb :
  listening hot event cb st → listening hot event cb (register hot' st r).
Proof.
  intros (m & fns & Hm & Hfns & Hcb).
  destruct r as [d c|c|f|f|e c];
    try (unfold listening; rewrite register_listenerMaps by done;
         by eexists _, _).
  unfold listening. simpl.
  destruct (decide (newListeners hot' = newListeners hot)) as [Heq|Hne].
  - rewrite Heq, lookup_insert_eq, Hm. simpl.
    unfold addToMap. destruct (decide (e = event)) as [->|Hne].
    + eexists _, _. split; [done|]. rewrite lookup_insert_eq, Hfns.
      split; [done|]. apply elem_of_app. by left.
    + eexists _, _. split; [done|]. by rewrite lookup_insert_ne.
  - rewrite lookup_insert_ne by done. by eexists _, _.
Qed.

(** The addresses in use lie below [nextLoc]. *)
Definition fresh (s : Session) : Prop :=
  (∀ hot, hot ∈ contexts s → newListeners hot < nextLoc (registry s))
  ∧ (∀ q l, ctxToListenersMap (registry s) !! q = Some l →
            l < nextLoc (registry s))
  ∧ (∀ q l, dataMap (registry s) !! q = Some l → l < nextLoc (registry s)).

Lemma fresh_start : fresh start.
Proof.
  repeat split; simpl.
  - intros hot H. by apply elem_of_nil in H.
  - intros q l. by rewrite lookup_empty.
  - intros q l. by rewrite lookup_empty.
Qed.

Lemma fresh_step s op : fresh s → fresh (op_step s op).
Proof.
  intros (Hc & Hl & Hd). destruct op as [path|i r]; simpl.
  - unfold createHotContext.
    destruct (dataMap (registry s) !! path) as [dl|] eqn:Hdl; simpl;
      repeat split; simpl.
    + intros hot [Hin|Hin]%elem_of_app.
      * specialize (Hc hot Hin). lia.
      * apply list_elem_of_singleton in Hin as ->. simpl. lia.
    + intros q l. rewrite lookup_insert. case_decide.
      * intros [= <-]. lia.
      * intros Hq. specialize (Hl q l Hq). lia.
    + intros q l Hq. specialize (Hd q l Hq). lia.
    + intros hot [Hin|Hin]%elem_of_app.
      * specialize (Hc hot Hin). lia.
      * apply list_elem_of_singleton in Hin as ->. simpl. lia.
    + intros q l. rewrite lookup_insert. case_decide.
      * intros [= <-]. lia.
      * intros Hq. specialize (Hl q l Hq). lia.
    + intros q l. rewrite lookup_insert. case_decide.
      * intros [= <-]. lia.
      * intros Hq. specialize (Hd q l Hq). lia.
  - destruct (contexts s !! i) as [hot|]; [|done]. simpl.
    repeat split; simpl;
      rewrite ?register_nextLoc, ?register_ctxToListenersMap,
              ?register_dataMap; done.
Qed.

Lemma fresh_ops ops s : fresh s → fresh (fold_left op_step ops s).
Proof.
  revert s. induction ops as [|op ops IH]; intros s Hs; [done|].
  simpl. apply IH. by apply fresh_step.
Qed.

Lemma session_app ops1 ops2 :
  session (ops1 ++ ops2) = fold_left op_step ops2 (session ops1).
Proof. unfold session. by rewrite fold_left_app. Qed.

(** The contexts created so far keep their rank. *)
Lemma op_step_contexts s op i hot :
  contexts s !! i = Some hot → contexts (op_step s op) !! i = Some hot.
Proof.
  intros Hi. destruct op as [path|j r]; simpl.
  - by apply lookup_app_l_Some.
  - by destruct (contexts s !! j).
Qed.

Lemma ops_contexts ops : ∀ s i hot,
  contexts s !! i = Some hot →
  contexts (fold_left op_step ops s) !! i = Some hot.
Proof.
  induction ops as [|op ops IH]; intros s i hot Hi; [done|].
  simpl. apply IH. by apply op_step_contexts.
Qed.

(** No step takes from what the listener map of a context holds. *)
Lemma op_step_listening s op hot event cb :
  fresh s → hot ∈ contexts s →
  listening hot event cb (registry s) →
  listening hot event cb (registry (op_step s op)).
Proof.
  intros (Hc & _ & _) Hin Hl. destruct op as [path|j r]; simpl.
  - destruct Hl as (m & fns & Hm & Hfns & Hcb).
    exists m, fns. split; [|done].
    specialize (Hc hot Hin).
    unfold createHotContext.
    destruct (dataMap (registry s) !! path); simpl;
      rewrite lookup_insert_ne; try done; lia.
  - destruct (contexts s !! j) as [hot'|]; [|done]. simpl.
    by apply register_keeps_listening_of.
Qed.

Lemma ops_listening ops : ∀ s hot event cb,
  fresh s → hot ∈ contexts s →
  listening hot event cb (registry s) →
  listening hot event cb (registry (fold_left op_step ops s)).
Proof.
  induction ops as [|op ops IH]; intros s hot event cb Hs Hin Hl; [done|].
  simpl. apply IH.
  - by apply fresh_step.
  - apply list_elem_of_lookup in Hin as [i Hi].
    apply list_elem_of_lookup. exists i. by apply op_step_contexts.
  - by apply op_step_listening.
Qed.

(** What was registered with [hot.on] through the context of rank [i]
    is in its listener map. *)
Lemma ops_registered_listening ops : ∀ s i hot event cb,
  fresh s → contexts s !! i = Some hot →
  OpRegister i (RegOn event cb) ∈ ops →
  listening hot event cb (registry (fold_left op_step ops s)).
Proof.
  induction ops as [|op ops IH]; intros s i hot event cb Hs Hi Hin.
  - by apply elem_of_nil in Hin.
  - simpl. apply elem_of_cons in Hin as [<-|Hin].
    + apply ops_listening.
      * by apply fresh_step.
      * apply list_elem_of_lookup. exists i.
        by apply op_step_contexts.
      * simpl. rewrite Hi. simpl. apply register_on_listening.
    + apply (IH _ i); [by apply fresh_step | by apply op_step_contexts | done].
Qed.

(** The context on record for a module changes only when a context is
    created for it. *)
Lemma ops_ctxToListenersMap ops path : ∀ s,
  OpCreate path ∉ ops →
  ctxToListenersMap (registry (fold_left op_step ops s)) !! path
  = ctxToListenersMap (registry s) !! path.
Proof.
  induction ops as [|op ops IH]; intros s Hno; [done|].
  apply not_elem_of_cons in Hno as [Hne Hno].
  simpl. rewrite IH by done. destruct op as [q|j r]; simpl.
  - unfold createHotContext.
    destruct (dataMap (registry s) !! q); simpl;
      rewrite lookup_insert_ne; try done; by intros ->.
  - destruct (contexts s !! j); [|done]. simpl.
    by rewrite register_ctxToListenersMap.
Qed.

Lemma createHotContext_current path st :
  ctxToListenersMap (createHotContext path st).2 !! path
  = Some (newListeners (createHotContext path st).1).
Proof.
  unfold createHotContext.
  destruct (dataMap st !! path); simpl; by rewrite lookup_insert_eq.
Qed.

(** C3, as the code has it. Take any session in which a context is
    created for a module and no other one for it afterwards, whatever
    else happens before and after: contexts created for other modules,
    registrations through any context.  When the context of the module
    is then created again, the module has no accept callbacks left, and
    no function registered with [hot.on] through that context is left
    under its event in [customListenersMap]; the [dispose] and [prune]
    callbacks are left registered as they were, so that the one
    registered last through the context is still there. *)
Theorem recreated_context_clears_accepts_and_listeners
    (ops1 ops2 : list Op) (path : string) :
  OpCreate path ∉ ops2 →
  let i := length (contexts (session ops1)) in
  let st := registry (session (ops1 ++ OpCreate path :: ops2)) in
  let st' := (createHotContext path st).2 in
  (∀ hmod, hotModulesMap st' !! path = Some hmod → callbacks hmod = [])
  ∧ (∀ event cb, OpRegister i (RegOn event cb) ∈ ops2 →
                 cb ∉ default [] (customListenersMap st' !! event))
  ∧ disposeMap st' = disposeMap st
  ∧ pruneMap st' = pruneMap st
  ∧ (∀ cb before, ops2 = before ++ [OpRegister i (RegDispose cb)] →
                  disposeMap st' !! path = Some cb)
  ∧ (∀ cb before, ops2 = before ++ [OpRegister i (RegPrune cb)] →
                  pruneMap st' !! path = Some cb).
Proof.
  intros Hno i st st'.
  destruct (createHotContext_clears path st) as (Hmods & Hls & Hd & Hp).
  fold st' in Hmods, Hls, Hd, Hp.
  set (s1 := op_step (session ops1) (OpCreate path)).
  set (hot := (createHotContext path (registry (session ops1))).1).
  assert (Hst : st = registry (fold_left op_step ops2 s1)).
  { unfold st. by rewrite session_app. }
  assert (Hfresh : fresh s1).
  { apply fresh_step. unfold session. apply fresh_ops, fresh_start. }
  assert (Hi : contexts s1 !! i = Some hot).
  { unfold s1, i. simpl. by rewrite lookup_app_r, Nat.sub_diag. }
  assert (Hown : ownerPath hot = path) by apply createHotContext_ownerPath.
  assert (Hlast : ∀ r before,
            ops2 = before ++ [OpRegister i r] →
            st = register hot (registry (fold_left op_step before s1)) r).
  { intros r before ->. rewrite Hst, fold_left_app. simpl.
    by rewrite (ops_contexts before s1 i hot Hi). }
  split; [|split; [|split; [exact Hd|split; [exact Hp|split]]]].
  - intros hmod. rewrite Hmods.
    destruct (hotModulesMap st !! path); simpl; [|done].
    by intros [= <-].
  - intros event cb Hin.
    destruct (ops_registered_listening ops2 s1 i hot event cb Hfresh Hi Hin)
      as (m & fns & Hm & Hfns & Hcb).
    rewrite <- Hst in Hm.
    apply (Hls (newListeners hot) m event fns cb); try done.
    rewrite Hst, ops_ctxToListenersMap by done.
    apply createHotContext_current.
  - intros cb before Hops. rewrite Hd, (Hlast _ _ Hops). simpl.
    by rewrite Hown, lookup_insert_eq.
  - intros cb before Hops. rewrite Hp, (Hlast _ _ Hops). simpl.
    by rewrite Hown, lookup_insert_eq.
Qed.

Lemma recreated_context_clears_accepts_and_listeners_witness :
  let st := registry (session [OpCreate "/src/a.js";
                               OpRegister 0 (RegOn "my:event" 9);
                               OpCreate "/src/b.js";
                               OpRegister 1 (RegOn "my:event" 8);
                               OpRegister 0 (RegDispose 7)]) in
  customListenersMap st !! "my:event" = Some [9; 8]
  ∧ (9 ∉ default []
           (customListenersMap (createHotContext "/src/a.js" st).2
            !! "my:event"))
  ∧ disposeMap (createHotContext "/src/a.js" st).2 !! "/src/a.js" = Some 7.
Proof.
  cbv zeta.
  assert (Hno : OpCreate "/src/a.js"
                ∉ [OpRegister 0 (RegOn "my:event" 9); OpCreate "/src/b.js";
                   OpRegister 1 (RegOn "my:event" 8);
                   OpRegister 0 (RegDispose 7)]).
  { intros H. repeat (apply elem_of_cons in H as [H|H]; [discriminate H|]).
    by apply elem_of_nil in H. }
  destruct (recreated_context_clears_accepts_and_listeners
              [] _ "/src/a.js" Hno) as (_ & Hgone & _ & _ & Hdispose & _).
  split; [reflexivity|]. split.
  - apply (Hgone "my:event" 9). by left.
  - apply (Hdispose 7 [OpRegister 0 (RegOn "my:event" 9);
                       OpCreate "/src/b.js";
                       OpRegister 1 (RegOn "my:event" 8)]).
    reflexivity.
Defined.

(** C3 as stated fails: the [dispose] and [prune] callbacks registered
    through the first context are still registered after the context of
    the same module has been created again. *)
Lemma dispose_and_prune_survive_recreation :
  let hot := (createHotContext "/src/a.js" init).1 in
  let st1 := (createHotContext "/src/a.js" init).2 in
  let st2 := hot_prune hot 8 (hot_dispose hot 7 st1) in
  let st3 := (createHotContext "/src/a.js" st2).2 in
  disposeMap st3 !! "/src/a.js" = Some 7
  ∧ pruneMap st3 !! "/src/a.js" = Some 8.
Proof. by vm_compute. Qed.


(** The callback [hot.accept] registers when it does not throw. *)
Definition accepted_callback (hot : HotContext) (deps callback : Value)
    : HotCallback :=
  if is_function deps || negb (truthy deps) then
    {| Client.deps := [VString (ownerPath hot)]; fn := FnSelfAccept deps |}
  else if is_string deps then
    {| Client.deps := [deps]; fn := FnDepAccept callback |}
  else
    {| Client.deps := match deps with VArray elems => elems | _ => [] end;
       fn := callback_or_default callback |}.

(** [deps] is truthy and neither a function, a string nor an array. *)
Definition invalid_deps (deps : Value) : bool :=
  truthy deps && negb (is_function deps) && negb (is_string deps)
  && negb (is_array deps).

Lemma hot_accept_cases hot deps callback st :
  hot_accept hot deps callback st
  = if invalid_deps deps then Throw "invalid hot.accept() usage."
    else Return (acceptDeps (ownerPath hot)
                            (Client.deps (accepted_callback hot deps callback))
                            (fn (accepted_callback hot deps callback)) st).
Proof.
  unfold hot_accept, accepted_callback, invalid_deps.
  destruct deps as [| |b|z| |s|f|elems|o]; simpl; try done.
  - by destruct b.
  - by destruct (z =? 0)%Z.
  - by destruct (s =? "")%string.
Qed.

Lemma acceptDeps_registers ownerPath deps fn st :
  hotModulesMap (acceptDeps ownerPath deps fn st) !! ownerPath
  = Some {| id := default ownerPath (id <$> hotModulesMap st !! ownerPath);
            callbacks :=
              default [] (callbacks <$> hotModulesMap st !! ownerPath)
              ++ [{| Client.deps := deps; Client.fn := fn |}] |}.
Proof.
  unfold acceptDeps. simpl. rewrite lookup_insert_eq.
  by destruct (hotModulesMap st !! ownerPath).
Qed.

(** C10. [hot.accept(deps, callback)] throws exactly when [deps] is
    truthy and is neither a function, a string nor an array, and then
    the message is 'invalid hot.accept() usage.'; in every other case
    it returns after appending one accept callback to the module's
    list. *)
Theorem hot_accept_throws_iff_invalid_deps
    (hot : HotContext) (deps callback : Value) (st : State) :
  ((∃ msg, hot_accept hot deps callback st = Throw msg)
   ↔ truthy deps = true ∧ is_function deps = false
     ∧ is_string deps = false ∧ is_array deps = false)
  ∧ (∀ msg, hot_accept hot deps callback st = Throw msg →
            msg = "invalid hot.accept() usage.")
  ∧ (¬ (truthy deps = true ∧ is_function deps = false
        ∧ is_string deps = false ∧ is_array deps = false) →
     ∃ cb st',
       hot_accept hot deps callback st = Return st'
       ∧ st' = acceptDeps (ownerPath hot) (Client.deps cb) (fn cb) st
       ∧ hotModulesMap st' !! ownerPath hot
         = Some {| id := default (ownerPath hot)
                           (id <$> hotModulesMap st !! ownerPath hot);
                   callbacks :=
                     default [] (callbacks <$> hotModulesMap st !! ownerPath hot)
                     ++ [cb] |}).
Proof.
  assert (Hinv : invalid_deps deps = true
                 ↔ truthy deps = true ∧ is_function deps = false
                   ∧ is_string deps = false ∧ is_array deps = false).
  { unfold invalid_deps. rewrite !andb_true_iff, !negb_true_iff. tauto. }
  rewrite hot_accept_cases.
  destruct (invalid_deps deps) eqn:Hd.
  - split; [split; [intros _; by apply Hinv | by eexists]|].
    split; [by intros msg [= <-]|].
    intros Hn. destruct Hn. by apply Hinv.
  - split; [split; [by intros [msg ?] | intros Hc%Hinv; congruence]|].
    split; [done|]. intros _.
    exists (accepted_callback hot deps callback). eexists.
    split; [done|]. split; [done|].
    rewrite acceptDeps_registers. by destruct (accepted_callback _ _ _).
Qed.

End Client.

(** ** Applying payloads and keeping the socket (client/client.ts) *)

Module Hmr.
Import JS Payload Client Url.

(** The constants the hmr plugin injects into the client script. *)
Record Config := mkConfig {
  BASE : string;                    (* [__BASE__] *)
  SERVER_HOST : string;             (* [__SERVER_HOST__] *)
  HMR_PROTOCOL : option string;     (* [__HMR_PROTOCOL__] *)
  HMR_HOSTNAME : option string;     (* [__HMR_HOSTNAME__] *)
  HMR_PORT : option N;              (* [__HMR_PORT__] *)
  HMR_DIRECT_TARGET : string;       (* [__HMR_DIRECT_TARGET__] *)
  HMR_BASE : string                 (* [__HMR_BASE__] *)
}.

(** What the script reads from the page it runs in. *)
Record Page := mkPage {
  location_protocol : string;       (* [location.protocol] *)
  importMetaUrl_hostname : string;  (* [new URL(import.meta.url).hostname] *)
  importMetaUrl_port : string       (* [new URL(import.meta.url).port] *)
}.

(** [s || d] for a string or [null] on the left. *)
Definition or_string (s : option string) (d : string) : string :=
  match s with
  | Some x => if String.eqb x "" then d else x
  | None => d
  end.

(** Truthiness of [__HMR_PORT__ : number | null]. *)
Definition port_truthy (port : option N) : bool :=
  match port with
  | Some n => negb (n =? 0)%N
  | None => false
  end.

Definition socketProtocol (cfg : Config) (page : Page) : string :=
  or_string (HMR_PROTOCOL cfg)
    (if String.eqb (location_protocol page) "https:" then "wss" else "ws").

Definition hmrPort (cfg : Config) : option N := HMR_PORT cfg.

Definition socketHost (cfg : Config) (page : Page) : string :=
  or_string (HMR_HOSTNAME cfg) (importMetaUrl_hostname page)
  +:+ ":"
  +:+ (if port_truthy (hmrPort cfg) then pretty (default 0%N (hmrPort cfg))
       else importMetaUrl_port page)
  +:+ HMR_BASE cfg.

Definition directSocketHost (cfg : Config) : string := HMR_DIRECT_TARGET cfg.

(** [__BASE__ || '/'] *)
Definition base (cfg : Config) : string := or_string (Some (BASE cfg)) "/".

(** What the client does to the outside, in the order it does it. *)
Inductive Effect :=
| EffDispose (disposer : FnId) (data : option Loc)
    (* [await disposer(dataMap.get(dep))] *)
| EffImport (url : string)
    (* [await import(url)] *)
| EffWarnFailedFetch (dep : string)
    (* [warnFailedFetch(e, dep)] *)
| EffCallback (fn : HotFn) (modules : list (option ModuleNamespace))
    (* [fn(deps.map((dep) => moduleMap.get(dep)))] *)
| EffListener (cb : FnId) (data : HMRPayload)
    (* [cb(data)] from [notifyListeners] *)
| EffReload
    (* [location.reload()] *)
| EffNewWebSocket (url : string)
    (* [new WebSocket(url, 'vite-hmr')] *)
| EffReportFailure
    (* the [console.error] of a failed direct connection *)
| EffWaitForPing (protocol hostAndPath : string)
    (* [await waitForSuccessfulPing(protocol, hostAndPath)] *)
| EffUncaught.
    (* an exception leaves the function returned by [fetchUpdate] *)

(** *** [fetchUpdate] and [queueUpdate] *)

(** [s.split(c)] for a one-character separator. *)
Fixpoint split_char (c : ascii) (s : string) : list string :=
  match s with
  | EmptyString => [EmptyString]
  | String a rest =>
      if Ascii.eqb a c then EmptyString :: split_char c rest
      else match split_char c rest with
           | piece :: pieces => String a piece :: pieces
           | [] => [String a EmptyString]
           end
  end.

(** [deps.includes(acceptedPath)] *)
Definition includes_path (deps : list Value) (acceptedPath : string) : bool :=
  existsb (λ d, strict_eq_string d acceptedPath) deps.

(** The specifier handed to [import()].  [timestamp] is an integer
    below 10^21, which a template literal prints in decimal digits. *)
Definition import_url (cfg : Config) (u : Update) : string :=
  let dep := acceptedPath u in
  (* const [path, query] = dep.split(`?`) *)
  let pieces := split_char "?" dep in
  let path := default EmptyString (pieces !! 0%nat) in
  let query := pieces !! 1%nat in
  base cfg +:+ slice1 path +:+ "?"
  +:+ (if default false (explicitImportRequired u) then "import&" else "")
  +:+ "t=" +:+ pretty (timestamp u)
  +:+ match query with
      | Some q => if String.eqb q "" then "" else "&" +:+ q
      | None => ""
      end.

(** What the function returned by [fetchUpdate] has captured. *)
Record Applier := mkApplier {
  qualifiedCallbacks : list HotCallback;
  moduleMap : gmap string ModuleNamespace
}.

(** [moduleMap.get(dep)] *)
Definition module_of (moduleMap : gmap string ModuleNamespace) (dep : Value)
    : option ModuleNamespace :=
  match dep with
  | VString s => moduleMap !! s
  | _ => None
  end.

(** [fetchUpdate(update)] up to its [return]: the effects performed and
    the function returned ([None] for [undefined]).  [importer] tells
    what [import()] of a specifier resolves to, [None] when it rejects.
    The disposer, a function, is taken to return normally. *)
Definition fetchUpdate (cfg : Config)
    (importer : string → option ModuleNamespace) (st : State) (u : Update)
    : list Effect * option Applier :=
  match hotModulesMap st !! path u with
  | None => ([], None)
  | Some hmod =>
      let isSelfUpdate := String.eqb (path u) (acceptedPath u) in
      (* determine the qualified callbacks before we re-import the modules *)
      let qualifiedCallbacks :=
        filter (λ cb, includes_path (deps cb) (acceptedPath u) = true)
               (callbacks hmod) in
      if isSelfUpdate || (0 <? length qualifiedCallbacks)%nat then
        let dep := acceptedPath u in
        let disposed :=
          match disposeMap st !! dep with
          | Some disposer => [EffDispose disposer (dataMap st !! dep)]
          | None => []
          end in
        match importer (import_url cfg u) with
        | Some newMod =>
            (disposed ++ [EffImport (import_url cfg u)],
             Some {| qualifiedCallbacks := qualifiedCallbacks;
                     moduleMap := {[dep := newMod]} |})
        | None =>
            (disposed ++ [EffImport (import_url cfg u); EffWarnFailedFetch dep],
             Some {| qualifiedCallbacks := qualifiedCallbacks;
                     moduleMap := ∅ |})
        end
      else
        ([], Some {| qualifiedCallbacks := qualifiedCallbacks;
                     moduleMap := ∅ |})
  end.

(** What the closure stored as [fn] does when it is called. *)
Inductive Callee :=
| NoCall               (* it returns without calling anything *)
| UserCall (f : FnId)  (* it calls the function [f] given by the module *)
| NotCallable.         (* it calls a value that is no function: TypeError *)

(** [v(...)] *)
Definition callee_of (v : Value) : Callee :=
  match v with
  | VFunction f => UserCall f
  | _ => NotCallable
  end.

Definition callee (fn : HotFn) : Callee :=
  match fn with
  | FnSelfAccept deps => if truthy deps then callee_of deps else NoCall
  | FnDepAccept callback =>
      if truthy callback then callee_of callback else NoCall
  | FnExports callback => callee_of callback
  | FnGiven callback => callee_of callback
  | FnDefault => NoCall
  end.

(** Whether [fn] itself is a function: the closures made by the hot
    context are, a value stored as it was given need not be. *)
Definition is_closure (fn : HotFn) : bool :=
  match fn with
  | FnGiven callback => is_function callback
  | _ => true
  end.

(** Whether the call [fn(...)] returns, [returns] telling it of the
    function of the module that the call reaches. *)
Definition completes (returns : bool) (fn : HotFn) : bool :=
  match callee fn with
  | NoCall => true
  | UserCall _ => returns
  | NotCallable => false
  end.

(** The loop [for (const { deps, fn } of qualifiedCallbacks)] from its
    round [k] on.  [returns k] tells whether the function of the module
    reached in round [k] returns; nothing catches an exception, so the
    first call that throws ends the loop, and a [fn] that is no function
    throws without anything being called. *)
Fixpoint call_qualified (returns : nat → bool)
    (moduleMap : gmap string ModuleNamespace) (k : nat)
    (cbs : list HotCallback) : list Effect :=
  match cbs with
  | [] => []
  | cb :: rest =>
      let call :=
        EffCallback (fn cb) (map (module_of moduleMap) (deps cb)) in
      if completes (returns k) (fn cb) then
        call :: call_qualified returns moduleMap (S k) rest
      else
        (if is_closure (fn cb) then [call] else []) ++ [EffUncaught]
  end.

(** Running the function returned by [fetchUpdate]. *)
Definition run_applier (returns : nat → bool) (a : Applier) : list Effect :=
  call_qualified returns (moduleMap a) 0 (qualifiedCallbacks a).

(** One [js-update] from [queueUpdate(fetchUpdate(update))], which is
    what [handleMessage] does with each [js-update] of a batch it
    applies, to the call [fn && fn()]: the effects of this update in the
    order they happen.  (Effects of the other updates of the batch may
    come in between.) *)
Definition apply_js_update (cfg : Config)
    (importer : string → option ModuleNamespace) (returns : nat → bool)
    (st : State) (u : Update) : list Effect :=
  let '(fetched, fn) := fetchUpdate cfg importer st u in
  fetched ++ match fn with Some a => run_applier returns a | None => [] end.

(** *** [handleMessage], case 'full-reload' *)

(** [s.endsWith(suffix)] *)
Fixpoint endsWith (s suffix : string) : bool :=
  String.eqb s suffix
  || match s with
     | EmptyString => false
     | String _ rest => endsWith rest suffix
     end.

(** [notifyListeners(event, data)] *)
Definition notifyListeners (event : string) (data : HMRPayload) (st : State)
    : list Effect :=
  match customListenersMap st !! event with
  | Some cbs => map (λ cb, EffListener cb data) cbs
  | None => []
  end.

(** The 'full-reload' case; [pagePath] is [decodeURI(location.pathname)]
    and [path] the payload's optional [path]. *)
Definition full_reload (cfg : Config) (pagePath : string)
    (path : option string) (st : State) : list Effect :=
  notifyListeners "vite:beforeFullReload" (FullReload path) st
  ++ match path with
     | Some p =>
         if negb (String.eqb p "") && endsWith p ".html" then
           (* if html file is edited, only reload the page if the browser
              is currently on that page. *)
           let payloadPath := base cfg +:+ slice1 p in
           if String.eqb pagePath payloadPath
              || String.eqb p "/index.html"
              || (endsWith pagePath "/"
                  && String.eqb (pagePath +:+ "index.html") payloadPath)
           then [EffReload]
           else []
         else [EffReload]
     | None => [EffReload]
     end.

(** The browser is on the page the payload names: the page path is the
    payload path under [base], or the directory whose [index.html] it is. *)
Definition on_that_page (cfg : Config) (pagePath p : string) : bool :=
  String.eqb pagePath (base cfg +:+ slice1 p)
  || (endsWith pagePath "/"
      && String.eqb (pagePath +:+ "index.html") (base cfg +:+ slice1 p)).

(** *** The socket and its fallback *)

(** The two closures given to [setupWebSocket] as [onCloseWithoutOpen]. *)
Inductive CloseCallback :=
| CbFallback        (* [fallback], defined when [!hmrPort] *)
| CbReportFailure.  (* the [console.error] given by [fallback] *)

(** A socket made by [setupWebSocket] with what its listeners capture. *)
Record WebSocket := mkWebSocket {
  protocol : string;
  hostAndPath : string;
  isOpened : bool;
  onCloseWithoutOpen : option CloseCallback
}.

(** The sockets created so far, oldest first, and the index held by the
    variable [socket]. *)
Record Sockets := mkSockets {
  created : list WebSocket;
  socket : option nat
}.

(** [setupWebSocket(protocol, hostAndPath, onCloseWithoutOpen)]: the new
    socket's index, the sockets, the effect of the constructor. *)
Definition setupWebSocket (protocol hostAndPath : string)
    (onCloseWithoutOpen : option CloseCallback) (ss : Sockets)
    : nat * Sockets * list Effect :=
  (length (created ss),
   {| created := created ss
                 ++ [{| protocol := protocol; hostAndPath := hostAndPath;
                        isOpened := false;
                        onCloseWithoutOpen := onCloseWithoutOpen |}];
      socket := socket ss |},
   [EffNewWebSocket (protocol +:+ "://" +:+ hostAndPath)]).

(** The top-level connection of the script. *)
Definition connect (cfg : Config) (page : Page) : Sockets * list Effect :=
  let fallback :=
    if negb (port_truthy (hmrPort cfg)) then Some CbFallback else None in
  let '(i, ss, effs) :=
    setupWebSocket (socketProtocol cfg page) (socketHost cfg page) fallback
                   {| created := []; socket := None |} in
  ({| created := created ss; socket := Some i |}, effs).

(** The 'open' listener of socket [i]. *)
Definition on_open (i : nat) (ss : Sockets) : Sockets :=
  {| created :=
       alter (λ ws, {| protocol := protocol ws; hostAndPath := hostAndPath ws;
                       isOpened := true;
                       onCloseWithoutOpen := onCloseWithoutOpen ws |})
             i (created ss);
     socket := socket ss |}.

(** The 'close' listener of socket [i], called with [{ wasClean }]. *)
Definition on_close (cfg : Config) (page : Page) (i : nat) (wasClean : bool)
    (ss : Sockets) : Sockets * list Effect :=
  match created ss !! i with
  | None => (ss, [])
  | Some ws =>
      if wasClean then (ss, [])
      else
        match isOpened ws, onCloseWithoutOpen ws with
        | false, Some CbFallback =>
            (* fallback to connecting directly to the hmr server *)
            let '(j, ss', effs) :=
              setupWebSocket (socketProtocol cfg page) (directSocketHost cfg)
                             (Some CbReportFailure) ss in
            ({| created := created ss'; socket := Some j |}, effs)
        | false, Some CbReportFailure => (ss, [EffReportFailure])
        | _, _ =>
            (* server connection lost. polling for restart... *)
            (ss, [EffWaitForPing (protocol ws) (hostAndPath ws); EffReload])
        end
  end.

(** [full-reload] is ignored exactly for an html file other than
    [/index.html] while the browser is on another page. *)
Definition ignores_full_reload (cfg : Config) (pagePath : string)
    (path : option string) : bool :=
  match path with
  | Some p =>
      endsWith p ".html" && negb (String.eqb p "/index.html")
      && negb (on_that_page cfg pagePath p)
  | None => false
  end.

(** *** Proofs *)

Lemma includes_path_spec (ds : list Value) (p : string) :
  includes_path ds p = true ↔ VString p ∈ ds.
Proof.
  unfold includes_path. rewrite existsb_exists. split.
  - intros (d & Hin & Hd). apply strict_eq_string_spec in Hd as ->.
    by apply list_elem_of_In.
  - intros Hin. exists (VString p). split; [by apply list_elem_of_In|].
    by apply strict_eq_string_spec.
Qed.



Lemma split_char_absent c s :
  includes_char c s = false → split_char c s = [s].
Proof.
  induction s as [|a s IH]; simpl; [done|].
  intros [Ha Hs]%orb_false_iff. by rewrite Ha, (IH Hs).
Qed.

Lemma split_char_app c s rest :
  includes_char c s = false →
  split_char c (s +:+ String c rest) = s :: split_char c rest.
Proof.
  induction s as [|a s IH]; rewrite ?append_cons, ?append_nil_l; simpl.
  - intros _. by rewrite Ascii.eqb_refl.
  - intros [Ha Hs]%orb_false_iff. by rewrite Ha, (IH Hs).
Qed.


(** Every [acceptedPath] can be taken apart that way. *)
Lemma accepted_path_parts (dep : string) :
  ∃ p (query : option (string * option string)),
    dep = p +:+ match query with
                | Some (q, more) =>
                    "?" +:+ q
                    +:+ match more with Some r => "?" +:+ r | None => "" end
                | None => ""
                end
    ∧ includes_char "?" p = false
    ∧ (∀ q more, query = Some (q, more) → includes_char "?" q = false).
Proof.
  destruct (split_first_spec "?" dep) as [Hp Hdep].
  destruct (split_first "?" dep) as [p [rest|]]; simpl in *.
  - destruct (split_first_spec "?" rest) as [Hq Hrest].
    destruct (split_first "?" rest) as [q more]. simpl in *.
    exists p, (Some (q, more)). split; [|split; [done|]].
    + rewrite Hdep at 1. rewrite Hrest at 1. by destruct more.
    + by intros ? ? [= <- <-].
  - exists p, None. by split.
Qed.









(** When nothing qualifies, nothing is fetched: an update that is not a
    self-update and that no callback of the module lists has no effect. *)
Lemma js_update_without_acceptor cfg importer returns st u hmod :
  hotModulesMap st !! path u = Some hmod →
  path u ≠ acceptedPath u →
  (∀ cb, cb ∈ callbacks hmod → VString (acceptedPath u) ∉ deps cb) →
  apply_js_update cfg importer returns st u = [].
Proof.
  intros Hmod Hne Hnone. unfold apply_js_update, fetchUpdate. rewrite Hmod.
  assert (Hnil : filter (λ cb, includes_path (deps cb) (acceptedPath u) = true)
                        (callbacks hmod) = []).
  { induction (callbacks hmod) as [|cb cbs IH]; [done|].
    rewrite filter_cons. case_decide as Hcb.
    - apply includes_path_spec in Hcb. destruct (Hnone cb); [by left | done].
    - apply IH. intros cb' Hin. apply Hnone. by right. }
  rewrite Hnil. apply String.eqb_neq in Hne. by rewrite Hne.
Qed.

Lemma endsWith_nonempty (s suffix : string) :
  suffix ≠ "" → endsWith s suffix = true → s ≠ "".
Proof. intros Hs He ->. simpl in He. by destruct suffix. Qed.

(** C2, as the code has it. A [full-reload] is ignored exactly when the
    payload has a path that ends with [.html], the path is not
    [/index.html], and the browser is on another page; in every other
    case the page is reloaded.  The listeners of [vite:beforeFullReload]
    are notified first in both cases. *)
Theorem full_reload_ignored_only_for_other_html_page
    (cfg : Config) (pagePath : string) (path : option string) (st : State) :
  full_reload cfg pagePath path st
  = notifyListeners "vite:beforeFullReload" (FullReload path) st
    ++ (if ignores_full_reload cfg pagePath path then [] else [EffReload])
  ∧ (ignores_full_reload cfg pagePath path = true
     ↔ ∃ p, path = Some p ∧ endsWith p ".html" = true
            ∧ p ≠ "/index.html" ∧ on_that_page cfg pagePath p = false).
Proof.
  split.
  - unfold full_reload, ignores_full_reload, on_that_page. f_equal.
    destruct path as [p|]; [|done].
    destruct (endsWith p ".html") eqn:Hhtml; simpl.
    + assert (Hp : String.eqb p "" = false).
      { apply String.eqb_neq. by apply (endsWith_nonempty p ".html"). }
      rewrite Hp. simpl.
      destruct (String.eqb pagePath _), (String.eqb p "/index.html"),
               (endsWith pagePath "/" && _); done.
    + by rewrite andb_false_r.
  - unfold ignores_full_reload. split.
    + destruct path as [p|]; [|done].
      rewrite !andb_true_iff, !negb_true_iff.
      intros [[Hh Hi] Ho]. exists p. apply String.eqb_neq in Hi. done.
    + intros (p & -> & Hh & Hi & Ho). apply String.eqb_neq in Hi.
      by rewrite Hh, Hi, Ho.
Qed.

(** C2 as stated fails: the browser is on [/about.html], the payload
    names another page or a file that is no page, and the client reloads
    all the same. *)
Lemma full_reload_despite_other_page :
  let cfg := mkConfig "/" "localhost:5173/" None None None "localhost:5173/" "/" in
  on_that_page cfg "/about.html" "/index.html" = false
  ∧ full_reload cfg "/about.html" (Some "/index.html") init = [EffReload]
  ∧ on_that_page cfg "/about.html" "/src/data.json" = false
  ∧ full_reload cfg "/about.html" (Some "/src/data.json") init = [EffReload].
Proof. by vm_compute. Qed.

(** C8, as the code has it. When the first socket closes uncleanly
    before it ever opened, the client connects to the direct target if
    no hmr port is configured; with a port configured there is no
    fallback, the client polls the same address and reloads.  A clean
    close does nothing. *)
Theorem fallback_only_without_hmr_port (cfg : Config) (page : Page) :
  let ss := (connect cfg page).1 in
  on_close cfg page 0 false ss
  = (if port_truthy (hmrPort cfg) then
       (ss, [EffWaitForPing (socketProtocol cfg page) (socketHost cfg page);
             EffReload])
     else
       ({| created := created ss
                      ++ [{| protocol := socketProtocol cfg page;
                             hostAndPath := directSocketHost cfg;
                             isOpened := false;
                             onCloseWithoutOpen := Some CbReportFailure |}];
           socket := Some 1 |},
        [EffNewWebSocket (socketProtocol cfg page +:+ "://"
                          +:+ directSocketHost cfg)]))
  ∧ on_close cfg page 0 true ss = (ss, []).
Proof.
  unfold connect, on_close, setupWebSocket. simpl.
  by destruct (port_truthy (hmrPort cfg)).
Qed.

(** C8 as stated fails: with an hmr port configured, a first socket that
    closes without having opened is followed by polling and a reload, and
    no socket to the direct target is created. *)
Lemma no_fallback_with_hmr_port :
  let cfg := mkConfig "/" "localhost:5173/" None None (Some 24678%N)
                      "localhost:5173/" "/" in
  let page := mkPage "http:" "localhost" "5173" in
  on_close cfg page 0 false (connect cfg page).1
  = ((connect cfg page).1,
     [EffWaitForPing "ws" "localhost:24678/"; EffReload])
  ∧ created (on_close cfg page 0 false (connect cfg page).1).1
    = created (connect cfg page).1.
Proof. by vm_compute. Qed.

End Hmr.

(** ** The resolved plugin list and the per-hook utilities
       (node/plugins/index.ts, node/config.ts) *)

Module Resolve.
Import Plugins.

Inductive Command := Build | Serve.

(** [optimizeDeps.disabled?: boolean | 'build' | 'dev'] *)
Inductive Disabled :=
| DisabledUnset
| DisabledBool (b : bool)
| DisabledBuild
| DisabledDev.

(** The fields of the resolved config that [resolvePlugins] branches on. *)
Record ResolvedConfig := mkResolvedConfig {
  command : Command;
  build_watch : bool;                  (* [!!config.build.watch] *)
  build_polyfillModulePreload : bool;  (* [config.build.polyfillModulePreload] *)
  build_ssr : bool;                    (* [config.build.ssr] is truthy *)
  esbuild_off : bool;                  (* [config.esbuild === false] *)
  optimizeDeps_disabled : Disabled;    (* [config.optimizeDeps.disabled] *)
  ssr_optimizeDeps_disabled : Disabled (* [config.ssr.optimizeDeps.disabled] *)
}.

(** [getDepOptimizationConfig(config, ssr).disabled] *)
Definition getDepOptimizationConfig (config : ResolvedConfig) (ssr : bool)
    : Disabled :=
  if ssr then ssr_optimizeDeps_disabled config
  else optimizeDeps_disabled config.

Definition isDepsOptimizerEnabled (config : ResolvedConfig) (ssr : bool)
    : bool :=
  let disabled := getDepOptimizationConfig config ssr in
  negb (match disabled with DisabledBool true => true | _ => false end
        || (match command config, disabled with
            | Build, DisabledBuild => true
            | _, _ => false
            end)
        || (match command config, disabled with
            | Serve, DisabledDev => true
            | _, _ => false
            end)).

(** The plugins the internal factories return for a config; the
    factories themselves live in other files. *)
Record Internal := mkInternal {
  ensureWatchPlugin : Plugin;
  metadataPlugin : Plugin;
  preAliasPlugin : Plugin;
  aliasPlugin : Plugin;
  modulePreloadPolyfillPlugin : Plugin;
  optimizedDepsBuildPlugin : Plugin;
  optimizedDepsPlugin : Plugin;
  resolvePlugin : Plugin;
  htmlInlineProxyPlugin : Plugin;
  cssPlugin : Plugin;
  esbuildPlugin : Plugin;
  jsonPlugin : Plugin;
  wasmHelperPlugin : Plugin;
  webWorkerPlugin : Plugin;
  assetPlugin : Plugin;
  wasmFallbackPlugin : Plugin;
  definePlugin : Plugin;
  cssPostPlugin : Plugin;
  ssrRequireHookPlugin : Plugin;
  buildHtmlPlugin : Plugin;
  workerImportMetaUrlPlugin : Plugin;
  dynamicImportVarsPlugin : Plugin;
  importGlobPlugin : Plugin;
  clientInjectionsPlugin : Plugin;
  importAnalysisPlugin : Plugin;
  (* [resolveBuildPlugins(config)] *)
  buildPlugins_pre : list Plugin;
  buildPlugins_post : list Plugin
}.

Definition isBuild (config : ResolvedConfig) : bool :=
  match command config with Build => true | Serve => false end.

(** The entries before the user's pre plugins. *)
Definition before_pre (i : Internal) (config : ResolvedConfig)
    : list (option Plugin) :=
  [ if isBuild config && build_watch config then Some (ensureWatchPlugin i)
    else None;
    if isBuild config then Some (metadataPlugin i) else None;
    Some (preAliasPlugin i);
    Some (aliasPlugin i) ].

(** The entries between the user's pre and normal plugins. *)
Definition before_normal (i : Internal) (config : ResolvedConfig)
    : list (option Plugin) :=
  [ if build_polyfillModulePreload config
    then Some (modulePreloadPolyfillPlugin i) else None ]
  ++ (if isDepsOptimizerEnabled config false
         || isDepsOptimizerEnabled config true
      then [ Some (if isBuild config then optimizedDepsBuildPlugin i
                   else optimizedDepsPlugin i) ]
      else [])
  ++ [ Some (resolvePlugin i);
       Some (htmlInlineProxyPlugin i);
       Some (cssPlugin i);
       if negb (esbuild_off config) then Some (esbuildPlugin i) else None;
       Some (jsonPlugin i);
       Some (wasmHelperPlugin i);
       Some (webWorkerPlugin i);
       Some (assetPlugin i) ].

(** The entries between the user's normal and post plugins. *)
Definition before_post (i : Internal) (config : ResolvedConfig)
    : list (option Plugin) :=
  [ Some (wasmFallbackPlugin i);
    Some (definePlugin i);
    Some (cssPostPlugin i);
    if isBuild config && build_ssr config then Some (ssrRequireHookPlugin i)
    else None;
    if isBuild config then Some (buildHtmlPlugin i) else None;
    Some (workerImportMetaUrlPlugin i) ]
  ++ (Some <$> (if isBuild config then buildPlugins_pre i else []))
  ++ [ Some (dynamicImportVarsPlugin i);
       Some (importGlobPlugin i) ].

(** The entries after the user's post plugins. *)
Definition after_post (i : Internal) (config : ResolvedConfig)
    : list (option Plugin) :=
  (Some <$> (if isBuild config then buildPlugins_post i else []))
  (* internal server-only plugins are always applied after everything else *)
  ++ (if isBuild config then []
      else [ Some (clientInjectionsPlugin i); Some (importAnalysisPlugin i) ]).

(** [resolvePlugins(config, prePlugins, normalPlugins, postPlugins)]:
    the array literal, then [.filter(Boolean)]. *)
Definition resolvePlugins (i : Internal) (config : ResolvedConfig)
    (prePlugins normalPlugins postPlugins : list Plugin) : list Plugin :=
  omap id
    (before_pre i config ++ (Some <$> prePlugins)
     ++ before_normal i config ++ (Some <$> normalPlugins)
     ++ before_post i config ++ (Some <$> postPlugins)
     ++ after_post i config).

(** [createPluginHookUtils(plugins)]: the cache behind
    [getSortedPlugins]. *)
Definition getSortedPlugins (plugins : list Plugin) (hookName : string)
    (sortedPluginsCache : gmap string (list Plugin))
    : list Plugin * gmap string (list Plugin) :=
  match sortedPluginsCache !! hookName with
  | Some sorted => (sorted, sortedPluginsCache)
  | None =>
      let sorted := getSortedPluginsByHook hookName plugins in
      (sorted, <[hookName := sorted]> sortedPluginsCache)
  end.

(** ['handler' in hook ? hook.handler : hook] *)
Definition hook_handler (hook : Hook) : JS.FnId :=
  match hook with
  | HookFunction handler => handler
  | HookObject _ handler => handler
  end.

(** [getSortedPluginHooks(hookName)]; a plugin returned by
    [getSortedPlugins] has the hook, and a handler is a function, so
    [.filter(Boolean)] keeps every entry. *)
Definition getSortedPluginHooks (plugins : list Plugin) (hookName : string)
    (sortedPluginsCache : gmap string (list Plugin))
    : list JS.FnId * gmap string (list Plugin) :=
  let '(sorted, cache) := getSortedPlugins plugins hookName sortedPluginsCache in
  (omap (λ p, hook_handler <$> hooks p !! hookName) sorted, cache).

(** A run of [getSortedPlugins] calls on one utilities object. *)
Fixpoint getSortedPlugins_calls (plugins : list Plugin)
    (hookNames : list string) (cache : gmap string (list Plugin))
    : list (list Plugin) * gmap string (list Plugin) :=
  match hookNames with
  | [] => ([], cache)
  | hookName :: rest =>
      let '(sorted, cache) := getSortedPlugins plugins hookName cache in
      let '(results, cache) := getSortedPlugins_calls plugins rest cache in
      (sorted :: results, cache)
  end.

(** [p.apply]: ['build'], ['serve'] or a function. *)
Inductive Apply := ApplyBuild | ApplyServe | ApplyFn (f : JS.FnId).

(** A user plugin with its [apply] field. *)
Record UserPlugin := mkUserPlugin {
  plugin : Plugin;
  apply : option Apply
}.

(** The filter of [resolveConfig] over the flattened [config.plugins];
    an entry is [None] when it is falsy, [applies f] tells whether the
    function [f] given as [apply] answers something truthy. *)
Definition applicable (applies : JS.FnId → bool) (cmd : Command)
    (p : option UserPlugin) : bool :=
  match p with
  | None => false
  | Some p =>
      match apply p with
      | None => true
      | Some (ApplyFn f) => applies f
      | Some ApplyBuild => match cmd with Build => true | Serve => false end
      | Some ApplyServe => match cmd with Serve => true | Build => false end
      end
  end.

Definition rawUserPlugins (applies : JS.FnId → bool) (cmd : Command)
    (plugins : list (option UserPlugin)) : list Plugin :=
  omap (λ p, if applicable applies cmd p then plugin <$> p else None) plugins.

(** [userPlugins] of [resolveConfig]:
    [[...prePlugins, ...normalPlugins, ...postPlugins]]. *)
Definition userPlugins (applies : JS.FnId → bool) (cmd : Command)
    (plugins : list (option UserPlugin)) : list Plugin :=
  let '(prePlugins, normalPlugins, postPlugins) :=
    sortUserPlugins (Some (inl <$> rawUserPlugins applies cmd plugins)) in
  prePlugins ++ normalPlugins ++ postPlugins.

Section ConfigHook.

(** The config objects, [mergeConfig] and what calling a handler on a
    config answers ([None] for a falsy result) come from elsewhere. *)
Context {Conf ConfigEnv : Type}.
Variable mergeConfig : Conf → Conf → Conf.
Variable call : JS.FnId → Conf → ConfigEnv → option Conf.

(** One round of the loop of [runConfigHook]. *)
Definition runConfigHook_step (configEnv : ConfigEnv) (conf : Conf)
    (p : Plugin) : Conf :=
  match hooks p !! "config" with
  | Some hook =>
      match call (hook_handler hook) conf configEnv with
      | Some res => mergeConfig conf res
      | None => conf
      end
  | None => conf
  end.

Definition runConfigHook (config : Conf) (plugins : list Plugin)
    (configEnv : ConfigEnv) : Conf :=
  fold_left (runConfigHook_step configEnv)
            (getSortedPluginsByHook "config" plugins) config.

End ConfigHook.

(** *** Proofs *)

Lemma omap_id_Some (l : list Plugin) : omap id (Some <$> l) = l.
Proof. induction l as [|x l IH]; [done|]. rewrite fmap_cons. cbn. by f_equal. Qed.

(** X1. The user plugins keep their bands around the internal plugins:
    everything of [prePlugins] comes after the alias plugin and before
    the resolve plugin, [normalPlugins] follow the asset plugin and
    precede the define plugin, [postPlugins] follow the import-glob
    plugin, and when serving the list ends with the client-injection and
    import-analysis plugins. *)
Theorem resolvePlugins_bands (i : Internal) (config : ResolvedConfig)
    (prePlugins normalPlugins postPlugins : list Plugin) :
  ∃ head core middle tail,
    resolvePlugins i config prePlugins normalPlugins postPlugins
    = head ++ [aliasPlugin i] ++ prePlugins
      ++ core ++ [resolvePlugin i] ++ middle ++ [assetPlugin i]
      ++ normalPlugins
      ++ [wasmFallbackPlugin i; definePlugin i] ++ tail
      ++ [importGlobPlugin i] ++ postPlugins
      ++ (if isBuild config then buildPlugins_post i
          else [clientInjectionsPlugin i; importAnalysisPlugin i]).
Proof.
  unfold resolvePlugins, before_pre, before_normal, before_post, after_post.
  rewrite !omap_app, !omap_id_Some.
  exists (omap id [ if isBuild config && build_watch config
                    then Some (ensureWatchPlugin i) else None;
                    if isBuild config then Some (metadataPlugin i) else None;
                    Some (preAliasPlugin i) ]),
         (omap id ([ if build_polyfillModulePreload config
                     then Some (modulePreloadPolyfillPlugin i) else None ]
                   ++ (if isDepsOptimizerEnabled config false
                          || isDepsOptimizerEnabled config true
                       then [ Some (if isBuild config
                                    then optimizedDepsBuildPlugin i
                                    else optimizedDepsPlugin i) ]
                       else []))),
         (omap id [ Some (htmlInlineProxyPlugin i); Some (cssPlugin i);
                    if negb (esbuild_off config) then Some (esbuildPlugin i)
                    else None;
                    Some (jsonPlugin i); Some (wasmHelperPlugin i);
                    Some (webWorkerPlugin i) ]),
         (omap id [ Some (cssPostPlugin i);
                    if isBuild config && build_ssr config
                    then Some (ssrRequireHookPlugin i) else None;
                    if isBuild config then Some (buildHtmlPlugin i) else None;
                    Some (workerImportMetaUrlPlugin i) ]
          ++ (if isBuild config then buildPlugins_pre i else [])
          ++ [dynamicImportVarsPlugin i]).
  destruct (isBuild config), (build_watch config),
    (build_polyfillModulePreload config), (build_ssr config),
    (esbuild_off config),
    (isDepsOptimizerEnabled config false || isDepsOptimizerEnabled config true);
    simpl; rewrite ?omap_id_Some, <- ?app_assoc, ?app_nil_r; simpl;
    reflexivity.
Qed.

(** A cache is coherent when every entry is what would be computed. *)
Definition coherent (plugins : list Plugin)
    (cache : gmap string (list Plugin)) : Prop :=
  ∀ hookName sorted,
    cache !! hookName = Some sorted →
    sorted = getSortedPluginsByHook hookName plugins.

Lemma getSortedPlugins_coherent plugins hookName cache :
  coherent plugins cache →
  (getSortedPlugins plugins hookName cache).1
  = getSortedPluginsByHook hookName plugins
  ∧ coherent plugins (getSortedPlugins plugins hookName cache).2.
Proof.
  intros Hc. unfold getSortedPlugins.
  destruct (cache !! hookName) as [sorted|] eqn:Hl; simpl.
  - split; [by apply Hc | done].
  - split; [done|]. intros h l. rewrite lookup_insert.
    case_decide; [by intros [= <-]; subst | by apply Hc].
Qed.

Lemma getSortedPlugins_calls_coherent plugins hookNames cache :
  coherent plugins cache →
  (getSortedPlugins_calls plugins hookNames cache).1
  = (λ h, getSortedPluginsByHook h plugins) <$> hookNames.
Proof.
  revert cache. induction hookNames as [|h hs IH]; intros cache Hc; [done|].
  simpl. destruct (getSortedPlugins_coherent plugins h cache Hc) as [H1 H2].
  destruct (getSortedPlugins plugins h cache) as [sorted cache'].
  simpl in *. specialize (IH cache' H2).
  destruct (getSortedPlugins_calls plugins hs cache') as [results cache''].
  simpl in *. by rewrite H1, IH.
Qed.

Lemma sorted_plugins_have_hook hookName plugins p :
  p ∈ getSortedPluginsByHook hookName plugins →
  is_Some (hooks p !! hookName).
Proof.
  rewrite getSortedPluginsByHook_filter, !elem_of_app, !list_elem_of_filter.
  unfold hook_band.
  intros [[H _]|[[H _]|[H _]]]; by destruct (hooks p !! hookName).
Qed.

(** X2. The cache of [createPluginHookUtils] cannot be observed: whatever
    hooks were asked for before, [getSortedPlugins] answers what
    [getSortedPluginsByHook] computes on the plugin list, and
    [getSortedPluginHooks] answers the handlers of exactly those plugins,
    one for each and in the same order. *)
Theorem plugin_hook_cache_transparent
    (plugins : list Plugin) (asked : list string) (hookName : string) :
  let cache := (getSortedPlugins_calls plugins asked ∅).2 in
  (getSortedPlugins_calls plugins asked ∅).1
  = (λ h, getSortedPluginsByHook h plugins) <$> asked
  ∧ (getSortedPlugins plugins hookName cache).1
    = getSortedPluginsByHook hookName plugins
  ∧ Forall2 (λ handler p, hook_handler <$> hooks p !! hookName = Some handler)
            (getSortedPluginHooks plugins hookName cache).1
            (getSortedPluginsByHook hookName plugins).
Proof.
  assert (Hco : ∀ hs cache, coherent plugins cache →
            coherent plugins (getSortedPlugins_calls plugins hs cache).2).
  { induction hs as [|h hs IH]; intros cache Hc; [done|].
    simpl. destruct (getSortedPlugins_coherent plugins h cache Hc) as [_ H2].
    destruct (getSortedPlugins plugins h cache) as [sorted cache'].
    simpl in *. specialize (IH cache' H2).
    by destruct (getSortedPlugins_calls plugins hs cache'). }
  assert (Hempty : coherent plugins ∅) by (intros h l; by rewrite lookup_empty).
  cbv zeta. split; [by apply getSortedPlugins_calls_coherent|].
  pose proof (Hco asked ∅ Hempty) as Hc.
  destruct (getSortedPlugins_coherent plugins hookName _ Hc) as [H1 _].
  split; [done|].
  unfold getSortedPluginHooks.
  destruct (getSortedPlugins plugins hookName _) as [sorted cache'].
  simpl in *. subst sorted.
  pose proof (sorted_plugins_have_hook hookName plugins) as Hhas.
  induction (getSortedPluginsByHook hookName plugins) as [|p l IH]; [constructor|].
  destruct (Hhas p) as [hook Hhook]; [by left|].
  simpl. rewrite Hhook. simpl. constructor; [by rewrite Hhook|].
  apply IH. intros q Hq. apply Hhas. by right.
Qed.

Lemma flat_inl (l : list Plugin) : flat (inl <$> l) = l.
Proof.
  unfold flat. induction l as [|x l IH]; [done|].
  rewrite fmap_cons. cbn. by f_equal.
Qed.

(** X3. The user plugins that take part are exactly the applicable entries
    of [config.plugins], none lost and none twice, regrouped by band:
    those enforced pre, then the plain ones, then those enforced post,
    each group in the order of the config. *)
Theorem userPlugins_are_the_applicable_ones
    (applies : JS.FnId → bool) (cmd : Command)
    (plugins : list (option UserPlugin)) :
  userPlugins applies cmd plugins
  = filter (λ p, enforce_band p = BandPre) (rawUserPlugins applies cmd plugins)
    ++ filter (λ p, enforce_band p = BandNormal)
              (rawUserPlugins applies cmd plugins)
    ++ filter (λ p, enforce_band p = BandPost)
              (rawUserPlugins applies cmd plugins)
  ∧ userPlugins applies cmd plugins ≡ₚ rawUserPlugins applies cmd plugins
  ∧ (∀ p, p ∈ userPlugins applies cmd plugins
          ↔ ∃ up, Some up ∈ plugins ∧ plugin up = p
                  ∧ applicable applies cmd (Some up) = true).
Proof.
  assert (Heq : userPlugins applies cmd plugins
    = filter (λ p, enforce_band p = BandPre) (rawUserPlugins applies cmd plugins)
      ++ filter (λ p, enforce_band p = BandNormal)
                (rawUserPlugins applies cmd plugins)
      ++ filter (λ p, enforce_band p = BandPost)
                (rawUserPlugins applies cmd plugins)).
  { unfold userPlugins. by rewrite sortUserPlugins_filter, flat_inl. }
  assert (Hperm : userPlugins applies cmd plugins
                  ≡ₚ rawUserPlugins applies cmd plugins).
  { rewrite Heq. generalize (rawUserPlugins applies cmd plugins). intros l.
    induction l as [|p l IH]; [done|]. rewrite !filter_cons.
    destruct (enforce_band p) eqn:Hb; repeat case_decide; try done.
    - simpl. by f_equiv.
    - simpl. rewrite <- Permutation_middle. by f_equiv.
    - rewrite (app_assoc _ _ (p :: _)), <- Permutation_middle.
      rewrite <- app_assoc. by f_equiv. }
  split; [done|]. split; [done|].
  intros p. rewrite Hperm. unfold rawUserPlugins.
  rewrite list_elem_of_omap. split.
  - intros ([up|] & Hin & Hp); [|done].
    destruct (applicable applies cmd (Some up)) eqn:Ha; [|done].
    simpl in Hp. injection Hp as <-. by exists up.
  - intros (up & Hin & <- & Ha). exists (Some up). by rewrite Ha.
Qed.

Section ConfigHookProofs.
Context {Conf ConfigEnv : Type}.
Variable mergeConfig : Conf → Conf → Conf.
Variable call : JS.FnId → Conf → ConfigEnv → option Conf.

(** X4. The [config] hooks run band by band, pre hooks first and post hooks
    last, each on the config merged from the answers before it; plugins
    without a [config] hook play no part, and when no handler answers
    anything the config comes back as it was given. *)
Theorem runConfigHook_in_band_order
    (config : Conf) (plugins : list Plugin) (configEnv : ConfigEnv) :
  let step := runConfigHook_step mergeConfig call configEnv in
  let band b := filter (λ p, hook_band "config" p = Some b) plugins in
  runConfigHook mergeConfig call config plugins configEnv
  = fold_left step (band BandPost)
      (fold_left step (band BandNormal)
         (fold_left step (band BandPre) config))
  ∧ runConfigHook mergeConfig call config plugins configEnv
    = runConfigHook mergeConfig call config
        (filter (λ p, is_Some (hooks p !! "config")) plugins) configEnv
  ∧ ((∀ p hook conf, p ∈ plugins → hooks p !! "config" = Some hook →
                     call (hook_handler hook) conf configEnv = None) →
     runConfigHook mergeConfig call config plugins configEnv = config).
Proof.
  cbv zeta. unfold runConfigHook.
  rewrite !getSortedPluginsByHook_filter, !fold_left_app.
  split; [done|]. split.
  - rewrite !list_filter_filter. do 3 f_equal.
    all: apply list_filter_iff; intros p; unfold hook_band;
      destruct (hooks p !! "config") as [[|[[]|]]|]; split; try done;
      try (intros [? ?]; done); try (intros ?; split; [done | by eexists]).
  - intros Hnone.
    assert (Hfold : ∀ (l : list Plugin) conf,
              (∀ p, p ∈ l → p ∈ plugins) →
              fold_left (runConfigHook_step mergeConfig call configEnv) l conf
              = conf).
    { induction l as [|p l IH]; intros conf Hl; [done|]. simpl.
      assert (Hstep : runConfigHook_step mergeConfig call configEnv conf p
                      = conf).
      { unfold runConfigHook_step.
        destruct (hooks p !! "config") as [hook|] eqn:Hh; [|done].
        rewrite (Hnone p hook conf); [done | apply Hl; by left | done]. }
      rewrite Hstep. apply IH. intros q Hq. apply Hl. by right. }
    rewrite !Hfold; [done|..]; intros p Hp;
      by apply list_elem_of_filter in Hp as [_ ?].
Qed.

End ConfigHookProofs.

End Resolve.

(** ** [resolveBaseUrl] (node/config.ts) *)

Module BaseUrl.
Import Url.

(** The warnings handed to the logger. *)
Inductive Warning :=
| WarnInvalidBase (base : string)  (* invalid "base" option *)
| WarnLeadingSlash                 (* should start with a slash *)
| WarnTrailingSlash.               (* should end with a slash *)

Section ResolveBaseUrl.

(** [isExternalUrl] and [parseUrl(base).pathname] ([None] for [null])
    come from other files. *)
Variable isExternalUrl : string → bool.
Variable parseUrl_pathname : string → option string.

(** [resolveBaseUrl(base, isBuild, logger)]: the resolved base and the
    warnings logged, oldest first.  [base] is [None] when the argument
    is [undefined], which the default parameter turns into ['/']. *)
Definition resolveBaseUrl (base : option string) (isBuild : bool)
    : string * list Warning :=
  let base := default "/" base in
  let '(base, w1) :=
    if startsWith base "." then ("/", [WarnInvalidBase base])
    else (base, []) in
  let '(base, w2) :=
    (* external URL *)
    if isExternalUrl base then
      if negb isBuild then
        (* get base from full url during dev *)
        (Hmr.or_string (parseUrl_pathname base) "/", [])
      else (base, [])
    else
      (* ensure leading slash *)
      if negb (startsWith base "/") then ("/" +:+ base, [WarnLeadingSlash])
      else (base, []) in
  (* ensure ending slash *)
  let '(base, w3) :=
    if negb (Hmr.endsWith base "/") then (base +:+ "/", [WarnTrailingSlash])
    else (base, []) in
  (base, w1 ++ w2 ++ w3).

End ResolveBaseUrl.

(** *** Proofs *)

Lemma endsWith_append (s suffix : string) :
  Hmr.endsWith (s +:+ suffix) suffix = true.
Proof.
  induction s as [|a s IH].
  - rewrite append_nil_l. destruct suffix; simpl; [done|].
    by rewrite Ascii.eqb_refl, String.eqb_refl.
  - rewrite append_cons. simpl. rewrite IH. apply orb_true_r.
Qed.

Lemma startsWith_slash_append (s t : string) :
  startsWith s "/" = true → startsWith (s +:+ t) "/" = true.
Proof.
  destruct s as [|a s]; [done|]. rewrite append_cons. cbn [startsWith].
  destruct (Ascii.eqb a "/"); [|done]. intros _. by destruct (s +:+ t).
Qed.

(** X5. Whatever the base and the mode, the resolved base ends with a slash;
    a base that is no external URL is resolved to one that also starts
    with a slash (a base that starts with a dot counts as ['/']); and a
    base that already starts and ends with a slash and is not external
    is returned as it is, without a warning. *)
Theorem resolveBaseUrl_slashes
    (isExternalUrl : string → bool) (parseUrl_pathname : string → option string)
    (base : option string) (isBuild : bool) :
  let resolved := (resolveBaseUrl isExternalUrl parseUrl_pathname base isBuild).1 in
  let given := default "/" base in
  Hmr.endsWith resolved "/" = true
  ∧ (isExternalUrl (if startsWith given "." then "/" else given) = false →
     startsWith resolved "/" = true)
  ∧ (isExternalUrl given = false → startsWith given "/" = true →
     Hmr.endsWith given "/" = true →
     resolveBaseUrl isExternalUrl parseUrl_pathname base isBuild = (given, [])).
Proof.
  cbv zeta. unfold resolveBaseUrl.
  set (given := default "/" base).
  set (b1 := if startsWith given "." then "/" else given).
  assert (H1 : (if startsWith given "." then ("/", [WarnInvalidBase given])
                else (given, []))
               = (b1, if startsWith given "." then [WarnInvalidBase given]
                      else [])).
  { unfold b1. by destruct (startsWith given "."). }
  rewrite H1. clear H1.
  split; [|split].
  - destruct (isExternalUrl b1); [destruct (negb isBuild)|
                                  destruct (negb (startsWith b1 "/"))];
      match goal with
      | |- context [negb (Hmr.endsWith ?b "/")] =>
          destruct (Hmr.endsWith b "/") eqn:He; cbn [negb fst];
          [exact He | apply endsWith_append]
      end.
  - intros Hext. rewrite Hext.
    destruct (startsWith b1 "/") eqn:Hs; cbn [negb].
    + destruct (Hmr.endsWith b1 "/"); cbn [negb fst]; [done|].
      by apply startsWith_slash_append.
    + assert (Hslash : startsWith ("/" +:+ b1) "/" = true).
      { rewrite append_cons, append_nil_l. cbn [startsWith]. by destruct b1. }
      destruct (Hmr.endsWith ("/" +:+ b1) "/"); cbn [negb fst]; [done|].
      by apply startsWith_slash_append.
  - intros Hext Hs He.
    assert (Hdot : startsWith given "." = false).
    { destruct given as [|a g]; [done|]. simpl in *.
      destruct (Ascii.eqb_spec a "/") as [->|]; [done|discriminate]. }
    unfold b1. rewrite Hdot, Hext, Hs. cbn [negb]. by rewrite He.
Qed.

End BaseUrl.

(** ** Custom events on the server side of the channel (node/server/ws.ts) *)

Module WsEvents.
Import JS Payload WsServer.

(** A value produced by [JSON.parse]. *)
Inductive Json :=
| JNull
| JBool (b : bool)
| JNumber (z : Z)
| JString (s : string)
| JArray (elems : list Json)
| JObject (fields : list (string * Json)).

(** [ToBoolean] on a parsed value. *)
Definition json_truthy (v : Json) : bool :=
  match v with
  | JNull => false
  | JBool b => b
  | JNumber z => negb (z =? 0)%Z
  | JString s => negb (String.eqb s "")
  | JArray _ | JObject _ => true
  end.

(** [v[key]]: a member of an object, [None] for [undefined] (also on
    values that are no objects). *)
Definition json_get (key : string) (v : Json) : option Json :=
  match v with
  | JObject fields =>
      match list_find (λ kv, kv.1 = key) fields with
      | Some (_, kv) => Some kv.2
      | None => None
      end
  | _ => None
  end.

Definition wsServerEvents : list string :=
  ["connection"; "error"; "headers"; "listening"; "message"].

(** The listener registries: [customListeners], a map to sets kept in
    insertion order, and the listeners handed on to [wss]. *)
Record Registry := mkRegistry {
  customListeners : gmap string (list FnId);
  wssListeners : list (string * FnId)
}.

Definition empty : Registry :=
  {| customListeners := ∅; wssListeners := [] |}.

(** [set.add(fn)] *)
Definition set_add (fn : FnId) (set : list FnId) : list FnId :=
  if decide (fn ∈ set) then set else set ++ [fn].

(** [set.delete(fn)] *)
Definition set_delete (fn : FnId) (set : list FnId) : list FnId :=
  filter (λ f, f ≠ fn) set.

(** [emitter.off(event, fn)]: the listener added last is removed. *)
Fixpoint remove_last (x : string * FnId) (l : list (string * FnId))
    : list (string * FnId) :=
  match l with
  | [] => []
  | y :: rest =>
      if decide (x ∈ rest) then y :: remove_last x rest
      else if decide (y = x) then rest else y :: rest
  end.

(** [ws.on(event, fn)] *)
Definition on (event : string) (fn : FnId) (r : Registry) : Registry :=
  if decide (event ∈ wsServerEvents) then
    {| customListeners := customListeners r;
       wssListeners := wssListeners r ++ [(event, fn)] |}
  else
    {| customListeners :=
         <[event := set_add fn (default [] (customListeners r !! event))]>
           (customListeners r);
       wssListeners := wssListeners r |}.

(** [ws.off(event, fn)] *)
Definition off (event : string) (fn : FnId) (r : Registry) : Registry :=
  if decide (event ∈ wsServerEvents) then
    {| customListeners := customListeners r;
       wssListeners := remove_last (event, fn) (wssListeners r) |}
  else
    {| customListeners :=
         match customListeners r !! event with
         | Some set => <[event := set_delete fn set]> (customListeners r)
         | None => customListeners r
         end;
       wssListeners := wssListeners r |}.

(** A call [listener(parsed.data, client)]; the client wrapper of a
    socket is made once by [getSocketClient] and named by its socket. *)
Record Call := mkCall {
  listener : FnId;
  data : option Json;
  client : Socket
}.

(** The ['message'] handler of a socket; [parsed] is what
    [JSON.parse(String(raw))] gave, [None] when it threw. *)
Definition on_message (socket : Socket) (parsed : option Json) (r : Registry)
    : list Call :=
  if decide (size (customListeners r) = 0%nat) then []
  else
    match parsed with
    | None => []
    | Some parsed =>
        if negb (json_truthy parsed) then []
        else
          match json_get "type" parsed with
          | Some (JString "custom") =>
              match json_get "event" parsed with
              | Some event =>
                  if negb (json_truthy event) then []
                  else
                    match event with
                    | JString name =>
                        match customListeners r !! name with
                        | Some listeners =>
                            map (λ l, {| listener := l;
                                         data := json_get "data" parsed;
                                         client := socket |})
                                listeners
                        | None => []
                        end
                    | _ => []  (* no key of the map is not a string *)
                    end
              | None => []
              end
          | _ => []
          end
    end.

(** [on] and [off] calls on the server object. *)
Inductive Op :=
| On (event : string) (fn : FnId)
| Off (event : string) (fn : FnId).

Definition apply_op (r : Registry) (op : Op) : Registry :=
  match op with
  | On event fn => on event fn r
  | Off event fn => off event fn r
  end.

(** Whether the last [on] or [off] of [ops] for this event and function
    was an [on]. *)
Fixpoint registered (event : string) (fn : FnId) (ops : list Op) (acc : bool)
    : bool :=
  match ops with
  | [] => acc
  | On e f :: rest =>
      registered event fn rest
        (if decide (e = event ∧ f = fn) then true else acc)
  | Off e f :: rest =>
      registered event fn rest
        (if decide (e = event ∧ f = fn) then false else acc)
  end.

(** The custom event message [{type:'custom', event, data}]. *)
Definition custom_message (event : string) (d : Json) : Json :=
  JObject [("type", JString "custom"); ("event", JString event); ("data", d)].

(** *** Proofs *)

(** The set under [event], empty when there is none. *)
Definition listeners_of (event : string) (r : Registry) : list FnId :=
  default [] (customListeners r !! event).

Definition sets_nodup (r : Registry) : Prop :=
  ∀ event set, customListeners r !! event = Some set → NoDup set.

Lemma set_add_nodup fn set : NoDup set → NoDup (set_add fn set).
Proof.
  intros Hn. unfold set_add. case_decide; [done|].
  apply NoDup_app. split; [done|]. split; [|apply NoDup_singleton].
  intros x Hx Hx'. apply list_elem_of_singleton in Hx'. by subst.
Qed.

Lemma set_delete_nodup fn set : NoDup set → NoDup (set_delete fn set).
Proof. intros Hn. by apply NoDup_filter. Qed.

Lemma elem_of_set_add f fn set : f ∈ set_add fn set ↔ f = fn ∨ f ∈ set.
Proof.
  unfold set_add. case_decide.
  - split; [by right | by intros [->|?]].
  - rewrite elem_of_app, list_elem_of_singleton. tauto.
Qed.

Lemma elem_of_set_delete f fn set : f ∈ set_delete fn set ↔ f ≠ fn ∧ f ∈ set.
Proof. unfold set_delete. by rewrite list_elem_of_filter. Qed.

Lemma apply_op_nodup r op : sets_nodup r → sets_nodup (apply_op r op).
Proof.
  intros Hn. destruct op as [e f|e f]; simpl; unfold on, off;
    case_decide; try done; intros event set; simpl.
  - rewrite lookup_insert. case_decide; [|by apply Hn].
    intros [= <-]. apply set_add_nodup.
    destruct (customListeners r !! e) eqn:Hl; simpl; [by eapply Hn|].
    apply NoDup_nil_2.
  - destruct (customListeners r !! e) as [old|] eqn:Hl; [|by apply Hn].
    rewrite lookup_insert. case_decide; [|by apply Hn].
    intros [= <-]. apply set_delete_nodup. by eapply Hn.
Qed.

Lemma apply_op_reserved r op event :
  event ∈ wsServerEvents →
  customListeners r !! event = None →
  customListeners (apply_op r op) !! event = None.
Proof.
  intros Hres Hnone. destruct op as [e f|e f]; simpl; unfold on, off;
    case_decide; try done; simpl.
  - rewrite lookup_insert_ne; [done | congruence].
  - destruct (customListeners r !! e); [|done].
    rewrite lookup_insert_ne; [done | congruence].
Qed.

Lemma listeners_of_on event e f r :
  listeners_of event (on e f r)
  = if decide (e ∈ wsServerEvents) then listeners_of event r
    else if decide (e = event) then set_add f (listeners_of event r)
    else listeners_of event r.
Proof.
  unfold on, listeners_of. case_decide; [done|]. simpl.
  case_decide as He.
  - subst. by rewrite lookup_insert_eq.
  - by rewrite lookup_insert_ne.
Qed.

Lemma listeners_of_off event e f r :
  listeners_of event (off e f r)
  = if decide (e ∈ wsServerEvents) then listeners_of event r
    else if decide (e = event) then set_delete f (listeners_of event r)
    else listeners_of event r.
Proof.
  unfold off, listeners_of. case_decide; [done|]. simpl.
  case_decide as He.
  - subst. destruct (customListeners r !! event) as [old|] eqn:Hl.
    + by rewrite lookup_insert_eq.
    + by rewrite Hl.
  - destruct (customListeners r !! e); [|done]. by rewrite lookup_insert_ne.
Qed.

Lemma apply_op_listeners r op event fn :
  event ∉ wsServerEvents →
  fn ∈ listeners_of event (apply_op r op)
  ↔ registered event fn [op] (bool_decide (fn ∈ listeners_of event r)) = true.
Proof.
  intros Hev. destruct op as [e f|e f]; simpl.
  - rewrite listeners_of_on.
    destruct (decide (e ∈ wsServerEvents)) as [Hres|Hres].
    + rewrite decide_False by (intros [-> _]; done).
      symmetry. apply bool_decide_eq_true.
    + destruct (decide (e = event)) as [->|Hne].
      * rewrite elem_of_set_add. destruct (decide (f = fn)) as [->|Hf].
        -- rewrite decide_True by done. split; [done | by left].
        -- rewrite decide_False by (intros [_ ?]; done).
           rewrite bool_decide_eq_true. split; [|by right].
           intros [->|?]; done.
      * rewrite decide_False by (intros [? _]; done).
        symmetry. apply bool_decide_eq_true.
  - rewrite listeners_of_off.
    destruct (decide (e ∈ wsServerEvents)) as [Hres|Hres].
    + rewrite decide_False by (intros [-> _]; done).
      symmetry. apply bool_decide_eq_true.
    + destruct (decide (e = event)) as [->|Hne].
      * rewrite elem_of_set_delete. destruct (decide (f = fn)) as [->|Hf].
        -- rewrite decide_True by done. split; [by intros [? _] | done].
        -- rewrite decide_False by (intros [_ ?]; done).
           rewrite bool_decide_eq_true. split; [by intros [_ ?]|].
           intros Hin. split; [congruence | done].
      * rewrite decide_False by (intros [? _]; done).
        symmetry. apply bool_decide_eq_true.
Qed.

Lemma registered_cons event fn op ops acc :
  registered event fn (op :: ops) acc
  = registered event fn ops (registered event fn [op] acc).
Proof. by destruct op. Qed.

Lemma registered_ops_listeners ops r event fn :
  event ∉ wsServerEvents →
  fn ∈ listeners_of event (fold_left apply_op ops r)
  ↔ registered event fn ops (bool_decide (fn ∈ listeners_of event r)) = true.
Proof.
  intros Hev. revert r. induction ops as [|op ops IH]; intros r.
  - simpl. by rewrite bool_decide_eq_true.
  - simpl fold_left. rewrite IH, registered_cons. f_equiv. f_equal.
    pose proof (apply_op_listeners r op event fn Hev) as Hop.
    destruct (registered event fn [op] _) eqn:Hr.
    + apply bool_decide_eq_true. by apply Hop.
    + apply bool_decide_eq_false. intros Hin. apply Hop in Hin. congruence.
Qed.

Lemma json_get_custom_message event d :
  json_get "type" (custom_message event d) = Some (JString "custom")
  ∧ json_get "event" (custom_message event d) = Some (JString event)
  ∧ json_get "data" (custom_message event d) = Some d.
Proof. by vm_compute. Qed.

Lemma on_message_custom socket event d r :
  event ≠ "" →
  on_message socket (Some (custom_message event d)) r
  = map (λ l, {| listener := l; data := Some d; client := socket |})
        (listeners_of event r).
Proof.
  intros Hne. unfold on_message, listeners_of.
  case_decide as Hsize.
  - apply map_size_empty_iff in Hsize. rewrite Hsize, lookup_empty. done.
  - destruct (json_get_custom_message event d) as (-> & -> & ->).
    assert (Ht : json_truthy (JString event) = true).
    { simpl. apply negb_true_iff. by apply String.eqb_neq. }
    rewrite Ht. cbn [negb json_truthy custom_message].
    by destruct (customListeners r !! event).
Qed.

(** X6. A listener of a custom event is called for a message of that event
    exactly when its latest [on] or [off] for the event was an [on], and
    then once, however often it was added; every call passes the
    message's data and the wrapper of the socket the message came from. *)
Theorem custom_listener_called_iff_registered
    (ops : list Op) (event : string) (fn : FnId) (socket : Socket) (d : Json) :
  event ∉ wsServerEvents →
  event ≠ "" →
  let calls :=
    on_message socket (Some (custom_message event d))
               (fold_left apply_op ops empty) in
  (mkCall fn (Some d) socket ∈ calls ↔ registered event fn ops false = true)
  ∧ NoDup calls
  ∧ (∀ c, c ∈ calls → data c = Some d ∧ client c = socket).
Proof.
  intros Hev Hne calls. unfold calls. rewrite on_message_custom by done.
  assert (Hnd : sets_nodup (fold_left apply_op ops empty)).
  { assert (H0 : sets_nodup empty)
      by (intros e s Hs; simpl in Hs; by rewrite lookup_empty in Hs).
    revert H0. generalize empty. induction ops as [|op ops IH]; intros r Hr;
      [done|]. simpl. apply IH. by apply apply_op_nodup. }
  split; [|split].
  - rewrite <- (registered_ops_listeners ops empty event fn Hev).
    rewrite list_elem_of_fmap. split.
    + by intros (l & [= ->] & Hl).
    + intros Hl. by exists fn.
  - assert (Hinj : Inj (=) (=) (λ l : FnId, mkCall l (Some d) socket))
      by (intros x y Hxy; by injection Hxy).
    apply (NoDup_fmap_2 _). unfold listeners_of.
    destruct (customListeners _ !! event) eqn:Hl; simpl; [by eapply Hnd|].
    apply NoDup_nil_2.
  - intros c (l & -> & _)%list_elem_of_fmap. done.
Qed.

Lemma custom_listener_called_iff_registered_witness :
  mkCall 7 (Some (JNumber 1)) 3
  ∈ on_message 3 (Some (custom_message "my:event" (JNumber 1)))
               (fold_left apply_op
                  [On "my:event" 7; On "my:event" 8; Off "my:event" 7;
                   On "my:event" 7; Off "my:event" 8] empty).
Proof.
  assert (H1 : "my:event" ∉ wsServerEvents).
  { intros H. unfold wsServerEvents in H.
    repeat (apply elem_of_cons in H as [H|H]; [discriminate|]).
    by apply elem_of_nil in H. }
  assert (H2 : "my:event" ≠ "") by done.
  apply (proj1 (custom_listener_called_iff_registered
                  [On "my:event" 7; On "my:event" 8; Off "my:event" 7;
                   On "my:event" 7; Off "my:event" 8]
                  "my:event" 7 3 (JNumber 1) H1 H2)).
  reflexivity.
Defined.

(** X7. What never reaches a listener: a message that could not be parsed
    or is no custom event, a custom event without a name, and a custom
    event named like one of the server's own events, whatever was
    registered with [on] under that name. *)
Theorem reserved_and_malformed_messages_call_nothing
    (ops : list Op) (socket : Socket) :
  let r := fold_left apply_op ops empty in
  on_message socket None r = []
  ∧ (∀ parsed, json_get "type" parsed ≠ Some (JString "custom") →
               on_message socket (Some parsed) r = [])
  ∧ (∀ d, on_message socket (Some (custom_message "" d)) r = [])
  ∧ (∀ event d, event ∈ wsServerEvents →
                on_message socket (Some (custom_message event d)) r = []).
Proof.
  cbv zeta. split; [|split; [|split]].
  - unfold on_message. by case_decide.
  - intros parsed Ht. unfold on_message. case_decide; [done|].
    destruct (json_truthy parsed); [|done]. simpl.
    destruct (json_get "type" parsed) as [[| | |s| |]|]; try done.
    destruct (decide (s = "custom")) as [->|Hs]; [done|].
    destruct s as [|a s]; [done|].
    repeat (match goal with
            | |- context [match ?x with _ => _ end] => destruct x; try done
            end).
  - intros d. unfold on_message. by case_decide.
  - intros event d Hres.
    assert (Hnone : customListeners (fold_left apply_op ops empty) !! event
                    = None).
    { assert (H0 : customListeners empty !! event = None)
        by apply lookup_empty.
      revert H0. generalize empty.
      induction ops as [|op ops IH]; intros r Hr; [done|].
      simpl. apply IH. by apply apply_op_reserved. }
    unfold on_message. case_decide; [done|].
    destruct (json_get_custom_message event d) as (-> & -> & ->).
    cbn [negb json_truthy custom_message].
    destruct (String.eqb event ""); cbn [negb]; [done|].
    by rewrite Hnone.
Qed.

End WsEvents.

(** ** Broadcasting on the server side (node/server/ws.ts) *)

Module WsBroadcast.
Import Payload WsServer.

Lemma clients_nodup_step st ev : NoDup (clients st) → NoDup (clients (step st ev)).
Proof.
  intros Hn. destruct ev as [args|s|s|s]; simpl.
  - rewrite send_spec. by destruct (_ && _).
  - unfold accept_connection, on_connection. simpl.
    assert (Hn' : NoDup (if decide (s ∈ clients st) then clients st
                         else clients st ++ [s])).
    { case_decide; [done|]. apply NoDup_app. split; [done|].
      split; [|apply NoDup_singleton].
      intros x Hx Hx'. apply list_elem_of_singleton in Hx'. by subst. }
    by destruct (bufferedError st).
  - done.
  - by apply NoDup_filter.
Qed.

Lemma clients_nodup_run evs : NoDup (clients (run evs init)).
Proof.
  assert (H : ∀ st, NoDup (clients st) → NoDup (clients (run evs st))).
  { induction evs as [|ev evs IH]; intros st Hn; [done|].
    apply IH. by apply clients_nodup_step. }
  apply H. apply NoDup_nil_2.
Qed.

Lemma frames_to_broadcast_once s payload (cs : list Socket) :
  NoDup cs → s ∈ cs →
  frames_to s ((λ c, (c, payload)) <$> cs) = [payload].
Proof.
  induction cs as [|c cs IH]; intros Hn Hs; [by apply elem_of_nil in Hs|].
  apply NoDup_cons in Hn as [Hc Hn]. rewrite fmap_cons, frames_to_cons.
  case_decide as Hd.
  - subst. by rewrite frames_to_broadcast.
  - apply elem_of_cons in Hs as [->|Hs]; [done|]. by apply IH.
Qed.

(** X8. In every state the server can reach, a [send] that is not buffered
    (the payload is no error, or some client is tracked) writes the
    payload once to each tracked client whose socket is open, in the
    order of [wss.clients], and to no other socket; the buffer and the
    clients stay as they are.  In particular an error payload sent while
    clients are tracked but none is open is neither sent nor buffered. *)
Theorem send_reaches_exactly_the_open_clients
    (evs : list Event) (args : SendArgs) :
  let st := run evs init in
  let st' := send args st in
  let is_open s := readyState st !! s = Some OPEN in
  (is_error (payload_of args) = false ∨ clients st ≠ []) →
  sent st' = sent st
             ++ ((λ c, (c, payload_of args)) <$> filter is_open (clients st))
  ∧ bufferedError st' = bufferedError st
  ∧ clients st' = clients st
  ∧ (∀ s, s ∈ clients st → is_open s →
          sent_to s st' = sent_to s st ++ [payload_of args])
  ∧ (∀ s, s ∉ clients st ∨ ¬ is_open s → sent_to s st' = sent_to s st)
  ∧ ((∀ s, s ∈ clients st → ¬ is_open s) → st' = st).
Proof.
  cbv zeta. set (st := run evs init). intros Hbranch.
  assert (Hnd : NoDup (clients st)) by apply clients_nodup_run.
  assert (Hcond : is_error (payload_of args)
                  && (length (clients st) =? 0)%nat = false).
  { destruct Hbranch as [->|Hne]; [done|].
    apply andb_false_iff. right. apply Nat.eqb_neq.
    intros Hlen. apply Hne. by apply length_zero_iff_nil. }
  rewrite send_spec, Hcond. simpl.
  split; [done|]. split; [done|]. split; [done|]. split; [|split].
  - intros s Hs Hopen. unfold sent_to. simpl. rewrite frames_to_app.
    f_equal. apply frames_to_broadcast_once.
    + by apply NoDup_filter.
    + by apply list_elem_of_filter.
  - intros s Hs. unfold sent_to. simpl.
    rewrite frames_to_app, frames_to_broadcast, app_nil_r; [done|].
    intros [Ho Hin]%list_elem_of_filter. destruct Hs as [Hs|Hs]; done.
  - intros Hnone.
    assert (Hnil : filter (λ c, readyState st !! c = Some OPEN) (clients st)
                   = []).
    { revert Hnone. generalize (clients st). intros cs Hnone.
      induction cs as [|c cs IH]; [done|].
      rewrite filter_cons. case_decide as Hc.
      - destruct (Hnone c); [by left | done].
      - apply IH. intros s Hs. apply Hnone. by right. }
    rewrite Hnil. simpl. rewrite app_nil_r. by destruct st.
Qed.

Lemma send_reaches_exactly_the_open_clients_witness :
  let evs := [EvConnection 1; EvConnection 2; EvClosing 1] in
  sent_to 2 (send (SendPayload (FullReload None)) (run evs init))
  = [Connected; FullReload None]
  ∧ sent_to 1 (send (SendPayload (FullReload None)) (run evs init))
    = [Connected].
Proof.
  cbv zeta.
  pose proof (send_reaches_exactly_the_open_clients
                [EvConnection 1; EvConnection 2; EvClosing 1]
                (SendPayload (FullReload None)) (or_introl eq_refl))
    as (_ & _ & _ & Hopen & Hother & _).
  split.
  - rewrite Hopen; [done | by vm_compute; right; left | done].
  - rewrite Hother; [done|]. right. by vm_compute.
Defined.

End WsBroadcast.

(** ** Events, pruning and updates across registrations
       (client/client.ts) *)

Module Registrations.
Import JS Payload Client Url Hmr.

(** What [handleMessage] does for ['custom'] and ['prune'] payloads. *)
Inductive Act :=
| ActListener (cb : FnId) (data : Value)
    (* [cb(data)] from [notifyListeners(payload.event, payload.data)] *)
| ActNotify (cb : FnId) (payload : HMRPayload)
    (* [cb(payload)] from [notifyListeners('vite:...', payload)] *)
| ActPrune (fn : FnId) (data : option Loc).
    (* [fn(dataMap.get(path))] *)

(** The ['custom'] case: [notifyListeners(payload.event, payload.data)]. *)
Definition handle_custom (event : string) (data : Value) (st : State)
    : list Act :=
  match customListenersMap st !! event with
  | Some cbs => map (λ cb, ActListener cb data) cbs
  | None => []
  end.

(** The ['prune'] case; the callbacks are taken to return normally. *)
Definition handle_prune (paths : list string) (st : State) : list Act :=
  match customListenersMap st !! "vite:beforePrune" with
  | Some cbs => map (λ cb, ActNotify cb (Prune paths)) cbs
  | None => []
  end
  ++ omap (λ path, (λ fn, ActPrune fn (dataMap st !! path))
                   <$> pruneMap st !! path)
          paths.

(** The functions the current context of [path] registered for
    [event]. *)
Definition stale_listeners (path event : string) (st : State) : list FnId :=
  default [] (l ← ctxToListenersMap st !! path;
              m ← listenerMaps st !! l;
              m !! event).

(** *** Proofs *)

Lemma register_customListeners_mono hot st r event cb :
  cb ∈ default [] (customListenersMap st !! event) →
  cb ∈ default [] (customListenersMap (register hot st r) !! event).
Proof.
  intros Hin. destruct r as [d c|c|f|f|e c]; simpl; try done.
  - unfold hot_accept.
    destruct (is_function d || negb (truthy d)); [done|].
    destruct (is_string d); [done|]. by destruct d.
  - unfold addToMap. destruct (decide (e = event)) as [->|Hne].
    + rewrite lookup_insert_eq. simpl. apply elem_of_app. by left.
    + by rewrite lookup_insert_ne.
Qed.

Lemma handle_custom_elem cb data event st :
  ActListener cb data ∈ handle_custom event data st
  ↔ cb ∈ default [] (customListenersMap st !! event).
Proof.
  unfold handle_custom. destruct (customListenersMap st !! event); simpl.
  - rewrite list_elem_of_fmap. split.
    + by intros (x & [= <-] & ?).
    + intros ?. by exists cb.
  - split; by intros ?%elem_of_nil.
Qed.

Lemma remove_stale_nil (listeners : list FnId) :
  remove_stale [] listeners = listeners.
Proof.
  unfold remove_stale. induction listeners as [|l ls IH]; [done|].
  rewrite filter_cons. rewrite decide_True by apply not_elem_of_nil.
  by rewrite IH.
Qed.

(** The listeners of an event after a context was created. *)
Lemma createHotContext_customListeners path st event :
  customListenersMap (createHotContext path st).2 !! event
  = remove_stale (stale_listeners path event st)
    <$> customListenersMap st !! event.
Proof.
  unfold createHotContext, stale_listeners.
  assert (Hclm : (match ctxToListenersMap st !! path with
                  | Some l => clear_stale (default ∅ (listenerMaps st !! l))
                                          (customListenersMap st)
                  | None => customListenersMap st
                  end) !! event
                 = remove_stale
                     (default [] (l ← ctxToListenersMap st !! path;
                                  m ← listenerMaps st !! l;
                                  m !! event))
                   <$> customListenersMap st !! event).
  { destruct (ctxToListenersMap st !! path) as [l|]; simpl.
    - rewrite clear_stale_lookup.
      destruct (listenerMaps st !! l) as [m|]; simpl.
      + destruct (m !! event); simpl; [done|].
        destruct (customListenersMap st !! event); simpl; [|done].
        by rewrite remove_stale_nil.
      + rewrite lookup_empty.
        destruct (customListenersMap st !! event); simpl; [|done].
        by rewrite remove_stale_nil.
    - destruct (customListenersMap st !! event); simpl; [|done].
      by rewrite remove_stale_nil. }
  by destruct (dataMap st !! path).
Qed.

(** A function stays under its event as long as no context is created
    whose module had it registered for the event. *)
Lemma ops_keep_listener event cb ops : ∀ s,
  cb ∈ default [] (customListenersMap (registry s) !! event) →
  (∀ before q after,
     ops = before ++ OpCreate q :: after →
     cb ∉ stale_listeners q event (registry (fold_left op_step before s))) →
  cb ∈ default [] (customListenersMap
                     (registry (fold_left op_step ops s)) !! event).
Proof.
  induction ops as [|op ops IH]; intros s Hin Hkeep; [done|].
  simpl. apply IH.
  - destruct op as [q|j r]; simpl.
    + rewrite createHotContext_customListeners.
      destruct (customListenersMap (registry s) !! event) as [ls|];
        simpl in *; [|done].
      unfold remove_stale. apply list_elem_of_filter. split; [|done].
      by apply (Hkeep [] q ops).
    + destruct (contexts s !! j); [|done]. simpl.
      by apply register_customListeners_mono.
  - intros before q after ->.
    by apply (Hkeep (op :: before) q after).
Qed.

(** X9. A function registered with [hot.on] for an event, through any
    context of a session, is called with the data of every custom
    payload of that event as long as no context is created whose
    module's context on record had registered the same function for the
    event; such a creation takes the function from the listeners of the
    event, whoever registered it.  The context of its own module is one
    of these when the function was registered through the context on
    record for the module and none was created for the module since. *)
Theorem custom_listener_called_until_recreation
    (ops1 ops2 : list Op) (i : nat) (hot : HotContext)
    (event : string) (cb : FnId) (data : Value) :
  contexts (session ops1) !! i = Some hot →
  let during before :=
    registry (session (ops1 ++ OpRegister i (RegOn event cb) :: before)) in
  ((∀ before q after,
      ops2 = before ++ OpCreate q :: after →
      cb ∉ stale_listeners q event (during before)) →
   ActListener cb data ∈ handle_custom event data (during ops2))
  ∧ (∀ q, cb ∈ stale_listeners q event (during ops2) →
          ActListener cb data
          ∉ handle_custom event data (createHotContext q (during ops2)).2)
  ∧ (ctxToListenersMap (registry (session ops1)) !! ownerPath hot
     = Some (newListeners hot) →
     OpCreate (ownerPath hot) ∉ ops2 →
     cb ∈ stale_listeners (ownerPath hot) event (during ops2)).
Proof.
  intros Hi during.
  set (s1 := op_step (session ops1) (OpRegister i (RegOn event cb))).
  assert (Hduring : ∀ before,
            during before = registry (fold_left op_step before s1)).
  { intros before. unfold during. by rewrite session_app. }
  assert (Hfresh : fresh (session ops1)).
  { unfold session. apply fresh_ops, fresh_start. }
  split; [|split].
  - intros Hkeep. apply handle_custom_elem. rewrite Hduring.
    apply ops_keep_listener.
    + unfold s1. simpl. rewrite Hi. simpl. unfold addToMap.
      rewrite lookup_insert_eq. simpl. apply elem_of_app. right. by left.
    + intros before q after Hops. rewrite <- Hduring.
      by apply (Hkeep before q after).
  - intros q Hstale. rewrite handle_custom_elem.
    rewrite createHotContext_customListeners.
    destruct (customListenersMap (during ops2) !! event); simpl.
    + by apply not_elem_of_remove_stale.
    + apply not_elem_of_nil.
  - intros Hcur Hno.
    assert (Hl : listening hot event cb (during ops2)).
    { unfold during. rewrite session_app.
      apply (ops_registered_listening _ _ i); [done | done | by left]. }
    destruct Hl as (m & fns & Hm & Hfns & Hcb).
    assert (Hctx : ctxToListenersMap (during ops2) !! ownerPath hot
                   = Some (newListeners hot)).
    { rewrite Hduring, ops_ctxToListenersMap by done.
      unfold s1. simpl. by rewrite Hi. }
    unfold stale_listeners. rewrite Hctx. simpl. rewrite Hm. simpl.
    by rewrite Hfns.
Qed.

Lemma custom_listener_called_until_recreation_witness :
  let st := registry (session ([OpCreate "/src/a.js"]
                               ++ OpRegister 0 (RegOn "my:event" 9)
                                  :: [OpCreate "/src/b.js"])) in
  ActListener 9 (VNumber 1) ∈ handle_custom "my:event" (VNumber 1) st
  ∧ ActListener 9 (VNumber 1)
    ∉ handle_custom "my:event" (VNumber 1) (createHotContext "/src/a.js" st).2.
Proof.
  cbv zeta.
  destruct (custom_listener_called_until_recreation
              [OpCreate "/src/a.js"] [OpCreate "/src/b.js"] 0
              (createHotContext "/src/a.js" init).1
              "my:event" 9 (VNumber 1) eq_refl)
    as (Hcalled & Hgone & Hown).
  split.
  - apply Hcalled. intros before q after Hops.
    destruct before as [|op before].
    + injection Hops as <- <-.
      assert (Hnone : stale_listeners "/src/b.js" "my:event"
                (registry (session ([OpCreate "/src/a.js"]
                                    ++ [OpRegister 0 (RegOn "my:event" 9)])))
              = []) by reflexivity.
      rewrite Hnone. apply not_elem_of_nil.
    + injection Hops as _ Hops. by destruct before.
  - apply (Hgone "/src/a.js"). apply Hown; [reflexivity|].
    intros H. apply elem_of_cons in H as [H|H]; [discriminate H|].
    by apply elem_of_nil in H.
Defined.


(** X11. A prune callback registered with [hot.prune] is called, with the
    module's data object, whenever a prune payload lists the module, also
    after the module's context has been created again; the only
    functions a prune payload calls besides the listeners of
    [vite:beforePrune] are the prune callbacks of the listed paths, so
    no dispose callback runs and a listed path without a prune callback
    is passed over. *)
Theorem prune_calls_registered_prune_callbacks
    (path : string) (cb : FnId) (paths : list string) (st : State) :
  path ∈ paths →
  let hot := (createHotContext path st).1 in
  let st1 := hot_prune hot cb (createHotContext path st).2 in
  let st2 := (createHotContext path st1).2 in
  ActPrune cb (hot_data hot st1) ∈ handle_prune paths st1
  ∧ ActPrune cb (hot_data hot st1) ∈ handle_prune paths st2
  ∧ (∀ s fn d, ActPrune fn d ∈ handle_prune paths s →
               ∃ p, p ∈ paths ∧ pruneMap s !! p = Some fn
                    ∧ d = dataMap s !! p)
  ∧ (∀ s, (∀ p, p ∈ paths → pruneMap s !! p = None) →
          ∀ fn d, ActPrune fn d ∉ handle_prune paths s).
Proof.
  intros Hin. cbv zeta.
  assert (Hown : ownerPath (createHotContext path st).1 = path)
    by apply createHotContext_ownerPath.
  assert (Hcall : ∀ s fn,
            pruneMap s !! path = Some fn →
            ActPrune fn (dataMap s !! path) ∈ handle_prune paths s).
  { intros s fn Hfn. unfold handle_prune. apply elem_of_app. right.
    apply list_elem_of_omap. exists path. split; [done|]. by rewrite Hfn. }
  assert (Hfrom : ∀ s fn d, ActPrune fn d ∈ handle_prune paths s →
            ∃ p, p ∈ paths ∧ pruneMap s !! p = Some fn ∧ d = dataMap s !! p).
  { intros s fn d. unfold handle_prune. rewrite elem_of_app.
    intros [Hl|Hp].
    - destruct (customListenersMap s !! "vite:beforePrune"); simpl in Hl.
      + apply list_elem_of_fmap in Hl as (x & Hx & _). discriminate.
      + by apply elem_of_nil in Hl.
    - apply list_elem_of_omap in Hp as (p & Hp & Hf).
      destruct (pruneMap s !! p) as [f|] eqn:Hpm; [|done].
      simpl in Hf. injection Hf as <- <-. by exists p. }
  split; [|split; [|split]].
  - unfold hot_data. rewrite Hown.
    apply (Hcall (hot_prune _ cb _)). simpl. by rewrite Hown, lookup_insert_eq.
  - set (st1 := hot_prune _ cb _).
    assert (Hdm : ∃ l, dataMap st1 !! path = Some l).
    { unfold st1, hot_prune, createHotContext. simpl.
      destruct (dataMap st !! path) as [l|] eqn:Hl; simpl; [by eexists|].
      rewrite lookup_insert_eq. by eexists. }
    destruct Hdm as [l Hl].
    assert (Hkeep : dataMap (createHotContext path st1).2 = dataMap st1
                    ∧ pruneMap (createHotContext path st1).2 = pruneMap st1).
    { unfold createHotContext. by rewrite Hl. }
    destruct Hkeep as [Hk1 Hk2].
    unfold hot_data. rewrite Hown, <- Hk1. apply Hcall.
    rewrite Hk2. unfold st1. simpl. by rewrite Hown, lookup_insert_eq.
  - exact Hfrom.
  - intros s Hnone fn d Hact.
    destruct (Hfrom s fn d Hact) as (p & Hp & Hfn & _).
    by rewrite (Hnone p Hp) in Hfn.
Qed.

Lemma prune_calls_registered_prune_callbacks_witness :
  let hot := (createHotContext "/src/a.js" init).1 in
  let st1 := hot_prune hot 8 (createHotContext "/src/a.js" init).2 in
  handle_prune ["/src/b.js"; "/src/a.js"] st1 = [ActPrune 8 (Some 0)].
Proof.
  cbv zeta.
  pose proof (prune_calls_registered_prune_callbacks "/src/a.js" 8
                ["/src/b.js"; "/src/a.js"] init) as H.
  assert (Hin : "/src/a.js" ∈ ["/src/b.js"; "/src/a.js"]) by (right; by left).
  specialize (H Hin). by vm_compute.
Defined.

(** X12. Only the disposer registered last for a module runs, and it outlives
    the context: after [hot.dispose(first)], [hot.dispose(last)] and a
    new context for the module, a self-update of the module awaits
    [last] with the module's data object, imports the module, and calls
    no accept callback, the list having been reset. *)
Theorem latest_disposer_runs_after_recreation
    (cfg : Config) (importer : string → option ModuleNamespace)
    (returns : nat → bool)
    (st : State) (hot : HotContext) (first last : FnId) (u : Update) :
  is_Some (hotModulesMap st !! ownerPath hot) →
  is_Some (dataMap st !! ownerPath hot) →
  path u = ownerPath hot →
  acceptedPath u = ownerPath hot →
  let st1 := hot_dispose hot last (hot_dispose hot first st) in
  let st2 := (createHotContext (ownerPath hot) st1).2 in
  apply_js_update cfg importer returns st2 u
  = [EffDispose last (dataMap st !! ownerPath hot);
     EffImport (import_url cfg u)]
    ++ match importer (import_url cfg u) with
       | Some _ => []
       | None => [EffWarnFailedFetch (ownerPath hot)]
       end.
Proof.
  intros [hmod Hmod] [l Hl] Hp Ha. cbv zeta.
  unfold apply_js_update, fetchUpdate, createHotContext. simpl.
  rewrite Hl. simpl. rewrite Hp, Ha, Hmod. simpl.
  rewrite !lookup_insert_eq. simpl. rewrite String.eqb_refl. simpl.
  rewrite Hl.
  by destruct (importer (import_url cfg u)).
Qed.

Lemma latest_disposer_runs_after_recreation_witness :
  let cfg := mkConfig "/" "localhost:5173/" None None None "localhost:5173/" "/" in
  let hot := (createHotContext "/src/a.js" init).1 in
  let st := acceptDeps "/src/a.js" [VString "/src/a.js"]
              (FnSelfAccept (VFunction 3))
              (createHotContext "/src/a.js" init).2 in
  apply_js_update cfg (λ _, Some 42) (λ _, true)
    (createHotContext "/src/a.js"
       (hot_dispose hot 6 (hot_dispose hot 5 st))).2
    (mkUpdate JsUpdate "/src/a.js" "/src/a.js" 17 None)
  = [EffDispose 6 (Some 0); EffImport "/src/a.js?t=17"].
Proof.
  cbv zeta.
  refine (eq_trans
            (latest_disposer_runs_after_recreation _ _ _ _
               (createHotContext "/src/a.js" init).1 5 6
               (mkUpdate JsUpdate "/src/a.js" "/src/a.js" 17 None)
               _ _ _ _) _).
  - vm_compute. by eexists.
  - vm_compute. by eexists.
  - by vm_compute.
  - by vm_compute.
  - by vm_compute.
Defined.

(** X13. An update leads to an import exactly when its [path] has a hot
    module and the update is a self-update or one of the module's
    callbacks lists [acceptedPath]; otherwise it has no effect at all
    (no disposer, no import, no callback). *)
Theorem import_exactly_when_accepted
    (cfg : Config) (importer : string → option ModuleNamespace)
    (returns : nat → bool) (st : State) (u : Update) :
  let accepted :=
    ∃ hmod, hotModulesMap st !! path u = Some hmod
            ∧ (path u = acceptedPath u
               ∨ ∃ cb, cb ∈ callbacks hmod
                       ∧ VString (acceptedPath u) ∈ deps cb) in
  (EffImport (import_url cfg u) ∈ apply_js_update cfg importer returns st u
   ↔ accepted)
  ∧ (¬ accepted → apply_js_update cfg importer returns st u = []).
Proof.
  cbv zeta.
  assert (Hno : ¬ (∃ hmod, hotModulesMap st !! path u = Some hmod
                    ∧ (path u = acceptedPath u
                       ∨ ∃ cb, cb ∈ callbacks hmod
                               ∧ VString (acceptedPath u) ∈ deps cb)) →
                apply_js_update cfg importer returns st u = []).
  { intros Hn. destruct (hotModulesMap st !! path u) as [hmod|] eqn:Hmod.
    - apply (js_update_without_acceptor cfg importer returns st u hmod Hmod).
      + intros Heq. apply Hn. exists hmod. split; [done | by left].
      + intros cb Hcb Hdep. apply Hn. exists hmod. split; [done|].
        right. by exists cb.
    - unfold apply_js_update, fetchUpdate. by rewrite Hmod. }
  split; [|done]. split.
  - intros Hin.
    destruct (hotModulesMap st !! path u) as [hmod|] eqn:Hmod.
    + destruct (decide (path u = acceptedPath u)) as [Heq|Hne].
      * exists hmod. split; [done | by left].
      * destruct (filter (λ cb, includes_path (deps cb) (acceptedPath u) = true)
                         (callbacks hmod)) as [|cb cbs] eqn:Hf.
        -- exfalso. unfold apply_js_update, fetchUpdate in Hin.
           rewrite Hmod, Hf in Hin. apply String.eqb_neq in Hne.
           rewrite Hne in Hin. simpl in Hin. by apply elem_of_nil in Hin.
        -- exists hmod. split; [done|]. right. exists cb.
           assert (Hcb : cb ∈ filter (λ cb, includes_path (deps cb)
                                             (acceptedPath u) = true)
                                     (callbacks hmod))
             by (rewrite Hf; by left).
           apply list_elem_of_filter in Hcb as [Hinc Hcb].
           split; [done|]. by apply includes_path_spec.
    + unfold apply_js_update, fetchUpdate in Hin. rewrite Hmod in Hin.
      by apply elem_of_nil in Hin.
  - intros (hmod & Hmod & Hcond).
    unfold apply_js_update, fetchUpdate. rewrite Hmod.
    assert (Hgo :
      String.eqb (path u) (acceptedPath u)
      || (0 <? length (filter (λ cb, includes_path (deps cb) (acceptedPath u)
                                    = true) (callbacks hmod)))%nat = true).
    { destruct Hcond as [Heq|(cb & Hin & Hdep)].
      - apply orb_true_iff. left. by apply String.eqb_eq.
      - apply orb_true_iff. right. apply Nat.ltb_lt.
        assert (Hcb : cb ∈ filter (λ cb, includes_path (deps cb)
                                          (acceptedPath u) = true)
                                  (callbacks hmod)).
        { apply list_elem_of_filter. split; [|done].
          by apply includes_path_spec. }
        destruct (filter _ (callbacks hmod)); [by apply elem_of_nil in Hcb|].
        simpl. lia. }
    rewrite Hgo.
    destruct (importer (import_url cfg u)); simpl;
      rewrite !elem_of_app; left; right; by left.
Qed.

(** X14. The specifier that is imported keeps the query of [acceptedPath]
    behind the timestamp: for [path?query] it is
    [base + path.slice(1) + ?[import&]t=<timestamp>&query], without the
    [&query] when the query is empty, and whatever follows a second [?]
    in [acceptedPath] is not part of it. *)
Theorem import_url_keeps_first_query
    (cfg : Config) (ty : UpdateType) (owner p q : string)
    (tail : option string) (ts : N) (explicit : option bool) :
  includes_char "?" p = false →
  includes_char "?" q = false →
  import_url cfg
    (mkUpdate ty owner
       (p +:+ "?" +:+ q
        +:+ match tail with Some r => "?" +:+ r | None => "" end)
       ts explicit)
  = base cfg +:+ slice1 p +:+ "?"
    +:+ (if default false explicit then "import&" else "")
    +:+ "t=" +:+ pretty ts
    +:+ (if String.eqb q "" then "" else "&" +:+ q).
Proof.
  intros Hp Hq. unfold import_url. cbn [acceptedPath timestamp
                                        explicitImportRequired].
  change (p +:+ "?" +:+ q
          +:+ match tail with Some r => "?" +:+ r | None => "" end)
    with (p +:+ String "?" (q +:+ match tail with
                                  | Some r => "?" +:+ r
                                  | None => ""
                                  end)).
  rewrite split_char_app by done.
  assert (Hrest : ∃ more,
            split_char "?" (q +:+ match tail with
                                  | Some r => "?" +:+ r
                                  | None => ""
                                  end) = q :: more).
  { destruct tail as [r|].
    - exists (split_char "?" r).
      change ("?" +:+ r) with (String "?" r). by apply split_char_app.
    - exists []. rewrite append_nil_r. by apply split_char_absent. }
  destruct Hrest as [more ->]. done.
Qed.

Lemma import_url_keeps_first_query_witness :
  import_url
    (mkConfig "/" "localhost:5173/" None None None "localhost:5173/" "/")
    (mkUpdate JsUpdate "/src/App.vue"
       "/src/App.vue?vue&type=style?ignored" 17 (Some true))
  = "/src/App.vue?import&t=17&vue&type=style".
Proof.
  exact (import_url_keeps_first_query
           (mkConfig "/" "localhost:5173/" None None None "localhost:5173/" "/")
           JsUpdate "/src/App.vue" "/src/App.vue" "vue&type=style"
           (Some "ignored") 17 (Some true) eq_refl eq_refl).
Defined.



End Registrations.

(** ** The client's outgoing buffer (client/client.ts) *)

Module Outbox.
Import JS.

(** What is handed to [socket.send]: the text of a custom event, or the
    keep-alive ping. *)
Inductive Frame :=
| FrameCustom (event : string) (data : Value)
    (* [JSON.stringify({ type: 'custom', event, data })] *)
| FramePing.
    (* ['{"type":"ping"}'] *)

(** [messageBuffer] and the frames sent through [socket] so far, oldest
    first. *)
Record State := mkState {
  messageBuffer : list Frame;
  wire : list Frame
}.

Definition init : State := {| messageBuffer := []; wire := [] |}.

(** [sendMessageBuffer()], with [socket.readyState] as it is then. *)
Definition sendMessageBuffer (readyState : nat) (st : State) : State :=
  if (readyState =? 1)%nat then
    {| messageBuffer := []; wire := wire st ++ messageBuffer st |}
  else st.

(** [hot.send(event, data)] *)
Definition hot_send (event : string) (data : Value) (readyState : nat)
    (st : State) : State :=
  sendMessageBuffer readyState
    {| messageBuffer := messageBuffer st ++ [FrameCustom event data];
       wire := wire st |}.

(** One tick of the interval started on ['connected']. *)
Definition ping (readyState : nat) (st : State) : State :=
  if (readyState =? 1)%nat then
    {| messageBuffer := messageBuffer st; wire := wire st ++ [FramePing] |}
  else st.

(** What happens to the buffer; each event carries the [readyState] of
    the socket at that moment. *)
Inductive Event :=
| EvHotSend (event : string) (data : Value) (readyState : nat)
| EvConnected (readyState : nat)   (* [handleMessage] of ['connected'] *)
| EvPing (readyState : nat).

Definition step (st : State) (ev : Event) : State :=
  match ev with
  | EvHotSend event data readyState => hot_send event data readyState st
  | EvConnected readyState => sendMessageBuffer readyState st
  | EvPing readyState => ping readyState st
  end.

Definition run (evs : list Event) : State := fold_left step evs init.

(** The custom event frames [hot.send] was asked to send, in order. *)
Definition requested (evs : list Event) : list Frame :=
  omap (λ ev, match ev with
              | EvHotSend event data _ => Some (FrameCustom event data)
              | _ => None
              end) evs.

Definition is_custom (f : Frame) : Prop :=
  match f with FrameCustom _ _ => True | FramePing => False end.

#[global] Instance is_custom_dec f : Decision (is_custom f).
Proof. destruct f; simpl; apply _. Defined.

(** *** Proofs *)

Lemma buffer_invariant_step st ev sent_so_far :
  filter is_custom (wire st) ++ messageBuffer st = sent_so_far →
  Forall is_custom (messageBuffer st) →
  filter is_custom (wire (step st ev)) ++ messageBuffer (step st ev)
  = sent_so_far ++ requested [ev]
  ∧ Forall is_custom (messageBuffer (step st ev)).
Proof.
  intros Hinv Hall.
  assert (Hfilter : ∀ l : list Frame, Forall is_custom l →
                      filter is_custom l = l).
  { intros l Hl. induction Hl as [|x l Hx _ IH]; [done|].
    rewrite filter_cons, decide_True by done. by rewrite IH. }
  destruct ev as [event data rs|rs|rs]; simpl;
    unfold hot_send, sendMessageBuffer, ping; simpl.
  - destruct (rs =? 1)%nat; simpl.
    + rewrite filter_app, app_nil_r, <- Hinv.
      rewrite (Hfilter (messageBuffer st ++ _)).
      * by rewrite app_assoc.
      * apply Forall_app. split; [done|]. by repeat constructor.
    + rewrite <- Hinv, app_assoc. split; [done|].
      apply Forall_app. split; [done|]. by repeat constructor.
  - destruct (rs =? 1)%nat; simpl.
    + rewrite filter_app, !app_nil_r, (Hfilter _ Hall). by rewrite Hinv.
    + by rewrite app_nil_r.
  - destruct (rs =? 1)%nat; simpl.
    + rewrite filter_app, !app_nil_r. done.
    + by rewrite app_nil_r.
Qed.

(** X16. Nothing given to [hot.send] is lost, repeated or reordered: at any
    moment the custom frames already sent, followed by the frames still
    in [messageBuffer], are the frames [hot.send] was given, in the
    order of the calls; and the buffer is empty right after a
    [hot.send] or a ['connected'] message that found the socket open. *)
Theorem message_buffer_keeps_every_frame (evs : list Event) :
  filter is_custom (wire (run evs)) ++ messageBuffer (run evs) = requested evs
  ∧ (∀ event data, messageBuffer (step (run evs) (EvHotSend event data 1)) = [])
  ∧ messageBuffer (step (run evs) (EvConnected 1)) = [].
Proof.
  split; [|done].
  assert (H : ∀ st sent_so_far,
            filter is_custom (wire st) ++ messageBuffer st = sent_so_far →
            Forall is_custom (messageBuffer st) →
            filter is_custom (wire (fold_left step evs st))
            ++ messageBuffer (fold_left step evs st)
            = sent_so_far ++ requested evs).
  { induction evs as [|ev evs IH]; intros st sent Hinv Hall.
    - simpl. by rewrite app_nil_r.
    - simpl fold_left.
      destruct (buffer_invariant_step st ev sent Hinv Hall) as [H1 H2].
      rewrite (IH _ _ H1 H2), <- app_assoc. f_equal.
      unfold requested. simpl. by destruct ev. }
  apply (H init []); [done | constructor].
Qed.

End Outbox.

(** ** Batching of hot updates (client/client.ts, [queueUpdate]) *)

Module UpdateQueue.

Section Queue.

(** The promises returned by [fetchUpdate], by identity. *)
Context {Promise : Type}.

(** [pending], [queued], and the [loading] arrays taken so far, oldest
    first. *)
Record State := mkState {
  pending : bool;
  queued : list Promise;
  batches : list (list Promise)
}.

Definition init : State :=
  {| pending := false; queued := []; batches := [] |}.

(** [queueUpdate(p)] up to its first [await]. *)
Definition queueUpdate (p : Promise) (st : State) : State :=
  {| pending := true;   (* either it was, or it is set now *)
     queued := queued st ++ [p];
     batches := batches st |}.

(** The continuation behind [await Promise.resolve()], which is
    outstanding exactly while [pending] holds: [pending] is reset and
    [queued] becomes the next [loading]. *)
Definition resume (st : State) : State :=
  if pending st then
    {| pending := false; queued := [];
       batches := batches st ++ [queued st] |}
  else st.

Inductive Event :=
| EvQueue (p : Promise)
| EvResume.

Definition step (st : State) (ev : Event) : State :=
  match ev with
  | EvQueue p => queueUpdate p st
  | EvResume => resume st
  end.

Definition run (evs : list Event) : State := fold_left step evs init.

Definition queued_so_far (evs : list Event) : list Promise :=
  omap (λ ev, match ev with EvQueue p => Some p | EvResume => None end) evs.

(** X17. The batches partition what was queued: taken one after the other
    and followed by what still waits in [queued], they give the queued
    promises in the order of the calls, so each promise is loaded in
    exactly one batch and a batch keeps the order of the calls; no batch
    is empty; and whenever something waits in [queued] a continuation is
    outstanding that will load it. *)
Theorem batches_partition_the_queue (evs : list Event) :
  concat (batches (run evs)) ++ queued (run evs) = queued_so_far evs
  ∧ Forall (λ batch, batch ≠ []) (batches (run evs))
  ∧ (queued (run evs) ≠ [] ↔ pending (run evs) = true).
Proof.
  assert (H : ∀ st,
            Forall (λ batch, batch ≠ []) (batches st) →
            (queued st ≠ [] ↔ pending st = true) →
            let st' := fold_left step evs st in
            concat (batches st') ++ queued st'
            = (concat (batches st) ++ queued st) ++ queued_so_far evs
            ∧ Forall (λ batch, batch ≠ []) (batches st')
            ∧ (queued st' ≠ [] ↔ pending st' = true)).
  { induction evs as [|ev evs IH]; intros st Hne Hp.
    - simpl. by rewrite app_nil_r.
    - simpl fold_left.
      assert (Hstep :
        concat (batches (step st ev)) ++ queued (step st ev)
        = (concat (batches st) ++ queued st) ++ queued_so_far [ev]
        ∧ Forall (λ batch, batch ≠ []) (batches (step st ev))
        ∧ (queued (step st ev) ≠ [] ↔ pending (step st ev) = true)).
      { destruct ev as [p|]; simpl; unfold queueUpdate, resume; simpl.
        - split; [by rewrite app_assoc|]. split; [done|].
          split; [done|]. intros _. by destruct (queued st).
        - destruct (pending st) eqn:Hpend; simpl.
          + rewrite concat_app. simpl. rewrite !app_nil_r.
            split; [done|]. split; [|done].
            apply Forall_app. split; [done|]. constructor; [|done].
            by apply Hp.
          + rewrite app_nil_r. split; [done|]. split; [done|].
            by rewrite Hpend. }
      destruct Hstep as (H1 & H2 & H3).
      destruct (IH (step st ev) H2 H3) as (H4 & H5 & H6).
      cbv zeta in *. rewrite H4, H1, <- !app_assoc.
      split; [|done]. do 2 f_equal. unfold queued_so_far. simpl.
      by destruct ev. }
  destruct (H init) as (H1 & H2 & H3); [constructor | done |].
  done.
Qed.

End Queue.

End UpdateQueue.

(** ** Injected styles (client/client.ts, [updateStyle] and [removeStyle]) *)

Module Styles.

(** A value of [sheetsMap]: a [<style>] element or a constructed
    [CSSStyleSheet], by identity. *)
Inductive Style :=
| StyleElement (el : nat)
| StyleSheet (sheet : nat).

(** The part of the document the two functions touch: the [<style>]
    children of [document.head] in document order, their [innerHTML],
    [document.adoptedStyleSheets] with the text of each sheet, and
    [sheetsMap]. *)
Record Dom := mkDom {
  head : list nat;
  innerHTML : gmap nat string;
  adoptedStyleSheets : list nat;
  sheetText : gmap nat string;
  sheetsMap : gmap string Style;
  nextNode : nat
}.

Definition empty : Dom :=
  {| head := []; innerHTML := ∅; adoptedStyleSheets := []; sheetText := ∅;
     sheetsMap := ∅; nextNode := 0 |}.

(** The constant computed at load time: the [try] block that would set
    it is commented out. *)
Definition supportsConstructedSheet : bool := false.

(** [content.includes(needle)] *)
Fixpoint includes (content needle : string) : bool :=
  Url.startsWith content needle
  || match content with
     | EmptyString => false
     | String _ rest => includes rest needle
     end.

(** [removeStyle(id)]; [None] when [document.head.removeChild] throws
    because the element is not a child of the head. *)
Definition removeStyle (id : string) (d : Dom) : option Dom :=
  match sheetsMap d !! id with
  | Some (StyleSheet sheet) =>
      Some {| head := head d; innerHTML := innerHTML d;
              adoptedStyleSheets :=
                filter (λ s, s ≠ sheet) (adoptedStyleSheets d);
              sheetText := sheetText d;
              sheetsMap := delete id (sheetsMap d);
              nextNode := nextNode d |}
  | Some (StyleElement el) =>
      if decide (el ∈ head d) then
        Some {| head := filter (λ e, e ≠ el) (head d);
                innerHTML := innerHTML d;
                adoptedStyleSheets := adoptedStyleSheets d;
                sheetText := sheetText d;
                sheetsMap := delete id (sheetsMap d);
                nextNode := nextNode d |}
      else None
  | None => Some d
  end.

(** [updateStyle(id, content)] *)
Definition updateStyle (id content : string) (d : Dom) : option Dom :=
  let style := sheetsMap d !! id in
  if supportsConstructedSheet && negb (includes content "@import") then
    d1 ← match style with
         | Some (StyleElement _) => removeStyle id d
         | _ => Some d
         end;
    let style := match style with Some (StyleSheet s) => Some s | _ => None end in
    match style with
    | None =>
        let sheet := nextNode d1 in
        Some {| head := head d1; innerHTML := innerHTML d1;
                adoptedStyleSheets := adoptedStyleSheets d1 ++ [sheet];
                sheetText := <[sheet := content]> (sheetText d1);
                sheetsMap := <[id := StyleSheet sheet]> (sheetsMap d1);
                nextNode := S (nextNode d1) |}
    | Some sheet =>
        Some {| head := head d1; innerHTML := innerHTML d1;
                adoptedStyleSheets := adoptedStyleSheets d1;
                sheetText := <[sheet := content]> (sheetText d1);
                sheetsMap := <[id := StyleSheet sheet]> (sheetsMap d1);
                nextNode := nextNode d1 |}
    end
  else
    d1 ← match style with
         | Some (StyleSheet _) => removeStyle id d
         | _ => Some d
         end;
    let style := match style with Some (StyleElement e) => Some e | _ => None end in
    match style with
    | None =>
        let el := nextNode d1 in
        Some {| head := head d1 ++ [el];
                innerHTML := <[el := content]> (innerHTML d1);
                adoptedStyleSheets := adoptedStyleSheets d1;
                sheetText := sheetText d1;
                sheetsMap := <[id := StyleElement el]> (sheetsMap d1);
                nextNode := S (nextNode d1) |}
    | Some el =>
        Some {| head := head d1;
                innerHTML := <[el := content]> (innerHTML d1);
                adoptedStyleSheets := adoptedStyleSheets d1;
                sheetText := sheetText d1;
                sheetsMap := <[id := StyleElement el]> (sheetsMap d1);
                nextNode := nextNode d1 |}
    end.

Inductive Op :=
| UpdateStyle (id content : string)
| RemoveStyle (id : string).

Definition apply_op (d : option Dom) (op : Op) : option Dom :=
  d ← d;
  match op with
  | UpdateStyle id content => updateStyle id content d
  | RemoveStyle id => removeStyle id d
  end.

Definition run (ops : list Op) : option Dom := fold_left apply_op ops (Some empty).

(** The style text that should be in force for each id after [ops]. *)
Definition in_force (ops : list Op) : gmap string string :=
  fold_left (λ m op, match op with
                     | UpdateStyle id content => <[id := content]> m
                     | RemoveStyle id => delete id m
                     end) ops ∅.

(** The text a [<style>] element of the head shows for [id]. *)
Definition shown (id : string) (d : Dom) : option string :=
  match sheetsMap d !! id with
  | Some (StyleElement el) =>
      if decide (el ∈ head d) then innerHTML d !! el else None
  | _ => None
  end.

(** *** Proofs *)

(** What holds of every document reached from the empty one. *)
Record consistent (d : Dom) (m : gmap string string) : Prop := {
  cons_shown : ∀ id, shown id d = m !! id;
  cons_elements : ∀ id, is_Some (sheetsMap d !! id) ↔ is_Some (m !! id);
  cons_kind : ∀ id s, sheetsMap d !! id = Some s →
              ∃ el, s = StyleElement el ∧ el ∈ head d;
  cons_inj : ∀ id1 id2 el,
    sheetsMap d !! id1 = Some (StyleElement el) →
    sheetsMap d !! id2 = Some (StyleElement el) → id1 = id2;
  cons_owned : ∀ el, el ∈ head d → ∃ id, sheetsMap d !! id = Some (StyleElement el);
  cons_fresh : ∀ el, el ∈ head d → el < nextNode d;
  cons_nodup : NoDup (head d);
  cons_length : length (head d) = size m;
  cons_sheets : adoptedStyleSheets d = []
}.

Lemma filter_remove_absent (el : nat) (l : list nat) :
  el ∉ l → filter (λ e, e ≠ el) l = l.
Proof.
  induction l as [|x l IH]; [done|].
  intros Hel. apply not_elem_of_cons in Hel as [Hne Hel].
  rewrite filter_cons, decide_True by (by intros ->). by rewrite IH.
Qed.

Lemma length_filter_remove (el : nat) (l : list nat) :
  NoDup l → el ∈ l → length (filter (λ e, e ≠ el) l) = pred (length l).
Proof.
  induction 1 as [|x l Hx Hnd IH]; [by intros ?%elem_of_nil|].
  intros Hel. rewrite filter_cons. destruct (decide (x = el)) as [->|Hne].
  - rewrite decide_False by (by intros ?). simpl.
    by rewrite filter_remove_absent.
  - rewrite decide_True by done. apply elem_of_cons in Hel as [->|Hel]; [done|].
    simpl. rewrite IH by done. destruct l; [by apply elem_of_nil in Hel|done].
Qed.

Lemma consistent_empty : consistent empty ∅.
Proof.
  split; simpl; try done.
  - intros id. rewrite !lookup_empty. by split; intros [? ?].
  - intros el H. by apply elem_of_nil in H.
  - intros el H. by apply elem_of_nil in H.
  - apply NoDup_nil_2.
Qed.

Lemma consistent_update d m id content :
  consistent d m →
  ∃ d', updateStyle id content d = Some d'
        ∧ consistent d' (<[id := content]> m).
Proof.
  intros [Hshown Helems Hkind Hinj Howned Hfresh Hnd Hlen Hsheets].
  unfold updateStyle. simpl.
  destruct (sheetsMap d !! id) as [s|] eqn:Hs.
  - destruct (Hkind id s Hs) as (el & -> & Hel). simpl.
    eexists. split; [done|]. split; simpl; try done.
    + intros id'. unfold shown. simpl.
      destruct (decide (id = id')) as [<-|Hne].
      * rewrite !lookup_insert_eq, decide_True by done.
        done.
      * rewrite !lookup_insert_ne by done. rewrite <- Hshown. unfold shown.
        destruct (sheetsMap d !! id') as [[el'|]|] eqn:Hs'; try done.
        case_decide; [|done]. rewrite lookup_insert_ne; [done|].
        intros <-. apply Hne. by apply (Hinj id id' el).
    + intros id'. rewrite !lookup_insert. case_decide; [|by apply Helems].
      split; by eexists.
    + intros id' s. rewrite lookup_insert. case_decide; [|by apply Hkind].
      intros [= <-]. by eexists.
    + intros id1 id2 el' H1 H2.
      destruct (decide (id = id1)) as [<-|N1], (decide (id = id2)) as [<-|N2];
        [done|..];
        try rewrite lookup_insert_eq in H1; try rewrite lookup_insert_eq in H2;
        try rewrite lookup_insert_ne in H1 by done;
        try rewrite lookup_insert_ne in H2 by done;
        simplify_eq; eauto.
    + intros el' Hel'. destruct (Howned el' Hel') as [id' Hid'].
      exists id'. rewrite lookup_insert. case_decide; [|done].
      subst. rewrite Hs in Hid'. by injection Hid' as <-.
    + rewrite map_size_insert_Some; [done|]. apply Helems. by eexists.
  - simpl. eexists. split; [done|].
    assert (Hnew : nextNode d ∉ head d).
    { intros Hin. apply Hfresh in Hin. lia. }
    split; simpl; try done.
    + intros id'. unfold shown. simpl.
      destruct (decide (id = id')) as [<-|Hne].
      * rewrite !lookup_insert_eq.
        rewrite decide_True by (apply elem_of_app; right; by left).
        done.
      * rewrite !lookup_insert_ne by done. rewrite <- Hshown. unfold shown.
        destruct (sheetsMap d !! id') as [[el'|]|] eqn:Hs'; try done.
        destruct (Hkind id' _ Hs') as (? & [= <-] & Hel').
        rewrite !decide_True; [|done|apply elem_of_app; by left].
        rewrite lookup_insert_ne; [done|]. intros <-. done.
    + intros id'. rewrite !lookup_insert. case_decide; [|by apply Helems].
      split; by eexists.
    + intros id' s. rewrite lookup_insert. case_decide.
      * intros [= <-]. eexists. split; [done|]. apply elem_of_app.
        right. by left.
      * intros Hs'. destruct (Hkind id' s Hs') as (el & -> & Hel).
        exists el. split; [done|]. apply elem_of_app. by left.
    + intros id1 id2 el' H1 H2.
      destruct (decide (id = id1)) as [<-|N1], (decide (id = id2)) as [<-|N2];
        [done|..];
        try rewrite lookup_insert_eq in H1; try rewrite lookup_insert_eq in H2;
        try rewrite lookup_insert_ne in H1 by done;
        try rewrite lookup_insert_ne in H2 by done;
        simplify_eq; eauto.
      * destruct (Hkind _ _ H2) as (? & ? & ?). by simplify_eq.
      * destruct (Hkind _ _ H1) as (? & ? & ?). by simplify_eq.
    + intros el' [Hel'|Hel']%elem_of_app.
      * destruct (Howned el' Hel') as [id' Hid']. exists id'.
        rewrite lookup_insert_ne; [done|]. intros <-. by rewrite Hs in Hid'.
      * apply list_elem_of_singleton in Hel' as ->. exists id.
        by rewrite lookup_insert_eq.
    + intros el' [Hel'|Hel']%elem_of_app.
      * apply Hfresh in Hel'. lia.
      * apply list_elem_of_singleton in Hel' as ->. lia.
    + apply NoDup_app. split; [done|]. split; [|apply NoDup_singleton].
      intros x Hx Hx'. apply list_elem_of_singleton in Hx'. by subst.
    + rewrite length_app, map_size_insert_None; [simpl; lia|].
      destruct (m !! id) eqn:Hmid; [|done].
      destruct (proj2 (Helems id)) as [? ?]; [by eexists | congruence].
Qed.

Lemma consistent_remove d m id :
  consistent d m →
  ∃ d', removeStyle id d = Some d' ∧ consistent d' (delete id m).
Proof.
  intros [Hshown Helems Hkind Hinj Howned Hfresh Hnd Hlen Hsheets].
  unfold removeStyle.
  destruct (sheetsMap d !! id) as [s|] eqn:Hs.
  - destruct (Hkind id s Hs) as (el & -> & Hel).
    rewrite decide_True by done. eexists. split; [done|].
    split; simpl; try done.
    + intros id'. unfold shown. simpl.
      destruct (decide (id = id')) as [<-|Hne].
      * by rewrite !lookup_delete_eq.
      * rewrite !lookup_delete_ne by done. rewrite <- Hshown. unfold shown.
        destruct (sheetsMap d !! id') as [[el'|]|] eqn:Hs'; try done.
        destruct (Hkind id' _ Hs') as (? & [= <-] & Hel').
        rewrite !decide_True; [done|done|].
        apply list_elem_of_filter. split; [|done].
        intros ->. apply Hne. by apply (Hinj id id' el).
    + intros id'. rewrite !lookup_delete. case_decide; [|by apply Helems].
      split; by intros [? ?].
    + intros id' s. rewrite lookup_delete. case_decide; [done|].
      intros Hs'. destruct (Hkind id' s Hs') as (el' & -> & Hel').
      exists el'. split; [done|]. apply list_elem_of_filter. split; [|done].
      intros ->. by apply H, (Hinj id id' el).
    + intros id1 id2 el'. rewrite !lookup_delete.
      repeat case_decide; try done. by apply Hinj.
    + intros el' [Hne Hel']%list_elem_of_filter.
      destruct (Howned el' Hel') as [id' Hid']. exists id'.
      rewrite lookup_delete_ne; [done|]. intros <-.
      rewrite Hs in Hid'. by injection Hid' as <-.
    + intros el' [_ Hel']%list_elem_of_filter. by apply Hfresh.
    + by apply NoDup_filter.
    + rewrite length_filter_remove, map_size_delete_Some by done || (apply Helems; by eexists).
      by f_equal.
  - exists d. split; [done|].
    assert (Hm : m !! id = None).
    { destruct (m !! id) eqn:Hmid; [|done].
      destruct (proj2 (Helems id)) as [? ?]; [by eexists | congruence]. }
    rewrite delete_id by done. by split.
Qed.

(** X18. Starting from a document without injected styles, no sequence of
    [updateStyle] and [removeStyle] calls throws, and afterwards the head
    holds exactly one [<style>] element for each id that was updated and
    not removed since, showing the content given last; removed ids have
    no element left, and no element is there twice or without an id. *)
Theorem injected_styles_track_the_calls (ops : list Op) :
  ∃ d, run ops = Some d
       ∧ (∀ id, shown id d = in_force ops !! id)
       ∧ length (head d) = size (in_force ops)
       ∧ NoDup (head d)
       ∧ adoptedStyleSheets d = [].
Proof.
  assert (H : ∀ d m, consistent d m →
            ∃ d', fold_left apply_op ops (Some d) = Some d'
                  ∧ consistent d'
                      (fold_left (λ m op, match op with
                                          | UpdateStyle id content => <[id := content]> m
                                          | RemoveStyle id => delete id m
                                          end) ops m)).
  { induction ops as [|op ops IH]; intros d m Hc; [by exists d|].
    simpl. destruct op as [id content|id].
    - destruct (consistent_update d m id content Hc) as (d' & -> & Hc').
      by apply IH.
    - destruct (consistent_remove d m id Hc) as (d' & -> & Hc').
      by apply IH. }
  destruct (H empty ∅ consistent_empty) as (d & Hrun & Hc).
  exists d. split; [done|]. fold (in_force ops) in Hc.
  destruct Hc as [Hshown Helems Hkind Hinj Howned Hfresh Hnd Hlen Hsheets].
  done.
Qed.

End Styles.

(** ** Polling for the server (client/client.ts, [waitForSuccessfulPing]) *)

Module Ping.

Inductive Effect :=
| EffFetch (url : string)
| EffTimeout (ms : N).

Definition pingHostProtocol (socketProtocol : string) : string :=
  if String.eqb socketProtocol "wss" then "https" else "http".

Section Ping.

(** Whether the fetch of the given attempt (counted from 0) resolves; a
    networking error rejects it. *)
Variable fetch_ok : nat → bool.

(** The [while (true)] loop from the given attempt on; [None] when the
    loop is still running after [fuel] attempts. *)
Fixpoint ping_loop (fuel attempt : nat) (url : string) (ms : N)
    : option (list Effect) :=
  match fuel with
  | 0 => None
  | S fuel =>
      if fetch_ok attempt then Some [EffFetch url]
      else
        (λ rest, EffFetch url :: EffTimeout ms :: rest)
          <$> ping_loop fuel (S attempt) url ms
  end.

(** [waitForSuccessfulPing(socketProtocol, hostAndPath, ms)] *)
Definition waitForSuccessfulPing (fuel : nat)
    (socketProtocol hostAndPath : string) (ms : N) : option (list Effect) :=
  ping_loop fuel 0
            (pingHostProtocol socketProtocol +:+ "://" +:+ hostAndPath) ms.

Lemma ping_loop_success (k : nat) : ∀ fuel attempt url ms,
  (∀ i, i < k → fetch_ok (attempt + i) = false) →
  fetch_ok (attempt + k) = true →
  k < fuel →
  ping_loop fuel attempt url ms
  = Some (mjoin (replicate k [EffFetch url; EffTimeout ms]) ++ [EffFetch url]).
Proof.
  induction k as [|k IH]; intros fuel attempt url ms Hfail Hok Hfuel;
    (destruct fuel as [|fuel]; [lia|]); simpl.
  - rewrite Nat.add_0_r in Hok. by rewrite Hok.
  - specialize (Hfail 0 ltac:(lia)) as H0. rewrite Nat.add_0_r in H0.
    rewrite H0, (IH fuel (S attempt) url ms); [done| | |lia].
    + intros i Hi. specialize (Hfail (S i) ltac:(lia)).
      by rewrite Nat.add_succ_r in Hfail.
    + by rewrite Nat.add_succ_r in Hok.
Qed.

Lemma ping_loop_failure : ∀ fuel attempt url ms,
  (∀ i, fetch_ok i = false) → ping_loop fuel attempt url ms = None.
Proof.
  induction fuel as [|fuel IH]; intros attempt url ms Hfail; [done|].
  simpl. by rewrite Hfail, IH.
Qed.

(** X19. The loop fetches http(s)://hostAndPath (https exactly for the protocol
    wss) until a fetch resolves, waiting [ms] after each rejected fetch:
    when attempt [k] is the first to resolve it returns after [k+1]
    fetches and [k] waits; when no fetch ever resolves it never returns. *)
Theorem ping_returns_at_first_resolved_fetch
    (socketProtocol hostAndPath : string) (ms : N) :
  let url := (if String.eqb socketProtocol "wss" then "https" else "http")
             +:+ "://" +:+ hostAndPath in
  (∀ k, (∀ i, i < k → fetch_ok i = false) → fetch_ok k = true →
        ∀ fuel, k < fuel →
          waitForSuccessfulPing fuel socketProtocol hostAndPath ms
          = Some (mjoin (replicate k [EffFetch url; EffTimeout ms])
                  ++ [EffFetch url]))
  ∧ ((∀ i, fetch_ok i = false) →
     ∀ fuel, waitForSuccessfulPing fuel socketProtocol hostAndPath ms = None).
Proof.
  split.
  - intros k Hfail Hok fuel Hfuel. by apply ping_loop_success.
  - intros Hfail fuel. by apply ping_loop_failure.
Qed.

End Ping.

End Ping.

(** ** The sockets of a session (client/client.ts, the top-level
    connection and the listeners of [setupWebSocket]) *)

Module Connection.
Import Hmr.

Inductive Event :=
| EvOpen (i : nat)
| EvClose (i : nat) (wasClean : bool).

Definition step (cfg : Config) (page : Page)
    (st : Sockets * list Effect) (ev : Event) : Sockets * list Effect :=
  match ev with
  | EvOpen i => (on_open i st.1, st.2)
  | EvClose i wasClean =>
      let '(ss, effs) := on_close cfg page i wasClean st.1 in
      (ss, st.2 ++ effs)
  end.

Definition run (cfg : Config) (page : Page) (evs : list Event)
    : Sockets * list Effect :=
  fold_left (step cfg page) evs (connect cfg page).

(** The primary socket closing, not cleanly. *)
Definition primary_lost (ev : Event) : bool :=
  match ev with
  | EvClose 0 false => true
  | _ => false
  end.

(** How often the primary socket was lost. *)
Definition primary_losses (evs : list Event) : nat :=
  List.length (List.filter primary_lost evs).

(** *** Proofs *)

(** The direct sockets made by [fallback]. *)
Definition direct (cfg : Config) (page : Page) (ws : WebSocket) : Prop :=
  protocol ws = socketProtocol cfg page
  ∧ hostAndPath ws = directSocketHost cfg
  ∧ onCloseWithoutOpen ws = Some CbReportFailure.

(** What holds of the sockets of every reachable state. *)
Definition shape (cfg : Config) (page : Page) (n : nat) (ss : Sockets) : Prop :=
  ∃ ws0 rest,
    created ss = ws0 :: rest
    ∧ protocol ws0 = socketProtocol cfg page
    ∧ hostAndPath ws0 = socketHost cfg page
    ∧ onCloseWithoutOpen ws0
      = (if port_truthy (hmrPort cfg) then None else Some CbFallback)
    ∧ Forall (direct cfg page) rest
    ∧ (port_truthy (hmrPort cfg) = true → rest = [])
    ∧ (List.length rest ≤ n)%nat
    ∧ socket ss = Some (List.length rest).

Lemma shape_connect cfg page : shape cfg page 0 (connect cfg page).1.
Proof.
  unfold connect, setupWebSocket. simpl.
  eexists _, []. simpl. repeat split; try done.
  by destruct (port_truthy (hmrPort cfg)).
Qed.

Lemma shape_open cfg page n i ss :
  shape cfg page n ss → shape cfg page n (on_open i ss).
Proof.
  intros (ws0 & rest & Hc & Hp & Hh & Hcb & Hrest & Hport & Hlen & Hsock).
  unfold on_open. rewrite Hc. destruct i as [|i]; simpl.
  - eexists _, rest. by repeat split.
  - assert (Hl : ∀ f, List.length (list_alter f i rest) = List.length rest)
      by (intros f; apply (length_alter f rest i)).
    eexists ws0, _. repeat split; rewrite ?Hl; try done.
    + apply Forall_alter; [done|]. by intros ws _ (? & ? & ?).
    + intros Hpt. by rewrite (Hport Hpt).
Qed.

Lemma shape_close cfg page n i wasClean ss :
  shape cfg page n ss →
  shape cfg page (if primary_lost (EvClose i wasClean) then S n else n)
        (on_close cfg page i wasClean ss).1.
Proof.
  intros (ws0 & rest & Hc & Hp & Hh & Hcb & Hrest & Hport & Hlen & Hsock).
  assert (Hsame : ∀ k, (n ≤ k)%nat → shape cfg page k ss).
  { intros k Hk. exists ws0, rest. repeat split; try done. lia. }
  assert (Hn : (n ≤ if primary_lost (EvClose i wasClean) then S n else n)%nat).
  { destruct (primary_lost _); lia. }
  unfold on_close. rewrite Hc. destruct i as [|i]; simpl.
  - destruct wasClean; [by apply Hsame|].
    destruct (isOpened ws0); [by apply Hsame|]. rewrite Hcb.
    destruct (port_truthy (hmrPort cfg)) eqn:Hpt; [by apply Hsame|].
    simpl. rewrite Hc. simpl. eexists ws0, _.
    repeat split; rewrite ?Hpt; try done.
    + apply Forall_app. split; [done|]. by apply Forall_singleton.
    + rewrite length_app. simpl. lia.
    + rewrite length_app. simpl. do 2 f_equal. lia.
  - destruct (rest !! i) as [ws|] eqn:Hws; [|by apply Hsame].
    destruct wasClean; [by apply Hsame|].
    destruct (Forall_lookup_1 _ _ _ _ Hrest Hws) as (_ & _ & ->).
    destruct (isOpened ws); by apply Hsame.
Qed.

(** X20. However the sockets open and close, the first socket goes to the
    page's own address and every other socket to the direct target,
    carrying the failure report and not a further fallback; no other
    socket exists when an hmr port is configured, the others are at most
    as many as the primary socket was lost, and [socket] holds the one
    made last. *)
Theorem only_the_primary_socket_falls_back
    (cfg : Config) (page : Page) (evs : list Event) :
  ∃ ws0 rest,
    created (run cfg page evs).1 = ws0 :: rest
    ∧ hostAndPath ws0 = socketHost cfg page
    ∧ Forall (λ ws, hostAndPath ws = directSocketHost cfg
                    ∧ onCloseWithoutOpen ws = Some CbReportFailure) rest
    ∧ (port_truthy (hmrPort cfg) = true → rest = [])
    ∧ (List.length rest ≤ primary_losses evs)%nat
    ∧ socket (run cfg page evs).1 = Some (List.length rest).
Proof.
  assert (H : shape cfg page (primary_losses evs) (run cfg page evs).1).
  { induction evs as [|ev evs IH] using rev_ind; [apply shape_connect|].
    unfold run, primary_losses in *.
    rewrite fold_left_app, List.filter_app, length_app. simpl.
    destruct ev as [i|i wasClean]; simpl.
    - rewrite Nat.add_0_r. by apply shape_open.
    - pose proof (shape_close cfg page _ i wasClean _ IH) as Hs.
      destruct (on_close cfg page i wasClean _) as [ss effs]. simpl in *.
      destruct i as [|i]; [destruct wasClean|]; simpl in *;
        rewrite ?Nat.add_0_r, ?Nat.add_1_r; done. }
  destruct H as (ws0 & rest & Hc & Hp & Hh & Hcb & Hrest & Hport & Hlen & Hsock).
  exists ws0, rest. repeat split; try done.
  eapply Forall_impl; [done|]. by intros ws (? & ? & ?).
Qed.

End Connection.

(** ** The first update (client/client.ts, [handleMessage], case
    'update' up to the loop over the updates) *)

Module FirstUpdate.

(** What the case does with the batch after notifying the
    'vite:beforeUpdate' listeners. *)
Inductive Outcome :=
| Reloaded   (* [window.location.reload(); return] *)
| Applied.   (* [clearErrorOverlay()], then the updates are handled *)

(** The case for one 'update' payload: [overlays] is what
    [hasErrorOverlay()] returns, the number of overlay elements of the
    document.  Returns the new [isFirstUpdate]. *)
Definition on_update (isFirstUpdate : bool) (overlays : nat) : bool * Outcome :=
  if isFirstUpdate && negb (Nat.eqb overlays 0) then (isFirstUpdate, Reloaded)
  else (false, Applied).

(** The 'update' payloads of a session, each with the number of overlays
    it finds, from [isFirstUpdate = true]. *)
Fixpoint run_from (isFirstUpdate : bool) (overlays : list nat) : list Outcome :=
  match overlays with
  | [] => []
  | n :: rest =>
      let '(isFirstUpdate', o) := on_update isFirstUpdate n in
      o :: run_from isFirstUpdate' rest
  end.

Definition run (overlays : list nat) : list Outcome := run_from true overlays.

Lemma run_from_false (overlays : list nat) (i : nat) :
  i < length overlays → run_from false overlays !! i = Some Applied.
Proof.
  revert i. induction overlays as [|n rest IH]; intros i Hi; simpl in *; [lia|].
  destruct i as [|i]; [done|]. simpl. apply IH. lia.
Qed.

(** X21. An update batch is given up for a page reload exactly when it and
    every batch before it found an error overlay on the page: once one
    batch has been applied, every later batch is applied whether or not
    an overlay is showing. *)
Theorem update_reloads_only_before_first_applied_batch
    (overlays : list nat) (i : nat) :
  i < length overlays →
  run overlays !! i
  = Some (if forallb (λ n, negb (Nat.eqb n 0)) (take (S i) overlays)
          then Reloaded else Applied).
Proof.
  unfold run. revert i.
  induction overlays as [|n rest IH]; intros i Hi; simpl in *; [lia|].
  unfold on_update. simpl. destruct (Nat.eqb n 0); simpl.
  - destruct i as [|i]; [done|]. simpl. apply run_from_false. lia.
  - destruct i as [|i]; [done|]. simpl. apply IH. lia.
Qed.

Lemma update_reloads_only_before_first_applied_batch_witness :
  run [2; 1; 0; 3] !! 1 = Some Reloaded.
Proof.
  exact (update_reloads_only_before_first_applied_batch [2; 1; 0; 3] 1
           ltac:(simpl; lia)).
Defined.

End FirstUpdate.
